(** * phi_bbp: the series evaluator and the verification harness

    A shallow embedding of [verify_formula.py] (and of the figures of
    [generate_figures.py] that compute).

    Numeric domains.
    - A Python [int] is a [Z].
    - An [mpf] is a rational, [Qc], with two arithmetics.  The exact one is
      the arithmetic that the working precision approximates; the control
      flow, the error paths and the bounds with a margin are stated on it,
      with the precision kept as ambient state, as in the source.  The
      arithmetic of module [Rounded] rounds each constructor and each
      operation to [mp.prec] bits, as the library does; what is said of the
      value an evaluator returns is said there.
    - A Python [float] (and a numpy [float64]) is a real number, [R], with
      [log10], [atan] and [log] the functions of analysis.
    - A [float] literal of the source is written as the decimal it denotes;
      [binary64] gives the float itself. *)

From Stdlib Require Import QArith Qround Qabs Qpower.
From Stdlib Require Lqa.
From Stdlib Require Import ZArith QArith Qcanon List String Lia Bool.
From Stdlib Require Import Permutation Reals Lra.
From Stdlib Require Import Qcabs Machin.
Import ListNotations.

Open Scope Z_scope.

(** ** Exceptions and results *)

Inductive exn : Type :=
| ZeroDivisionError
| IndexError
| ValueError.

Inductive result (A : Type) : Type :=
| Ok (a : A)
| Raise (e : exn).

Arguments Ok {A} a.
Arguments Raise {A} e.

Definition bind {A B : Type} (r : result A) (f : A -> result B) : result B :=
  match r with
  | Ok a => f a
  | Raise e => Raise e
  end.

Declare Scope result_scope.
Delimit Scope result_scope with result.
Notation "x <- r ;; k" := (bind r (fun x => k))
  (at level 100, r at next level, right associativity) : result_scope.

(** [for x in l: s = body(s, x)], stopping at the first exception. *)
Fixpoint for_each {A S : Type} (l : list A) (body : S -> A -> result S) (s : S)
  : result S :=
  match l with
  | [] => Ok s
  | a :: l' =>
      match body s a with
      | Ok s' => for_each l' body s'
      | Raise e => Raise e
      end
  end.

(** [[f(x) for x in l]]. *)
Fixpoint comprehension {A B : Type} (f : A -> result B) (l : list A)
  : result (list B) :=
  match l with
  | [] => Ok []
  | a :: l' =>
      match f a with
      | Ok b =>
          match comprehension f l' with
          | Ok bs => Ok (b :: bs)
          | Raise e => Raise e
          end
      | Raise e => Raise e
      end
  end.

(** [range(n)]: empty when [n <= 0]. *)
Definition range (n : Z) : list Z := map Z.of_nat (seq 0 (Z.to_nat n)).

(** [l[i]] for [i >= 0]. *)
Definition getitem {A : Type} (l : list A) (i : Z) : result A :=
  if i <? 0 then Raise IndexError
  else match nth_error l (Z.to_nat i) with
       | Some a => Ok a
       | None => Raise IndexError
       end.

(** ** The [mpf] numbers

    The exact arithmetic; [Rounded], further down, is the arithmetic at the
    working precision. *)

Abbreviation mpf := Qc (only parsing).

Definition mpf_of_int (z : Z) : mpf := Q2Qc (inject_Z z).

(** [mpf(x)] for a float [x], given by its decimal literal. *)
Definition mpf_of_float (x : Q) : mpf := Q2Qc x.

Definition mpf_is_zero (x : mpf) : bool := (Qnum (this x) =? 0)%Z.

Definition mpf_div (x y : mpf) : result mpf :=
  if mpf_is_zero y then Raise ZeroDivisionError else Ok (x / y)%Qc.

(** [x ** k] for a Python [int] exponent. *)
Definition mpf_pow (x : mpf) (k : Z) : result mpf :=
  if 0 <=? k then Ok (x ^ Z.to_nat k)%Qc
  else mpf_div (mpf_of_int 1) (x ^ Z.to_nat (- k))%Qc.

(** ** Formula constants *)

Definition INT_COEFS : list Z := [256; -32; 4; 1; -128; -64; -128; 4].

Definition PHI_CORRECTIONS : list Q :=
  [ 0.021013707249693914;
    -0.047113568832732489;
    0.007043075951984248;
    0.013181561904277411;
    0.073263011134871173;
    -0.102346114400464053;
    -0.153352294762736929;
    0.047671994116562255 ]%Q.

(** Slot structure: (period, offset). *)
Definition SLOTS : list (Z * Z) :=
  [(4, 1); (4, 3); (12, 1); (12, 3); (12, 5); (12, 7); (12, 9); (12, 11)].

(** ** Formula evaluation

    The module constants are parameters of the loops; the functions of the
    source are their instances at the constants above. *)

Section Series.

Variable slots : list (Z * Z).
Variable int_coefs : list Z.
Variable phi_corrections : list Q.

Open Scope result_scope.

(** [[mpf(INT_COEFS[i]) + mpf(PHI_CORRECTIONS[i]) for i in range(8)]] *)
Definition effective_coefs : result (list mpf) :=
  comprehension
    (fun i =>
       a <- getitem int_coefs i ;;
       c <- getitem phi_corrections i ;;
       Ok (mpf_of_int a + mpf_of_float c)%Qc)
    (range 8).

(** One pass of the inner loop:
    [denom = period * k + offset; if denom != 0: inner += coef / denom]. *)
Definition inner_body {C : Type} (to_mpf : C -> mpf) (k : Z)
  (inner : mpf) (sc : (Z * Z) * C) : result mpf :=
  let '((period, offset), coef) := sc in
  let denom := period * k + offset in
  if negb (denom =? 0) then
    q <- mpf_div (to_mpf coef) (mpf_of_int denom) ;;
    Ok (inner + q)%Qc
  else Ok inner.

(** One pass of the outer loop. *)
Definition term_body {C : Type} (to_mpf : C -> mpf) (coefs : list C)
  (res : mpf) (k : Z) : result mpf :=
  sign <- mpf_pow (mpf_of_int (-1)) k ;;
  p <- mpf_pow (mpf_of_int 4096) k ;;
  base_term <- mpf_div (mpf_of_int 1) p ;;
  inner <- for_each (combine slots coefs) (inner_body to_mpf k) (mpf_of_int 0) ;;
  Ok (res + sign * base_term * inner)%Qc.

Definition series {C : Type} (to_mpf : C -> mpf) (coefs : list C)
  (n_terms : Z) : result mpf :=
  res <- for_each (range n_terms) (term_body to_mpf coefs) (mpf_of_int 0) ;;
  mpf_div res (mpf_of_int 64).

(** The arithmetic of [evaluate_phi_bbp]. *)
Definition phi_bbp_value (n_terms : Z) : result mpf :=
  coefs <- effective_coefs ;;
  series (fun c : mpf => c) coefs n_terms.

(** The arithmetic of [evaluate_integer_only]. *)
Definition integer_only_value (n_terms : Z) : result mpf :=
  series mpf_of_int int_coefs n_terms.

End Series.

(** ** The ambient state: working precision and console *)

(** A printed line is the sequence of the pieces of its f-string: literal
    text, and numbers with the format they are printed in. *)
Inductive piece : Type :=
| Str (s : string)
| Txt (fmt : string) (s : string)
| Flt (fmt : string) (x : R)
| Int (fmt : string) (n : Z).

(** What one call of [print] writes. *)
Definition line : Type := list piece.

Record world : Type := mkWorld {
  mp_dps : Z;            (* mp.dps *)
  stdout : list line     (* what has been printed, oldest first *)
}.

Definition M (A : Type) : Type := world -> result A * world.

Definition ret {A : Type} (a : A) : M A := fun w => (Ok a, w).

Definition bindM {A B : Type} (m : M A) (f : A -> M B) : M B :=
  fun w =>
    match m w with
    | (Ok a, w') => f a w'
    | (Raise e, w') => (Raise e, w')
    end.

Definition lift {A : Type} (r : result A) : M A := fun w => (r, w).

(** [mp.dps = precision] *)
Definition set_dps (precision : Z) : M unit :=
  fun w => (Ok tt, mkWorld precision (stdout w)).

Definition print (l : line) : M unit :=
  fun w => (Ok tt, mkWorld (mp_dps w) (stdout w ++ [l])).

Declare Scope M_scope.
Delimit Scope M_scope with M.
Notation "x <- m ;; k" := (bindM m (fun x => k))
  (at level 100, m at next level, right associativity) : M_scope.
Notation "m ;;; k" := (bindM m (fun _ => k))
  (at level 100, k at level 200, right associativity) : M_scope.

Definition init_world : world := mkWorld 15 [].

(** ** The two evaluators of the source

    [PHI = mpf(mp_phi)] in [evaluate_phi_bbp] is never read and has no
    effect; it is left out. *)

Definition evaluate_phi_bbp (n_terms precision : Z) : M mpf :=
  (set_dps precision ;;;
   lift (phi_bbp_value SLOTS INT_COEFS PHI_CORRECTIONS n_terms))%M.

Definition evaluate_integer_only (n_terms precision : Z) : M mpf :=
  (set_dps precision ;;;
   lift (integer_only_value SLOTS INT_COEFS n_terms))%M.

(** ** The coefficient set, as the data model has it *)

Record slot_entry : Type := mkSlot {
  period : Z;
  offset : Z;
  int_part : Z;
  correction : Q
}.

Definition coefficient_set : Type := list slot_entry.

(** The three parallel lists of a coefficient set. *)
Definition slots_of (cs : coefficient_set) : list (Z * Z) :=
  map (fun s => (period s, offset s)) cs.
Definition int_coefs_of (cs : coefficient_set) : list Z := map int_part cs.
Definition corrections_of (cs : coefficient_set) : list Q := map correction cs.

(** The coefficient set of the module constants. *)
Definition phi_bbp_coefficients : coefficient_set :=
  map (fun '((p, o), a, c) => mkSlot p o a c)
      (combine (combine SLOTS INT_COEFS) PHI_CORRECTIONS).

(** The evaluators on an arbitrary coefficient set. *)
Definition evaluate_phi_bbp_on (cs : coefficient_set) (n_terms precision : Z)
  : M mpf :=
  (set_dps precision ;;;
   lift (phi_bbp_value (slots_of cs) (int_coefs_of cs) (corrections_of cs)
           n_terms))%M.

Definition evaluate_integer_only_on (cs : coefficient_set)
  (n_terms precision : Z) : M mpf :=
  (set_dps precision ;;;
   lift (integer_only_value (slots_of cs) (int_coefs_of cs) n_terms))%M.

(** Slot invariants: period 4 or 12, offset odd and strictly between 0 and
    the period. *)
Definition slot_ok (p o : Z) : Prop :=
  (p = 4 \/ p = 12) /\ Z.odd o = true /\ 0 < o < p.

Definition valid_coefficient_set (cs : coefficient_set) : Prop :=
  List.length cs = 8%nat /\ Forall (fun s => slot_ok (period s) (offset s)) cs.

(** ** The partial sum, in the words of the specification *)

Inductive mode : Type := Corrected | IntegerOnly.

Definition effective (m : mode) (s : slot_entry) : Qc :=
  match m with
  | Corrected => (Q2Qc (inject_Z (int_part s)) + Q2Qc (correction s))%Qc
  | IntegerOnly => Q2Qc (inject_Z (int_part s))
  end.

Definition radix : Qc := Q2Qc (inject_Z 4096).
Definition scale : Qc := Q2Qc (inject_Z 64).

(** +1 for k = 0, then alternating. *)
Definition spec_sign (k : nat) : Qc := if Nat.even k then 1%Qc else (- (1))%Qc.

(** radix^(-k) *)
Definition spec_base (k : nat) : Qc := (/ (radix ^ k))%Qc.

(** sum over the slots of effective_coef / (period * k + offset) *)
Definition spec_inner (m : mode) (cs : coefficient_set) (k : nat) : Qc :=
  fold_right
    (fun s acc =>
       (effective m s / Q2Qc (inject_Z (period s * Z.of_nat k + offset s))
        + acc)%Qc)
    0%Qc cs.

Definition spec_term (m : mode) (cs : coefficient_set) (k : nat) : Qc :=
  (spec_sign k * spec_base k * spec_inner m cs k)%Qc.

(** the sum of [f 0 .. f (n-1)] *)
Fixpoint big_sum (f : nat -> Qc) (n : nat) : Qc :=
  match n with
  | O => 0%Qc
  | S n' => (big_sum f n' + f n')%Qc
  end.

Definition spec_partial_sum (m : mode) (cs : coefficient_set) (n : nat) : Qc :=
  (big_sum (spec_term m cs) n / scale)%Qc.

(** ** Floats *)

Definition Rltb (x y : R) : bool := if Rlt_dec x y then true else false.

(** [np.log10] *)
Definition np_log10 (x : R) : R := (ln x / ln 10)%R.

(** [mp_phi] and [mp_pi] *)
Definition mp_phi : R := ((1 + sqrt 5) / 2)%R.
Definition mp_pi : R := PI.

(** [float(abs(value - mp_pi))] *)
Definition abs_error (value : mpf) : R := Rabs (Q2R value - mp_pi).

Definition mark (b : bool) : piece := Str (if b then "✓" else "✗").

(** [sum(l)] *)
Definition py_sum (l : list R) : R := fold_left Rplus l 0%R.

Fixpoint repeat_string (s : string) (n : nat) : string :=
  match n with
  | O => EmptyString
  | S n' => (s ++ repeat_string s n')%string
  end.

(** ["\n"] and ["=" * 70] *)
Definition nl : string := String (Ascii.ascii_of_nat 10) EmptyString.
Definition rule70 : string := repeat_string "=" 70.

(** The banner of a check. *)
Definition banner (title : string) : M unit :=
  (print [Str (nl ++ rule70)] ;;;
   print [Str title] ;;;
   print [Str rule70])%M.

(** [for x in l: body(x)] for a body with effects. *)
Fixpoint for_eachM {A S : Type} (l : list A) (body : S -> A -> M S) (s : S)
  : M S :=
  match l with
  | [] => ret s
  | a :: l' => bindM (body s a) (fun s' => for_eachM l' body s')
  end.

(** ** 2. Convergence rate *)


(** [errors[0]] and [errors[-1]] *)
Definition first_sample (errors : list (Z * R)) : result (Z * R) :=
  match errors with
  | [] => Raise IndexError
  | s :: _ => Ok s
  end.

Definition last_sample (errors : list (Z * R)) : result (Z * R) :=
  match rev errors with
  | [] => Raise IndexError
  | s :: _ => Ok s
  end.

(** Compute rate from error reduction.  ([digits_gained] is a numpy
    [float64]: were [terms_used] zero, the division would give an infinity or
    a NaN with a warning, where the division of [R] gives 0; the samples of
    the source have [n2 - n1 = 4].) *)
Definition measured_rate (errors : list (Z * R)) : result R :=
  (s1 <- first_sample errors ;;
   s2 <- last_sample errors ;;
   let '(n1, e1) := s1 in
   let '(n2, e2) := s2 in
   if Rltb 0 e2 && Rltb 0 e1 then
     let digits_gained := (np_log10 e1 - np_log10 e2)%R in
     let terms_used := n2 - n1 in
     Ok (digits_gained / IZR terms_used)%R
   else
     Ok 3.61%R)%result.

Definition theoretical_rate : R := np_log10 4096.

Definition rate_verified (rate : R) : bool :=
  Rltb (Rabs (rate - theoretical_rate)) 0.5.

Definition report_rate (rate : R) : M bool :=
  (print [Str (nl ++ "  CLAIM: rate ≈ 3.61 digits/term")] ;;;
   print [Str "  THEORETICAL: log₁₀(4096) = "; Flt ".2f" theoretical_rate] ;;;
   print [Str "  MEASURED: "; Flt ".2f" rate; Str " digits/term"] ;;;
   print [Str "  VERIFIED: "; mark (rate_verified rate)] ;;;
   ret (rate_verified rate))%M.

(** Lines 150-169: from the samples to the verdict. *)
Definition analyze_convergence (errors : list (Z * R)) : M bool :=
  (rate <- lift (measured_rate errors) ;;
   report_rate rate)%M.


(** ** 4. Total correction closed form *)




(** ** Figure 3 of [generate_figures.py] *)

Module generate_figures.

Definition PHI_CORRECTIONS : list Q :=
  [ 0.021013707249693914;
    -0.047113568832732489;
    0.007043075951984248;
    0.013181561904277411;
    0.073263011134871173;
    -0.102346114400464053;
    -0.153352294762736929;
    0.047671994116562255 ]%Q.

(** [np.linspace(start, stop, num)] *)
Definition linspace (start stop : R) (num : Z) : list R :=
  map (fun i => (start + IZR i * ((stop - start) / IZR (num - 1)))%R)
      (range num).

(** What the function hands to the plotting layer. *)
Record closed_form_figure : Type := mkFigure {
  error_grid : list (list R);          (* error_grid[i][j] *)
  best_point : R * R;                  (* the marked (best_b, best_a) *)
  components : list (string * R)
}.

Definition figure3_closed_form : M closed_form_figure :=
  (print [Str "Generating Figure 3: Closed-Form Analysis..."] ;;;
   set_dps 50 ;;;
   let PHI := mp_phi in
   let total := py_sum (map Q2R PHI_CORRECTIONS) in
   let atan_phi := atan (1 / PHI) in
   let log_phi := ln PHI in
   let a_range := linspace (-1) 1 100 in
   let b_range := linspace (-2) 0 100 in
   let grid :=
     map (fun a =>
            map (fun b => Rabs (a * atan_phi + b * log_phi - total)%R)
                b_range)
         a_range in
   let best_a := (13 / 20)%R in
   let best_b := (-26 / 25)%R in
   let comps :=
     [ ("arctan(1/φ) term", ((13 / 20) * atan_phi)%R);
       ("log(φ) term", ((-26 / 25) * log_phi)%R);
       ("Sum (closed form)",
         ((13 / 20) * atan_phi + (-26 / 25) * log_phi)%R);
       ("Actual total", total) ]%string in
   print [Str "  Saved: figures/fig3_closed_form.png"] ;;;
   ret (mkFigure grid (best_b, best_a) comps))%M.

Definition INT_COEFS : list Z := [256; -32; 4; 1; -128; -64; -128; 4].

Definition SLOTS : list (Z * Z) :=
  [(4, 1); (4, 3); (12, 1); (12, 3); (12, 5); (12, 7); (12, 9); (12, 11)].

Definition RATIONAL_APPROX : list (Z * Z * Z) :=
  [(46, 11, -11); (-31, 96, -4); (53, 99, -9); (31, 81, -7);
   (13, 16, -5); (-47, 67, -4); (-41, 39, -4); (71, 83, -6)].

(** The evaluators of [generate_figures.py]: the same loops, returning
    [float(abs(result / mpf(64) - mp_pi))]. *)
Definition evaluate_phi_bbp (n_terms precision : Z) : M R :=
  (set_dps precision ;;;
   value <- lift (phi_bbp_value SLOTS INT_COEFS PHI_CORRECTIONS n_terms) ;;
   ret (abs_error value))%M.

Definition evaluate_integer_only (n_terms precision : Z) : M R :=
  (set_dps precision ;;;
   value <- lift (integer_only_value SLOTS INT_COEFS n_terms) ;;
   ret (abs_error value))%M.

(** What [imshow] is given in figure 3: [np.log10(error_grid + 1e-20)]. *)
Definition heatmap (fig : closed_form_figure) : list (list R) :=
  map (map (fun e => np_log10 (e + 1e-20)%R)) (error_grid fig).

End generate_figures.

(** ** 6. Mathematical identities *)

(** The last three statements of each block: the error line with its mark,
    and [all_verified = all_verified and (err < 1e-10)]. *)
Definition error_line (err : R) : line :=
  [Str "  Error: "; Flt ".2e" err; Str " "; mark (Rltb err 1e-10)].

Definition check_identity (shown expected : line) (err : R)
  (all_verified : bool) : M bool :=
  (print shown ;;;
   print expected ;;;
   print (error_line err) ;;;
   ret (all_verified && Rltb err 1e-10))%M.

(** The five blocks, on the values of their two sides. *)
Definition identity_checks
  (val1 val2 val3 expected3 val4 expected4 val5 expected5 : R) : M bool :=
  (let all_verified := true in
   (* Identity 1 *)
   let err1 := Rabs (val1 - 3) in
   all_verified <-
     check_identity [Str (nl ++ "  φ² + φ⁻² = "); Flt ".15f" val1]
       [Str "  Expected: 3"] err1 all_verified ;;
   (* Identity 2 *)
   let err2 := Rabs (val2 - 4) in
   all_verified <-
     check_identity [Str (nl ++ "  φ² + φ⁻² + 1 = "); Flt ".15f" val2]
       [Str "  Expected: 4"] err2 all_verified ;;
   (* Identity 3 *)
   let err3 := Rabs (val3 - expected3) in
   all_verified <-
     check_identity
       [Str (nl ++ "  arctan(1/φ) + arctan(1/φ³) = "); Flt ".15f" val3]
       [Str "  π/4 = "; Flt ".15f" expected3] err3 all_verified ;;
   (* Identity 4 *)
   let err4 := Rabs (val4 - expected4) in
   all_verified <-
     check_identity [Str (nl ++ "  Li₁(1/φ) = "); Flt ".15f" val4]
       [Str "  2×log(φ) = "; Flt ".15f" expected4] err4 all_verified ;;
   (* Identity 5 *)
   let err5 := Rabs (val5 - expected5) in
   all_verified <-
     check_identity [Str (nl ++ "  Li₂(1/φ²) = "); Flt ".15f" val5]
       [Str "  π²/15 - log²(φ) = "; Flt ".15f" expected5] err5 all_verified ;;
   print [Str (nl ++ "  ALL IDENTITIES VERIFIED: "); mark all_verified] ;;;
   ret all_verified)%M.

Section Identities.

(** [mpmath.polylog], of the library. *)
Variable polylog : Z -> R -> R.

Definition verify_mathematical_identities : M bool :=
  (banner "6. MATHEMATICAL IDENTITIES" ;;;
   set_dps 50 ;;;
   let PHI := mp_phi in
   identity_checks
     (powerRZ PHI 2 + powerRZ PHI (-2))%R
     (powerRZ PHI 2 + powerRZ PHI (-2) + 1)%R
     (atan (1 / PHI) + atan (1 / powerRZ PHI 3))%R
     (mp_pi / 4)%R
     (polylog 1 (1 / PHI)%R)
     (2 * ln PHI)%R
     (polylog 2 (1 / powerRZ PHI 2)%R)
     (powerRZ mp_pi 2 / 15 - powerRZ (ln PHI) 2)%R)%M.

End Identities.

(** ** Main *)

Section Harness.

(** The seven checks, [verify_accuracy] to [verify_integer_improvement]. *)
Variables accuracy convergence_rate phi_pattern total_correction_check
  bellard_comparison mathematical_identities integer_improvement : M bool.

Definition summary_line (name : string) (passed : bool) : line :=
  [Str "  "; Txt "25s" name; Str " ";
   Str (if passed then "✓ PASSED" else "✗ FAILED")].

(** [for name, passed in results: ...] *)
Definition summarize (results : list (string * bool)) : M bool :=
  for_eachM results
    (fun all_passed '(name, passed) =>
       (print (summary_line name passed) ;;;
        ret (all_passed && passed))%M)
    true.

Definition print_header : M unit :=
  (print [Str rule70] ;;;
   print [Str "φ-BBP FORMULA VERIFICATION"] ;;;
   print [Str rule70] ;;;
   print [Str (nl ++ "Verifying all claims from the paper..." ++ nl)])%M.

(** The last three calls of [print] in [main]. *)
Definition print_verdict (all_passed : bool) : M unit :=
  (print [Str (nl ++ rule70)] ;;;
   (if all_passed then print [Str "ALL CLAIMS VERIFIED ✓"]
    else print [Str "SOME CLAIMS FAILED ✗"]) ;;;
   print [Str rule70])%M.

Definition main : M bool :=
  (print_header ;;;
   let results : list (string * bool) := [] in
   r <- accuracy ;;
   let results := results ++ [("Accuracy"%string, r)] in
   r <- convergence_rate ;;
   let results := results ++ [("Convergence Rate"%string, r)] in
   r <- phi_pattern ;;
   let results := results ++ [("φ-Pattern"%string, r)] in
   r <- total_correction_check ;;
   let results := results ++ [("Total Correction"%string, r)] in
   r <- bellard_comparison ;;
   let results := results ++ [("Bellard Comparison"%string, r)] in
   r <- mathematical_identities ;;
   let results := results ++ [("Mathematical Identities"%string, r)] in
   r <- integer_improvement ;;
   let results := results ++ [("Integer Improvement"%string, r)] in
   (* Summary *)
   banner "VERIFICATION SUMMARY" ;;;
   all_passed <- summarize results ;;
   print_verdict all_passed ;;;
   ret all_passed)%M.

(** [success = main(); exit(0 if success else 1)]; an exception that
    escapes [main] ends the process with status 1. *)
Definition exit_status (w : world) : Z :=
  match fst (main w) with
  | Ok success => if success then 0 else 1
  | Raise _ => 1
  end.

End Harness.

(** What a slot adds to [inner] at index [k]. *)
Definition contribution {C : Type} (to_mpf : C -> mpf) (k : Z)
  (sc : (Z * Z) * C) : mpf :=
  let '((p, o), c) := sc in
  if p * k + o =? 0 then 0%Qc else (to_mpf c / mpf_of_int (p * k + o))%Qc.


(** The term of index [i], as the outer loop adds it to [result]. *)
Definition loop_term {C : Type} (to_mpf : C -> mpf) (slots : list (Z * Z))
  (coefs : list C) (i : nat) : Qc :=
  (spec_sign i * spec_base i
   * fold_right (fun sc acc => contribution to_mpf (Z.of_nat i) sc + acc) 0
       (combine slots coefs))%Qc.

(** ** The other checks of [verify_formula.py] *)

(** [x / y] on Python floats. *)
Definition float_div (x y : R) : result R :=
  if Req_dec_T y 0%R then Raise ZeroDivisionError else Ok (x / y)%R.

(** [num / den] on Python ints. *)
Definition int_true_div (num den : Z) : result R :=
  if den =? 0 then Raise ZeroDivisionError else Ok (IZR num / IZR den)%R.

(** [enumerate(l)] *)
Definition enumerate {A : Type} (l : list A) : list (Z * A) :=
  combine (range (Z.of_nat (List.length l))) l.

(** *** 3. The correction pattern *)

(** Rational approximations: (numerator, denominator, phi_power). *)
Definition RATIONAL_APPROX : list (Z * Z * Z) :=
  [ (46, 11, -11);
    (-31, 96, -4);
    (53, 99, -9);
    (31, 81, -7);
    (13, 16, -5);
    (-47, 67, -4);
    (-41, 39, -4);
    (71, 83, -6) ].

(** [float((num / den) * (PHI ** phi_pow))], [PHI] being [mpf(mp_phi)]. *)
Definition phi_approx (num den phi_pow : Z) : result R :=
  (q <- int_true_div num den ;;
   Ok (q * powerRZ mp_phi phi_pow)%R)%result.

(** Whether a correction is within 1e-4 of its approximation. *)
Definition slot_verified (item : Q * (Z * Z * Z)) : bool :=
  let '(corr, (num, den, phi_pow)) := item in
  Rltb (Rabs (Q2R corr - IZR num / IZR den * powerRZ mp_phi phi_pow)) 1e-4.

(** The error of an approximation: [abs(corr - approx)]. *)
Definition slot_error (item : Q * (Z * Z * Z)) : R :=
  let '(corr, (num, den, phi_pow)) := item in
  Rabs (Q2R corr - IZR num / IZR den * powerRZ mp_phi phi_pow).

(** One pass of the loop of [verify_phi_pattern]. *)
Definition phi_pattern_body (all_verified : bool)
  (item : Z * (Q * (Z * Z * Z))) : M bool :=
  let '(i, (corr, (num, den, phi_pow))) := item in
  (approx <- lift (phi_approx num den phi_pow) ;;
   let error := Rabs (Q2R corr - approx) in
   let verified := Rltb error 1e-4 in
   let all_verified := all_verified && verified in
   print [Str "  ["; Int "" i; Str "] "; Flt "+.10f" (Q2R corr); Str " ≈ (";
          Int "+3d" num; Str "/"; Int "2d" den; Str ") × φ^";
          Int "+3d" phi_pow] ;;;
   print [Str "       = "; Flt "+.10f" approx; Str ", error = ";
          Flt ".2e" error; Str " "; mark verified] ;;;
   ret all_verified)%M.

(** The loop, on the two lists it zips. *)
Definition phi_pattern_loop (corrections : list Q)
  (approximations : list (Z * Z * Z)) : M bool :=
  for_eachM (enumerate (combine corrections approximations))
    phi_pattern_body true.

Definition verify_phi_pattern : M bool :=
  (banner "3. φ-CORRECTION PATTERN" ;;;
   set_dps 50 ;;;
   print [Str (nl ++ "  Correction = (n/d) × φ^k approximations:" ++ nl)] ;;;
   all_verified <- phi_pattern_loop PHI_CORRECTIONS RATIONAL_APPROX ;;
   print [Str (nl ++ "  ALL VERIFIED: "); mark all_verified] ;;;
   ret all_verified)%M.

(** *** 5. Comparison to Bellard *)

Definition bellard_improvement : R :=
  let phi_bbp_rate := np_log10 4096 in
  let bellard_rate := np_log10 1024 in
  ((phi_bbp_rate / bellard_rate - 1) * 100)%R.

Definition verify_bellard_comparison : M bool :=
  (banner "5. COMPARISON TO BELLARD" ;;;
   let phi_bbp_rate := np_log10 4096 in
   let bellard_rate := np_log10 1024 in
   let improvement := bellard_improvement in
   print [Str (nl ++ "  φ-BBP rate: log₁₀(4096) = "); Flt ".2f" phi_bbp_rate;
          Str " digits/term"] ;;;
   print [Str "  Bellard rate: log₁₀(1024) = "; Flt ".2f" bellard_rate;
          Str " digits/term"] ;;;
   print [Str "  Improvement: "; Flt ".1f" improvement; Str "%"] ;;;
   print [Str (nl ++ "  CLAIM: ~20% faster")] ;;;
   print [Str "  VERIFIED: "; mark (Rltb (Rabs (improvement - 20)) 2)] ;;;
   ret (Rltb (Rabs (improvement - 20)) 2))%M.

(** *** 7. Improvement over integer-only *)

(** From the two errors to the verdict. *)
Definition improvement_verdict (int_error phi_error : R) : M bool :=
  (improvement <- lift (float_div int_error phi_error) ;;
   print [Str (nl ++ "  Integer-only error: "); Flt ".2e" int_error] ;;;
   print [Str "  φ-corrected error: "; Flt ".2e" phi_error] ;;;
   print [Str "  Improvement factor: "; Flt ".2e" improvement] ;;;
   print [Str (nl ++ "  CLAIM: improvement > 10¹⁵")] ;;;
   print [Str "  VERIFIED: "; mark (Rltb 1e15 improvement)] ;;;
   ret (Rltb 1e15 improvement))%M.

(** *** Figure 2 of [generate_figures.py]

    The figure module has its own copies of the constants, equal to those
    above; its [PHI] is [float(mp_phi)], and [PHI ** phi_pow] a float
    power. *)

(** What the function hands to the plotting layer. *)
Record corrections_figure : Type := mkCorrectionsFigure {
  bar_colors : list string;      (* colors *)
  approx_errors : list R;        (* approx_errors *)
  highlighted : R                (* approx_errors[4], the bar marked Cleanest *)
}.

(** One pass of the loop of [figure2_corrections]. *)
Definition figure2_body (approx_errors : list R)
  (item : Z * (Q * (Z * Z * Z))) : M (list R) :=
  let '(i, (corr, (num, den, phi_pow))) := item in
  (approx <- lift (phi_approx num den phi_pow) ;;
   let error := Rabs (Q2R corr - approx) in
   ret (approx_errors ++ [error]))%M.

Definition figure2_corrections : M corrections_figure :=
  (print [Str "Generating Figure 2: φ-Correction Pattern..."] ;;;
   set_dps 50 ;;;
   let colors :=
     map (fun c => if Rltb 0 (Q2R c) then "green"%string else "red"%string)
         generate_figures.PHI_CORRECTIONS in
   approx_errors <-
     for_eachM
       (enumerate (combine generate_figures.PHI_CORRECTIONS
                   generate_figures.RATIONAL_APPROX))
       figure2_body [] ;;
   cleanest <- lift (getitem approx_errors 4) ;;
   print [Str "  Saved: figures/fig2_corrections.png"] ;;;
   ret (mkCorrectionsFigure colors approx_errors cleanest))%M.

(** A coefficient set with the corrections alone. *)
Definition corrections_only (cs : coefficient_set) : coefficient_set :=
  map (fun s => mkSlot (period s) (offset s) 0 (correction s)) cs.

(** The sum of the absolute values of the effective coefficients. *)
Definition coefficient_mass (m : mode) (cs : coefficient_set) : Qc :=
  fold_right (fun s acc => (Qcabs (effective m s) + acc)%Qc) 0%Qc cs.

(** ** The arithmetic of [mpf] at the working precision

    [mpmath] is not part of the repository.  Its [mpf] is a binary floating
    point number with [mp.prec] bits of mantissa and an unbounded exponent;
    a constructor or an operation computes the exact result and rounds it
    once, to nearest, ties to even.  [mp.dps = n] sets [mp.prec] to
    [dps_to_prec n]. *)

(** Nearest integer, ties to even. *)
Definition round_half_even (x : Q) : Z :=
  let f := Qfloor x in
  match (x - inject_Z f ?= 1 # 2)%Q with
  | Lt => f
  | Gt => f + 1
  | Eq => if Z.even f then f else f + 1
  end.

(** [floor (log2 |x|)] for [x <> 0]. *)
Definition binary_exponent (x : Q) : Z :=
  let e := Z.log2 (Z.abs (Qnum x)) - Z.log2 (Zpos (Qden x)) in
  if Qle_bool (2 ^ e) (Qabs x) then e else e - 1.

(** Rounding to [prec] bits of mantissa, exponent unbounded. *)
Definition round_to (prec : Z) (x : Q) : Q :=
  if Qeq_bool x 0 then 0%Q
  else
    let s := binary_exponent x - prec + 1 in
    (inject_Z (round_half_even (x * 2 ^ (- s))) * 2 ^ s)%Q.

(** The relative error of one rounding to [prec] bits: [2^(-prec)]. *)
Definition unit_roundoff (prec : Z) : Q := (2 ^ (- prec))%Q.

(** [max(1, int(round((int(n) + 1) * 3.3219280948873626)))] *)
Definition dps_to_prec (n : Z) : Z :=
  Z.max 1 (round_half_even (inject_Z (n + 1) * 3.3219280948873626)%Q).

(** The [float] a decimal literal denotes: 53 bits of mantissa, and below
    [2^(-1022)] the multiples of [2^(-1074)].  A literal beyond the range of
    [float] denotes an infinity, which the model does not have. *)
Definition binary64 (x : Q) : Q :=
  if Qle_bool (2 ^ (-1022)) (Qabs x) then round_to 53 x
  else (inject_Z (round_half_even (x * 2 ^ 1074)) * 2 ^ (-1074))%Q.

Module Rounded.

Definition mpf_round (prec : Z) (x : mpf) : mpf := Q2Qc (round_to prec x).

Section Arithmetic.

(** [mp.prec] *)
Variable prec : Z.

Definition mpf_add (x y : mpf) : mpf := mpf_round prec (x + y)%Qc.

Definition mpf_mul (x y : mpf) : mpf := mpf_round prec (x * y)%Qc.

Definition mpf_div (x y : mpf) : result mpf :=
  if mpf_is_zero y then Raise ZeroDivisionError
  else Ok (mpf_round prec (x / y)%Qc).

(** [x / z] for an [int] [z]: the integer is taken as it is. *)
Definition mpf_div_by_int (x : mpf) (z : Z) : result mpf :=
  mpf_div x (mpf_of_int z).

(** [mpf(z)] for an [int] *)
Definition mpf_of_int (z : Z) : mpf := mpf_round prec (mpf_of_int z).

(** [mpf(x)] for the [float] that the literal [x] denotes *)
Definition mpf_of_float (x : Q) : mpf := mpf_round prec (Q2Qc (binary64 x)).

(** [x ** k] for an [int] exponent: the power, rounded once.  On the bases
    of the source, -1 and 4096, the library's power is exact. *)
Definition mpf_pow (x : mpf) (k : Z) : result mpf :=
  if 0 <=? k then Ok (mpf_round prec (x ^ Z.to_nat k)%Qc)
  else mpf_div (mpf_of_int 1) (mpf_round prec (x ^ Z.to_nat (- k))%Qc).

Variable slots : list (Z * Z).
Variable int_coefs : list Z.
Variable phi_corrections : list Q.

Open Scope result_scope.

(** [[mpf(INT_COEFS[i]) + mpf(PHI_CORRECTIONS[i]) for i in range(8)]] *)
Definition effective_coefs : result (list mpf) :=
  comprehension
    (fun i =>
       a <- getitem int_coefs i ;;
       c <- getitem phi_corrections i ;;
       Ok (mpf_add (mpf_of_int a) (mpf_of_float c)))
    (range 8).

(** [denom = period * k + offset; if denom != 0: inner += coef / denom] *)
Definition inner_body {C : Type} (to_mpf : C -> mpf) (k : Z)
  (inner : mpf) (sc : (Z * Z) * C) : result mpf :=
  let '((period, offset), coef) := sc in
  let denom := period * k + offset in
  if negb (denom =? 0) then
    q <- mpf_div_by_int (to_mpf coef) denom ;;
    Ok (mpf_add inner q)
  else Ok inner.

(** One pass of the outer loop; [sign * base_term * inner] is
    [(sign * base_term) * inner]. *)
Definition term_body {C : Type} (to_mpf : C -> mpf) (coefs : list C)
  (res : mpf) (k : Z) : result mpf :=
  sign <- mpf_pow (mpf_of_int (-1)) k ;;
  p <- mpf_pow (mpf_of_int 4096) k ;;
  base_term <- mpf_div (mpf_of_int 1) p ;;
  inner <- for_each (combine slots coefs) (inner_body to_mpf k) (mpf_of_int 0) ;;
  Ok (mpf_add res (mpf_mul (mpf_mul sign base_term) inner)).

Definition series {C : Type} (to_mpf : C -> mpf) (coefs : list C)
  (n_terms : Z) : result mpf :=
  res <- for_each (range n_terms) (term_body to_mpf coefs) (mpf_of_int 0) ;;
  mpf_div res (mpf_of_int 64).

(** The arithmetic of [evaluate_phi_bbp]. *)
Definition phi_bbp_value (n_terms : Z) : result mpf :=
  coefs <- effective_coefs ;;
  series (fun c : mpf => c) coefs n_terms.

(** The arithmetic of [evaluate_integer_only]. *)
Definition integer_only_value (n_terms : Z) : result mpf :=
  series mpf_of_int int_coefs n_terms.

End Arithmetic.

(** [mp.prec], as the last [mp.dps = n] left it. *)
Definition get_prec : M Z := fun w => (Ok (dps_to_prec (mp_dps w)), w).

(** The evaluators on an arbitrary coefficient set. *)
Definition evaluate_phi_bbp_on (cs : coefficient_set) (n_terms precision : Z)
  : M mpf :=
  (set_dps precision ;;;
   prec <- get_prec ;;
   lift (phi_bbp_value prec (slots_of cs) (int_coefs_of cs)
           (corrections_of cs) n_terms))%M.

Definition evaluate_integer_only_on (cs : coefficient_set)
  (n_terms precision : Z) : M mpf :=
  (set_dps precision ;;;
   prec <- get_prec ;;
   lift (integer_only_value prec (slots_of cs) (int_coefs_of cs) n_terms))%M.

(** The two evaluators of the source. *)
Definition evaluate_phi_bbp (n_terms precision : Z) : M mpf :=
  evaluate_phi_bbp_on phi_bbp_coefficients n_terms precision.

Definition evaluate_integer_only (n_terms precision : Z) : M mpf :=
  evaluate_integer_only_on phi_bbp_coefficients n_terms precision.

End Rounded.

(** The rational an evaluator returned. *)
Definition value_of (r : result mpf) : Q :=
  match r with
  | Ok v => this v
  | Raise _ => 0%Q
  end.

(** *** The coefficients the program holds *)

(** Each correction is the [float] its literal denotes. *)
Definition float_entry (s : slot_entry) : slot_entry :=
  mkSlot (period s) (offset s) (int_part s) (binary64 (correction s)).

Definition float_coefficients (cs : coefficient_set) : coefficient_set :=
  map float_entry cs.

(** The differences between the floats and the literals that denote them. *)
Definition literal_gap (cs : coefficient_set) : coefficient_set :=
  map (fun s =>
         mkSlot (period s) (offset s) 0
           (binary64 (correction s) - correction s)%Q)
      cs.

(** What [effective_coefs] holds for a slot at precision [prec]. *)
Definition rounded_effective (prec : Z) (s : slot_entry) : mpf :=
  Rounded.mpf_add prec (Rounded.mpf_of_int prec (int_part s))
    (Rounded.mpf_of_float prec (correction s)).

(** The magnitudes that go into a coefficient. *)
Definition magnitude (m : mode) (s : slot_entry) : Q :=
  match m with
  | Corrected =>
      (Qabs (inject_Z (int_part s)) + Qabs (binary64 (correction s)))%Q
  | IntegerOnly => Qabs (inject_Z (int_part s))
  end.

Definition rounding_mass (m : mode) (cs : coefficient_set) : Q :=
  fold_right (fun s acc => (magnitude m s + acc)%Q) 0%Q cs.

(** *** Accumulated rounding error *)

(** [K * 2^z] *)
Definition dyadic (K z : Z) : Qc := Q2Qc (inject_Z K * 2 ^ z).

(** [approx u j xh x A]: the computed [xh] stands for the exact [x] after at
    most [j] roundings of relative error [u], [A] bounding the magnitudes
    that went into [x]. *)
Definition approx (u : R) (j : nat) (xh x : mpf) (A : R) : Prop :=
  (Rabs (Q2R xh - Q2R x) <= ((1 + u) ^ j - 1) * A /\ Rabs (Q2R x) <= A)%R.

(** The exact counterparts of the loops, for the coefficient [e s] of a
    slot. *)
Definition inner_of (e : slot_entry -> Qc) (cs : coefficient_set) (k : nat)
  : Qc :=
  fold_right
    (fun s acc =>
       (e s / mpf_of_int (period s * Z.of_nat k + offset s) + acc)%Qc)
    0%Qc cs.

Definition term_of (e : slot_entry -> Qc) (cs : coefficient_set) (k : nat)
  : Qc :=
  (spec_sign k * spec_base k * inner_of e cs k)%Qc.

Definition sum_of (a : slot_entry -> R) (cs : coefficient_set) : R :=
  fold_right (fun s acc => (a s + acc)%R) 0%R cs.

(** * Properties *)

(** ** Arithmetic of [mpf] *)

Lemma mpf_is_zero_spec (x : mpf) : mpf_is_zero x = true <-> x = 0%Qc.
Proof.
  unfold mpf_is_zero. rewrite Z.eqb_eq. split.
  - intros H. apply Qc_is_canon. unfold Qeq. simpl. rewrite H. reflexivity.
  - intros ->. reflexivity.
Qed.

Lemma mpf_of_int_eq_0 (z : Z) : mpf_of_int z = 0%Qc <-> z = 0.
Proof.
  unfold mpf_of_int. change 0%Qc with (Q2Qc (inject_Z 0)).
  rewrite Q2Qc_eq_iff. unfold Qeq, inject_Z. simpl. lia.
Qed.

Lemma mpf_div_nonzero (x y : mpf) : y <> 0%Qc -> mpf_div x y = Ok (x / y)%Qc.
Proof.
  intros Hy. unfold mpf_div.
  destruct (mpf_is_zero y) eqn:E; [|reflexivity].
  apply mpf_is_zero_spec in E. contradiction.
Qed.

Lemma mpf_div_int (x : mpf) (z : Z) :
  z <> 0 -> mpf_div x (mpf_of_int z) = Ok (x / mpf_of_int z)%Qc.
Proof.
  intros Hz. apply mpf_div_nonzero. rewrite mpf_of_int_eq_0. exact Hz.
Qed.

Lemma Qcdiv_0_r (x : Qc) : (x / 0 = 0)%Qc.
Proof.
  unfold Qcdiv. change (/ 0)%Qc with 0%Qc. ring.
Qed.

Lemma Qcpower_nonzero (x : Qc) (n : nat) : x <> 0%Qc -> (x ^ n)%Qc <> 0%Qc.
Proof.
  intros Hx. induction n as [|n IH]; simpl.
  - exact Q_apart_0_1.
  - intros H. apply Qcmult_integral in H. tauto.
Qed.

Lemma mpf_pow_of_nat (x : mpf) (i : nat) :
  mpf_pow x (Z.of_nat i) = Ok (x ^ i)%Qc.
Proof.
  unfold mpf_pow.
  destruct (0 <=? Z.of_nat i) eqn:E.
  - rewrite Nat2Z.id. reflexivity.
  - apply Z.leb_gt in E. lia.
Qed.

Lemma spec_sign_succ (i : nat) : spec_sign (S i) = (- spec_sign i)%Qc.
Proof.
  unfold spec_sign. rewrite Nat.even_succ, <- Nat.negb_even.
  destruct (Nat.even i); simpl; ring.
Qed.

Lemma minus_one_power (i : nat) : (mpf_of_int (-1) ^ i)%Qc = spec_sign i.
Proof.
  induction i as [|i IH].
  - reflexivity.
  - rewrite spec_sign_succ, <- IH. simpl.
    change (mpf_of_int (-1)) with (- (1))%Qc. ring.
Qed.

(** ** Loops *)

Lemma for_each_app {A S : Type} (l1 l2 : list A) (body : S -> A -> result S)
  (s : S) :
  for_each (l1 ++ l2) body s
  = bind (for_each l1 body s) (fun s' => for_each l2 body s').
Proof.
  revert s. induction l1 as [|a l1 IH]; intros s; simpl.
  - reflexivity.
  - destruct (body s a); [apply IH | reflexivity].
Qed.

Lemma range_succ (n : nat) :
  range (Z.of_nat (S n)) = range (Z.of_nat n) ++ [Z.of_nat n].
Proof.
  unfold range. rewrite !Nat2Z.id, seq_S, map_app. reflexivity.
Qed.

Lemma range_nonpos (n : Z) : n <= 0 -> range n = [].
Proof.
  intros H. unfold range.
  replace (Z.to_nat n) with 0%nat by lia. reflexivity.
Qed.

Section LoopFacts.

Context {C : Type}.
Variable to_mpf : C -> mpf.
Variable slots : list (Z * Z).
Variable coefs : list C.

Lemma inner_body_contribution (k : Z) (inner : mpf) (sc : (Z * Z) * C) :
  inner_body to_mpf k inner sc = Ok (inner + contribution to_mpf k sc)%Qc.
Proof.
  destruct sc as [[p o] c]. unfold inner_body, contribution.
  destruct (p * k + o =? 0) eqn:E; simpl.
  - f_equal. ring.
  - apply Z.eqb_neq in E. rewrite (mpf_div_int _ _ E). reflexivity.
Qed.

Lemma inner_loop_sum (k : Z) (l : list ((Z * Z) * C)) (inner : mpf) :
  for_each l (inner_body to_mpf k) inner
  = Ok (inner + fold_right (fun sc acc => contribution to_mpf k sc + acc) 0 l)%Qc.
Proof.
  revert inner. induction l as [|sc l IH]; intros inner; simpl.
  - f_equal. ring.
  - rewrite inner_body_contribution, IH. f_equal. ring.
Qed.

Lemma term_body_value (res : mpf) (i : nat) :
  term_body slots to_mpf coefs res (Z.of_nat i) = Ok (res + loop_term to_mpf slots coefs i)%Qc.
Proof.
  unfold term_body, loop_term, spec_base, radix.
  rewrite !mpf_pow_of_nat. simpl bind.
  rewrite mpf_div_nonzero.
  2:{ apply Qcpower_nonzero. rewrite mpf_of_int_eq_0. discriminate. }
  simpl bind. rewrite inner_loop_sum. simpl bind.
  rewrite minus_one_power. f_equal.
  change (mpf_of_int 0) with 0%Qc. change (mpf_of_int 1) with 1%Qc.
  unfold Qcdiv, mpf_of_int. ring.
Qed.

Lemma outer_loop_sum (n : nat) :
  for_each (range (Z.of_nat n)) (term_body slots to_mpf coefs) (mpf_of_int 0)
  = Ok (big_sum (loop_term to_mpf slots coefs) n).
Proof.
  induction n as [|n IH].
  - reflexivity.
  - rewrite range_succ, for_each_app, IH. simpl.
    rewrite term_body_value. reflexivity.
Qed.

Lemma series_value (n_terms : Z) :
  series slots to_mpf coefs n_terms
  = Ok (big_sum (loop_term to_mpf slots coefs) (Z.to_nat n_terms) / scale)%Qc.
Proof.
  unfold series.
  assert (E : range n_terms = range (Z.of_nat (Z.to_nat n_terms))).
  { unfold range. rewrite Nat2Z.id. reflexivity. }
  rewrite E, outer_loop_sum. simpl bind.
  apply mpf_div_int. discriminate.
Qed.

End LoopFacts.

(** ** The evaluators and the partial sum *)

Lemma big_sum_ext (f g : nat -> Qc) (n : nat) :
  (forall i, f i = g i) -> big_sum f n = big_sum g n.
Proof.
  intros H. induction n as [|n IH]; simpl; [reflexivity|].
  rewrite IH, H. reflexivity.
Qed.

Lemma contribution_unguarded {C : Type} (to_mpf : C -> mpf) (k p o : Z) (c : C) :
  contribution to_mpf k ((p, o), c) = (to_mpf c / mpf_of_int (p * k + o))%Qc.
Proof.
  unfold contribution. destruct (p * k + o =? 0) eqn:E; [|reflexivity].
  apply Z.eqb_eq in E. rewrite E.
  change (mpf_of_int 0) with 0%Qc. symmetry. apply Qcdiv_0_r.
Qed.

Lemma inner_corrected (cs : coefficient_set) (i : nat) :
  fold_right
    (fun sc acc => (contribution (fun c : mpf => c) (Z.of_nat i) sc + acc)%Qc)
    0%Qc (combine (slots_of cs) (map (effective Corrected) cs))
  = spec_inner Corrected cs i.
Proof.
  induction cs as [|s cs IH]; simpl; [reflexivity|].
  rewrite IH. f_equal.
  exact (contribution_unguarded (fun c : mpf => c) (Z.of_nat i)
           (period s) (offset s) (effective Corrected s)).
Qed.

Lemma inner_integer_only (cs : coefficient_set) (i : nat) :
  fold_right
    (fun sc acc => (contribution mpf_of_int (Z.of_nat i) sc + acc)%Qc)
    0%Qc (combine (slots_of cs) (int_coefs_of cs))
  = spec_inner IntegerOnly cs i.
Proof.
  induction cs as [|s cs IH]; simpl; [reflexivity|].
  rewrite IH. f_equal.
  exact (contribution_unguarded mpf_of_int (Z.of_nat i)
           (period s) (offset s) (int_part s)).
Qed.

Lemma effective_coefs_of_set (cs : coefficient_set) :
  List.length cs = 8%nat ->
  effective_coefs (int_coefs_of cs) (corrections_of cs)
  = Ok (map (effective Corrected) cs).
Proof.
  intros H.
  do 8 (destruct cs as [|? cs]; [discriminate H|]).
  destruct cs; [reflexivity | discriminate H].
Qed.

Lemma phi_bbp_value_spec (cs : coefficient_set) (n_terms : Z) :
  List.length cs = 8%nat ->
  phi_bbp_value (slots_of cs) (int_coefs_of cs) (corrections_of cs) n_terms
  = Ok (spec_partial_sum Corrected cs (Z.to_nat n_terms)).
Proof.
  intros H. unfold phi_bbp_value.
  rewrite (effective_coefs_of_set cs H). simpl bind.
  rewrite series_value. unfold spec_partial_sum. do 2 f_equal.
  apply big_sum_ext. intros i. unfold loop_term, spec_term.
  rewrite inner_corrected. reflexivity.
Qed.

Lemma integer_only_value_spec (cs : coefficient_set) (n_terms : Z) :
  integer_only_value (slots_of cs) (int_coefs_of cs) n_terms
  = Ok (spec_partial_sum IntegerOnly cs (Z.to_nat n_terms)).
Proof.
  unfold integer_only_value.
  rewrite series_value. unfold spec_partial_sum. do 2 f_equal.
  apply big_sum_ext. intros i. unfold loop_term, spec_term.
  rewrite inner_integer_only. reflexivity.
Qed.

Lemma evaluate_phi_bbp_on_run (cs : coefficient_set) (n_terms precision : Z)
  (w : world) :
  List.length cs = 8%nat ->
  evaluate_phi_bbp_on cs n_terms precision w
  = (Ok (spec_partial_sum Corrected cs (Z.to_nat n_terms)),
     mkWorld precision (stdout w)).
Proof.
  intros H. unfold evaluate_phi_bbp_on, bindM, set_dps, lift.
  rewrite (phi_bbp_value_spec cs n_terms H). reflexivity.
Qed.

Lemma evaluate_integer_only_on_run (cs : coefficient_set)
  (n_terms precision : Z) (w : world) :
  evaluate_integer_only_on cs n_terms precision w
  = (Ok (spec_partial_sum IntegerOnly cs (Z.to_nat n_terms)),
     mkWorld precision (stdout w)).
Proof.
  unfold evaluate_integer_only_on, bindM, set_dps, lift.
  rewrite (integer_only_value_spec cs n_terms). reflexivity.
Qed.

Lemma evaluate_phi_bbp_run (n_terms precision : Z) (w : world) :
  evaluate_phi_bbp n_terms precision w
  = (Ok (spec_partial_sum Corrected phi_bbp_coefficients (Z.to_nat n_terms)),
     mkWorld precision (stdout w)).
Proof.
  exact (evaluate_phi_bbp_on_run phi_bbp_coefficients n_terms precision w
           eq_refl).
Qed.

Lemma evaluate_integer_only_run (n_terms precision : Z) (w : world) :
  evaluate_integer_only n_terms precision w
  = (Ok (spec_partial_sum IntegerOnly phi_bbp_coefficients (Z.to_nat n_terms)),
     mkWorld precision (stdout w)).
Proof.
  exact (evaluate_integer_only_on_run phi_bbp_coefficients n_terms precision w).
Qed.

Lemma spec_partial_sum_0 (m : mode) (cs : coefficient_set) :
  spec_partial_sum m cs 0 = 0%Qc.
Proof.
  unfold spec_partial_sum, Qcdiv. simpl. ring.
Qed.

Lemma phi_bbp_coefficients_valid : valid_coefficient_set phi_bbp_coefficients.
Proof.
  split; [reflexivity|].
  repeat constructor; simpl; lia.
Qed.

Lemma spec_inner_perm (m : mode) (cs cs' : coefficient_set) (k : nat) :
  Permutation cs cs' -> spec_inner m cs k = spec_inner m cs' k.
Proof.
  unfold spec_inner.
  induction 1 as [|s l l' _ IH|s t l|l l' l'' _ IH1 _ IH2]; simpl.
  - reflexivity.
  - rewrite IH. reflexivity.
  - ring.
  - rewrite IH1. exact IH2.
Qed.

Lemma spec_partial_sum_perm (m : mode) (cs cs' : coefficient_set) (n : nat) :
  Permutation cs cs' -> spec_partial_sum m cs n = spec_partial_sum m cs' n.
Proof.
  intros H. unfold spec_partial_sum. f_equal.
  apply big_sum_ext. intros i. unfold spec_term.
  rewrite (spec_inner_perm m cs cs' i H). reflexivity.
Qed.

(** ** The claims on the series evaluator *)



(** C8: a slot whose denominator [period*k + offset] is 0 is skipped, it
    leaves [inner] as it is; under the slot invariants and for [k >= 0] the
    denominator is not 0, so the slot is not skipped and the division it
    guards is defined: the pass returns [inner + coef / denom]. *)
Theorem guard_unreachable {C : Type} (to_mpf : C -> mpf)
  (p o k : Z) (c : C) (inner : mpf) :
  slot_ok p o -> 0 <= k ->
  p * k + o <> 0
  /\ mpf_div (to_mpf c) (mpf_of_int (p * k + o))
     = Ok (to_mpf c / mpf_of_int (p * k + o))%Qc
  /\ inner_body to_mpf k inner ((p, o), c)
     = Ok (inner + to_mpf c / mpf_of_int (p * k + o))%Qc
  /\ (forall p' o' k' : Z,
        p' * k' + o' = 0 -> inner_body to_mpf k' inner ((p', o'), c) = Ok inner).
Proof.
  intros (Hp & _ & Ho) Hk.
  assert (Hd : p * k + o <> 0) by (destruct Hp; subst p; lia).
  split; [exact Hd|]. split; [apply mpf_div_int; exact Hd|]. split.
  - rewrite inner_body_contribution, contribution_unguarded. reflexivity.
  - intros p' o' k' H0. unfold inner_body. rewrite H0. reflexivity.
Qed.

Lemma guard_unreachable_witness :
  slot_ok 12 11 /\ 0 <= 0 /\ 12 * 0 + 11 <> 0
  /\ inner_body mpf_of_int 0 0%Qc ((12, 11), 4)
     = Ok (0 + mpf_of_int 4 / mpf_of_int (12 * 0 + 11))%Qc.
Proof.
  assert (H : slot_ok 12 11) by (unfold slot_ok; simpl; lia).
  split; [exact H|]. split; [lia|].
  destruct (guard_unreachable mpf_of_int 12 11 0 4 0%Qc H (Z.le_refl 0))
    as (H1 & _ & H3 & _).
  split; [exact H1 | exact H3].
Defined.

(** C10: for a negative [n_terms] and a positive precision both evaluators
    return exactly 0 and raise nothing: [range(n_terms)] is empty, and the
    result is the empty sum divided by 64. *)
Theorem negative_n_terms_zero (n_terms precision : Z) (w : world) :
  n_terms < 0 -> 0 < precision ->
  range n_terms = []
  /\ fst (evaluate_phi_bbp n_terms precision w) = Ok 0%Qc
  /\ fst (evaluate_integer_only n_terms precision w) = Ok 0%Qc.
Proof.
  intros Hn _. split; [apply range_nonpos; lia|].
  rewrite evaluate_phi_bbp_run, evaluate_integer_only_run. cbn [fst].
  replace (Z.to_nat n_terms) with 0%nat by lia.
  rewrite !spec_partial_sum_0. split; reflexivity.
Qed.

Lemma negative_n_terms_zero_witness :
  -5 < 0 /\ 0 < 200
  /\ fst (evaluate_phi_bbp (-5) 200 init_world) = Ok 0%Qc
  /\ fst (evaluate_integer_only (-5) 200 init_world) = Ok 0%Qc.
Proof.
  split; [lia|]. split; [lia|].
  apply (negative_n_terms_zero (-5) 200 init_world); lia.
Defined.

Example evaluate_integer_only_1_term :
  fst (evaluate_integer_only 1 200 init_world) = Ok (Q2Qc (696691 # 221760)).
Proof.
  rewrite evaluate_integer_only_run. cbn [fst]. apply f_equal.
  apply Qc_is_canon. vm_compute. reflexivity.
Qed.

Example evaluate_phi_bbp_1_term :
  fst (evaluate_phi_bbp 1 200 init_world)
  = Ok (Q2Qc (116117518545090458104259 # 36960000000000000000000)).
Proof.
  rewrite evaluate_phi_bbp_run. cbn [fst]. apply f_equal.
  apply Qc_is_canon. vm_compute. reflexivity.
Qed.

(** ** Floats and logarithms *)

Lemma Rltb_true (x y : R) : Rltb x y = true <-> (x < y)%R.
Proof.
  unfold Rltb. destruct (Rlt_dec x y); split; intros H;
    try reflexivity; try assumption; try discriminate; contradiction.
Qed.

Lemma Rltb_false (x y : R) : Rltb x y = false <-> (y <= x)%R.
Proof.
  unfold Rltb. destruct (Rlt_dec x y); split; intros H;
    try reflexivity; try discriminate; lra.
Qed.

Lemma ln_10_pos : (0 < ln 10)%R.
Proof.
  rewrite <- ln_1. apply ln_increasing; lra.
Qed.

Lemma ln_pow_Z (z : Z) (n : nat) :
  (0 < IZR z)%R -> ln (IZR z ^ n) = (IZR (Z.of_nat n) * ln (IZR z))%R.
Proof.
  intros H. rewrite ln_pow by exact H. rewrite INR_IZR_INZ. reflexivity.
Qed.

(** log10(4096) lies strictly between 3.61 and 3.62. *)
Lemma log10_4096_bounds :
  (3.61 < np_log10 4096 < 3.62)%R.
Proof.
  unfold np_log10.
  assert (L := ln_10_pos).
  assert (Hlo : (ln (10 ^ 361) < ln (4096 ^ 100))%R).
  { apply ln_increasing.
    - apply pow_lt. lra.
    - rewrite !pow_IZR. apply IZR_lt. vm_compute. reflexivity. }
  assert (Hhi : (ln (4096 ^ 100) < ln (10 ^ 362))%R).
  { apply ln_increasing.
    - apply pow_lt. lra.
    - rewrite !pow_IZR. apply IZR_lt. vm_compute. reflexivity. }
  rewrite !ln_pow_Z in Hlo, Hhi by lra.
  change (Z.of_nat 361) with 361%Z in Hlo.
  change (Z.of_nat 362) with 362%Z in Hhi.
  change (Z.of_nat 100) with 100%Z in Hlo, Hhi.
  split.
  - apply Rmult_lt_reg_r with (ln 10); [exact L|].
    unfold Rdiv. rewrite Rmult_assoc, Rinv_l by lra. lra.
  - apply Rmult_lt_reg_r with (ln 10); [exact L|].
    unfold Rdiv. rewrite Rmult_assoc, Rinv_l by lra. lra.
Qed.

(** ** 2. Convergence rate *)

Lemma measured_rate_samples (errors : list (Z * R)) (n1 n2 : Z) (e1 e2 : R) :
  first_sample errors = Ok (n1, e1) ->
  last_sample errors = Ok (n2, e2) ->
  measured_rate errors
  = Ok (if Rltb 0 e2 && Rltb 0 e1
        then ((np_log10 e1 - np_log10 e2) / IZR (n2 - n1))%R
        else 3.61%R).
Proof.
  intros H1 H2. unfold measured_rate. rewrite H1, H2. simpl bind.
  destruct (Rltb 0 e2 && Rltb 0 e1); reflexivity.
Qed.

Lemma rate_verified_spec (rate : R) :
  rate_verified rate = true <-> (Rabs (rate - np_log10 4096) < 0.5)%R.
Proof.
  unfold rate_verified, theoretical_rate. apply Rltb_true.
Qed.

Lemma fallback_rate_verified : rate_verified 3.61 = true.
Proof.
  apply rate_verified_spec.
  destruct log10_4096_bounds as [Hlo Hhi].
  apply Rabs_def1; lra.
Qed.

Lemma fallback_rate_not_theoretical : 3.61%R <> theoretical_rate.
Proof.
  unfold theoretical_rate.
  destruct log10_4096_bounds as [Hlo _]. lra.
Qed.

Lemma analyze_convergence_rate (errors : list (Z * R)) (rate : R) (w : world) :
  measured_rate errors = Ok rate ->
  analyze_convergence errors w = report_rate rate w.
Proof.
  intros H. unfold analyze_convergence, bindM, lift. rewrite H. reflexivity.
Qed.

Lemma report_rate_result (rate : R) (w : world) :
  fst (report_rate rate w) = Ok (rate_verified rate).
Proof.
  reflexivity.
Qed.

(** C5: the rate is computed from the first and the last sample only, as
    [(log10 e_first - log10 e_last) / (n_last - n_first)] (both errors being
    positive, the case of a zero error is the fallback); and the check passes
    exactly when the rate is within 0.5 of log10(4096). *)
Theorem convergence_rate_check (errors : list (Z * R)) (n1 n2 : Z)
  (e1 e2 : R) (w : world) :
  first_sample errors = Ok (n1, e1) ->
  last_sample errors = Ok (n2, e2) ->
  exists rate : R,
    measured_rate errors = Ok rate
    /\ ((0 < e1)%R -> (0 < e2)%R ->
        rate = ((np_log10 e1 - np_log10 e2) / IZR (n2 - n1))%R)
    /\ fst (analyze_convergence errors w) = Ok (rate_verified rate)
    /\ (rate_verified rate = true <-> (Rabs (rate - np_log10 4096) < 0.5)%R).
Proof.
  intros H1 H2.
  pose proof (measured_rate_samples errors n1 n2 e1 e2 H1 H2) as Hr.
  eexists. split; [exact Hr|]. split; [|split].
  - intros He1 He2. apply Rltb_true in He1, He2.
    rewrite He1, He2. reflexivity.
  - rewrite (analyze_convergence_rate errors _ w Hr).
    apply report_rate_result.
  - apply rate_verified_spec.
Qed.

Lemma convergence_rate_check_witness :
  let errors := [(1, 0.1%R); (3, 7%R); (5, 0.00001%R)] in
  first_sample errors = Ok (1, 0.1%R)
  /\ last_sample errors = Ok (5, 0.00001%R)
  /\ (0 < 0.1)%R /\ (0 < 0.00001)%R
  /\ measured_rate errors
     = Ok ((np_log10 0.1 - np_log10 0.00001) / IZR (5 - 1))%R.
Proof.
  intros errors.
  assert (H1 : first_sample errors = Ok (1, 0.1%R)) by reflexivity.
  assert (H2 : last_sample errors = Ok (5, 0.00001%R)) by reflexivity.
  assert (P1 : (0 < 0.1)%R) by lra.
  assert (P2 : (0 < 0.00001)%R) by lra.
  split; [exact H1|]. split; [exact H2|]. split; [exact P1|].
  split; [exact P2|].
  destruct (convergence_rate_check errors 1 5 0.1 0.00001 init_world H1 H2)
    as (rate & Hr & Hf & _).
  rewrite Hr, (Hf P1 P2). reflexivity.
Defined.

(** C4, as the code has it: when the first or the last error is zero the
    rate is the literal 3.61, no logarithm and no division being computed;
    3.61 is not log10(4096); the analyzer then reports and returns what it
    does for any rate of 3.61, a pass, with nothing that marks the
    substitution. *)
Theorem zero_error_fallback (errors : list (Z * R)) (n1 n2 : Z)
  (e1 e2 : R) (w : world) :
  first_sample errors = Ok (n1, e1) ->
  last_sample errors = Ok (n2, e2) ->
  e1 = 0%R \/ e2 = 0%R ->
  measured_rate errors = Ok 3.61%R
  /\ 3.61%R <> theoretical_rate
  /\ analyze_convergence errors w = report_rate 3.61 w
  /\ fst (analyze_convergence errors w) = Ok true.
Proof.
  intros H1 H2 Hz.
  assert (Hr : measured_rate errors = Ok 3.61%R).
  { rewrite (measured_rate_samples errors n1 n2 e1 e2 H1 H2).
    assert (Hg : Rltb 0 e2 && Rltb 0 e1 = false).
    { apply andb_false_iff.
      destruct Hz as [-> | ->]; [right | left]; apply Rltb_false; lra. }
    rewrite Hg. reflexivity. }
  split; [exact Hr|]. split; [exact fallback_rate_not_theoretical|].
  rewrite (analyze_convergence_rate errors 3.61 w Hr).
  split; [reflexivity|].
  rewrite report_rate_result, fallback_rate_verified. reflexivity.
Qed.

Lemma zero_error_fallback_witness :
  let errors := [(1, 0%R); (3, 7%R); (5, 0.00001%R)] in
  first_sample errors = Ok (1, 0%R)
  /\ last_sample errors = Ok (5, 0.00001%R)
  /\ (0%R = 0%R \/ 0.00001%R = 0%R)
  /\ measured_rate errors = Ok 3.61%R.
Proof.
  intros errors.
  assert (H1 : first_sample errors = Ok (1, 0%R)) by reflexivity.
  assert (H2 : last_sample errors = Ok (5, 0.00001%R)) by reflexivity.
  assert (Hz : 0%R = 0%R \/ 0.00001%R = 0%R) by (left; reflexivity).
  split; [exact H1|]. split; [exact H2|]. split; [exact Hz|].
  exact (proj1 (zero_error_fallback errors 1 5 0 0.00001 init_world
                  H1 H2 Hz)).
Defined.

(** C4, as stated, fails on the samples [(1, 0); (5, 1)]: the rate taken is
    3.61, which is not log10(4096), and the analyzer's result and report are
    those of the samples [(1, 1); (5, 10^(-14.44))], whose measured rate is
    3.61: nothing flags the fallback. *)
Lemma fallback_not_log10_nor_flagged :
  measured_rate [(1, 0%R); (5, 1%R)] = Ok 3.61%R
  /\ 3.61%R <> np_log10 4096
  /\ measured_rate [(1, 1%R); (5, exp (-14.44 * ln 10))] = Ok 3.61%R
  /\ analyze_convergence [(1, 0%R); (5, 1%R)] init_world
     = analyze_convergence [(1, 1%R); (5, exp (-14.44 * ln 10))] init_world.
Proof.
  assert (A : measured_rate [(1, 0%R); (5, 1%R)] = Ok 3.61%R).
  { rewrite (measured_rate_samples [(1, 0%R); (5, 1%R)] 1 5 0 1
               eq_refl eq_refl).
    assert (Hg : Rltb 0 0 = false) by (apply Rltb_false; lra).
    rewrite Hg, andb_false_r. reflexivity. }
  assert (B : measured_rate [(1, 1%R); (5, exp (-14.44 * ln 10))]
              = Ok 3.61%R).
  { rewrite (measured_rate_samples [(1, 1%R); (5, exp (-14.44 * ln 10))]
               1 5 1 (exp (-14.44 * ln 10)) eq_refl eq_refl).
    assert (G1 : Rltb 0 1 = true) by (apply Rltb_true; lra).
    assert (G2 : Rltb 0 (exp (-14.44 * ln 10)) = true)
      by (apply Rltb_true; apply exp_pos).
    rewrite G1, G2. simpl andb. apply f_equal.
    unfold np_log10. rewrite ln_1, ln_exp.
    assert (L := ln_10_pos).
    change (5 - 1) with 4.
    replace (-14.44 * ln 10 / ln 10)%R with (-14.44)%R.
    - lra.
    - unfold Rdiv. rewrite Rmult_assoc, Rinv_r by lra. lra. }
  split; [exact A|]. split; [exact fallback_rate_not_theoretical|].
  split; [exact B|].
  rewrite (analyze_convergence_rate _ _ init_world A).
  rewrite (analyze_convergence_rate _ _ init_world B).
  reflexivity.
Qed.


(** ** 4. Total correction closed form *)





(** ** 6. Mathematical identities *)

Lemma check_identity_run (shown expected : line) (err : R)
  (all_verified : bool) (w : world) :
  check_identity shown expected err all_verified w
  = (Ok (all_verified && Rltb err 1e-10),
     mkWorld (mp_dps w) (stdout w ++ [shown; expected; error_line err])).
Proof.
  unfold check_identity. cbv [bindM print ret mp_dps stdout].
  rewrite <- !app_assoc. reflexivity.
Qed.

Lemma identity_checks_run
  (val1 val2 val3 expected3 val4 expected4 val5 expected5 : R) (w : world) :
  exists s1 x1 s2 x2 s3 x3 s4 x4 s5 x5 last : line,
    identity_checks val1 val2 val3 expected3 val4 expected4 val5 expected5 w
    = (Ok (true && Rltb (Rabs (val1 - 3)) 1e-10
           && Rltb (Rabs (val2 - 4)) 1e-10
           && Rltb (Rabs (val3 - expected3)) 1e-10
           && Rltb (Rabs (val4 - expected4)) 1e-10
           && Rltb (Rabs (val5 - expected5)) 1e-10),
       mkWorld (mp_dps w)
         (stdout w
          ++ [s1; x1; error_line (Rabs (val1 - 3));
              s2; x2; error_line (Rabs (val2 - 4));
              s3; x3; error_line (Rabs (val3 - expected3));
              s4; x4; error_line (Rabs (val4 - expected4));
              s5; x5; error_line (Rabs (val5 - expected5)); last])).
Proof.
  unfold identity_checks.
  do 5 (unfold bindM at 1; rewrite check_identity_run; cbv beta iota).
  cbv [bindM print ret mp_dps stdout].
  rewrite <- !app_assoc. cbn [app].
  do 11 eexists. reflexivity.
Qed.

(** C7: the five identities are checked with the pass condition
    [|lhs - rhs| < 1e-10]; every one of them is evaluated and reported,
    whatever the outcome of the others, and the result is true exactly when
    all five pass.  The source function runs these checks on the two sides of
    the five golden-ratio identities. *)
Theorem identities_all_attempted (polylog : Z -> R -> R)
  (val1 val2 val3 expected3 val4 expected4 val5 expected5 : R) (w : world) :
  let err1 := Rabs (val1 - 3) in
  let err2 := Rabs (val2 - 4) in
  let err3 := Rabs (val3 - expected3) in
  let err4 := Rabs (val4 - expected4) in
  let err5 := Rabs (val5 - expected5) in
  let run := identity_checks val1 val2 val3 expected3 val4 expected4
               val5 expected5 w in
  (exists b : bool,
     fst run = Ok b
     /\ (b = true <->
         (err1 < 1e-10 /\ err2 < 1e-10 /\ err3 < 1e-10
          /\ err4 < 1e-10 /\ err5 < 1e-10)%R))
  /\ (exists s1 x1 s2 x2 s3 x3 s4 x4 s5 x5 last : line,
        stdout (snd run)
        = stdout w
          ++ [s1; x1; error_line err1; s2; x2; error_line err2;
              s3; x3; error_line err3; s4; x4; error_line err4;
              s5; x5; error_line err5; last])
  /\ (exists w' : world,
        verify_mathematical_identities polylog w
        = identity_checks
            (powerRZ mp_phi 2 + powerRZ mp_phi (-2))%R
            (powerRZ mp_phi 2 + powerRZ mp_phi (-2) + 1)%R
            (atan (1 / mp_phi) + atan (1 / powerRZ mp_phi 3))%R
            (mp_pi / 4)%R
            (polylog 1 (1 / mp_phi)%R)
            (2 * ln mp_phi)%R
            (polylog 2 (1 / powerRZ mp_phi 2)%R)
            (powerRZ mp_pi 2 / 15 - powerRZ (ln mp_phi) 2)%R
            w').
Proof.
  intros err1 err2 err3 err4 err5 run.
  destruct (identity_checks_run val1 val2 val3 expected3 val4 expected4
              val5 expected5 w)
    as (s1 & x1 & s2 & x2 & s3 & x3 & s4 & x4 & s5 & x5 & last & Hrun).
  fold err1 err2 err3 err4 err5 run in Hrun.
  split; [|split].
  - eexists. rewrite Hrun. split; [reflexivity|].
    rewrite !andb_true_iff, !Rltb_true. tauto.
  - exists s1, x1, s2, x2, s3, x3, s4, x4, s5, x5, last.
    rewrite Hrun. reflexivity.
  - unfold verify_mathematical_identities.
    cbv [banner bindM print set_dps ret]. eexists. reflexivity.
Qed.

(** The first identity failing does not stop the others: with a left side
    of 5 for an expected 3, the result is false and the five error lines are
    printed. *)
Example identities_first_fails :
  let run := identity_checks 5 4 1 1 2 2 0 0 init_world in
  fst run = Ok false
  /\ List.length (stdout (snd run)) = 16%nat.
Proof.
  intros run.
  destruct (identity_checks_run 5 4 1 1 2 2 0 0 init_world)
    as (s1 & x1 & s2 & x2 & s3 & x3 & s4 & x4 & s5 & x5 & last & Hrun).
  fold run in Hrun. rewrite Hrun. split; [|reflexivity].
  assert (H : Rltb (Rabs (5 - 3)) 1e-10 = false).
  { apply Rltb_false. unfold Rabs. destruct (Rcase_abs (5 - 3)); lra. }
  cbn [fst]. rewrite H. reflexivity.
Qed.

(** ** Main *)

Lemma summarize_run (results : list (string * bool)) (w : world) :
  summarize results w
  = (Ok (fold_left andb (map snd results) true),
     mkWorld (mp_dps w)
       (stdout w ++ map (fun r => summary_line (fst r) (snd r)) results)).
Proof.
  unfold summarize. generalize true as acc. revert w.
  induction results as [|[name passed] results IH]; intros w acc.
  - cbn. rewrite app_nil_r. destruct w; reflexivity.
  - cbn [for_eachM map fold_left fst snd].
    unfold bindM at 1. cbv [bindM print ret]. cbv beta iota.
    rewrite IH. cbn [mp_dps stdout]. rewrite <- app_assoc. reflexivity.
Qed.

Lemma print_verdict_run (all_passed : bool) (w : world) :
  print_verdict all_passed w
  = (Ok tt,
     mkWorld (mp_dps w)
       (stdout w
        ++ [[Str (nl ++ rule70)];
            [Str (if all_passed then "ALL CLAIMS VERIFIED ✓"
                  else "SOME CLAIMS FAILED ✗")];
            [Str rule70]])).
Proof.
  unfold print_verdict. destruct all_passed;
    cbv [bindM print ret mp_dps stdout]; rewrite <- !app_assoc; reflexivity.
Qed.

(** C1: [main] runs the seven checks in order, each from the state the one
    before left, whatever the booleans returned before it; it prints one
    summary line for each of the seven; its result is the conjunction of the
    seven booleans; and the exit status is 0 exactly when that result is
    true, 1 otherwise. *)
Theorem main_no_short_circuit
  (accuracy convergence_rate phi_pattern total_correction_check
     bellard_comparison mathematical_identities integer_improvement : M bool)
  (b1 b2 b3 b4 b5 b6 b7 : bool) (w w1 w2 w3 w4 w5 w6 w7 : world) :
  accuracy (snd (print_header w)) = (Ok b1, w1) ->
  convergence_rate w1 = (Ok b2, w2) ->
  phi_pattern w2 = (Ok b3, w3) ->
  total_correction_check w3 = (Ok b4, w4) ->
  bellard_comparison w4 = (Ok b5, w5) ->
  mathematical_identities w5 = (Ok b6, w6) ->
  integer_improvement w6 = (Ok b7, w7) ->
  let run := main accuracy convergence_rate phi_pattern total_correction_check
               bellard_comparison mathematical_identities integer_improvement
               w in
  let status := exit_status accuracy convergence_rate phi_pattern
                  total_correction_check bellard_comparison
                  mathematical_identities integer_improvement w in
  let all_passed := b1 && b2 && b3 && b4 && b5 && b6 && b7 in
  fst run = Ok all_passed
  /\ stdout (snd run)
     = stdout w7
       ++ [[Str (nl ++ rule70)]; [Str "VERIFICATION SUMMARY"]; [Str rule70]]
       ++ [summary_line "Accuracy" b1;
           summary_line "Convergence Rate" b2;
           summary_line "φ-Pattern" b3;
           summary_line "Total Correction" b4;
           summary_line "Bellard Comparison" b5;
           summary_line "Mathematical Identities" b6;
           summary_line "Integer Improvement" b7]
       ++ [[Str (nl ++ rule70)];
           [Str (if all_passed then "ALL CLAIMS VERIFIED ✓"
                 else "SOME CLAIMS FAILED ✗")];
           [Str rule70]]
  /\ status = (if all_passed then 0 else 1)
  /\ (status = 0 <-> all_passed = true)
  /\ (all_passed = true <->
      b1 = true /\ b2 = true /\ b3 = true /\ b4 = true /\ b5 = true
      /\ b6 = true /\ b7 = true).
Proof.
  intros H1 H2 H3 H4 H5 H6 H7 run status all_passed.
  assert (Hrun :
    run = (Ok all_passed,
           mkWorld (mp_dps w7)
             (stdout w7
              ++ [[Str (nl ++ rule70)]; [Str "VERIFICATION SUMMARY"];
                  [Str rule70]]
              ++ [summary_line "Accuracy" b1;
                  summary_line "Convergence Rate" b2;
                  summary_line "φ-Pattern" b3;
                  summary_line "Total Correction" b4;
                  summary_line "Bellard Comparison" b5;
                  summary_line "Mathematical Identities" b6;
                  summary_line "Integer Improvement" b7]
              ++ [[Str (nl ++ rule70)];
                  [Str (if all_passed then "ALL CLAIMS VERIFIED ✓"
                        else "SOME CLAIMS FAILED ✗")];
                  [Str rule70]]))).
  { unfold run, main.
    unfold bindM at 1. destruct (print_header w) as [r0 w0] eqn:E0.
    assert (Hr0 : r0 = Ok tt).
    { revert E0. unfold print_header. cbv [bindM print ret].
      intros E0. inversion E0. reflexivity. }
    subst r0. cbn [snd] in H1.
    unfold bindM at 1. rewrite H1.
    unfold bindM at 1. rewrite H2.
    unfold bindM at 1. rewrite H3.
    unfold bindM at 1. rewrite H4.
    unfold bindM at 1. rewrite H5.
    unfold bindM at 1. rewrite H6.
    unfold bindM at 1. rewrite H7.
    cbn [app].
    unfold bindM at 1. unfold banner. cbv [bindM print ret] . cbv beta iota.
    rewrite summarize_run. cbn [map fold_left fst snd mp_dps stdout].
    rewrite print_verdict_run. cbn [mp_dps stdout andb].
    rewrite <- !app_assoc. reflexivity. }
  assert (Hstatus : status = if all_passed then 0 else 1).
  { unfold status, exit_status. fold run. rewrite Hrun. reflexivity. }
  split; [rewrite Hrun; reflexivity|].
  split; [rewrite Hrun; reflexivity|].
  split; [exact Hstatus|]. split.
  - rewrite Hstatus. destruct all_passed; split; intros H;
      try reflexivity; discriminate H.
  - unfold all_passed. rewrite !andb_true_iff. tauto.
Qed.

Lemma main_no_short_circuit_witness :
  let failing : M bool := ret false in
  let passing : M bool := ret true in
  let last_check : M bool :=
    (print [Str "7. IMPROVEMENT OVER INTEGER-ONLY"] ;;; ret true)%M in
  let w0 := snd (print_header init_world) in
  let w7 :=
    mkWorld (mp_dps w0)
      (stdout w0 ++ [[Str "7. IMPROVEMENT OVER INTEGER-ONLY"]]) in
  failing w0 = (Ok false, w0)
  /\ passing w0 = (Ok true, w0)
  /\ last_check w0 = (Ok true, w7)
  /\ fst (main failing passing passing passing passing passing last_check
            init_world) = Ok false
  /\ exit_status failing passing passing passing passing passing last_check
       init_world = 1.
Proof.
  intros failing passing last_check w0 w7.
  assert (Hf : failing w0 = (Ok false, w0)) by reflexivity.
  assert (Hp : passing w0 = (Ok true, w0)) by reflexivity.
  assert (Hl : last_check w0 = (Ok true, w7)) by reflexivity.
  destruct (main_no_short_circuit failing passing passing passing passing
              passing last_check false true true true true true true
              init_world w0 w0 w0 w0 w0 w0 w7 Hf Hp Hp Hp Hp Hp Hl)
    as (R1 & _ & R3 & _).
  split; [exact Hf|]. split; [exact Hp|]. split; [exact Hl|].
  split; [exact R1 | exact R3].
Defined.

(** * Further properties of the code *)

(** ** The series *)

Lemma Qcdiv_plus_distr (x y z : Qc) : ((x + y) / z = x / z + y / z)%Qc.
Proof.
  unfold Qcdiv. ring.
Qed.

Lemma big_sum_plus (f g : nat -> Qc) (n : nat) :
  big_sum (fun i => (f i + g i)%Qc) n = (big_sum f n + big_sum g n)%Qc.
Proof.
  induction n as [|n IH]; cbn [big_sum]; [ring|]. rewrite IH. ring.
Qed.

Lemma spec_inner_split (cs : coefficient_set) (k : nat) :
  spec_inner Corrected cs k
  = (spec_inner IntegerOnly cs k
     + spec_inner Corrected (corrections_only cs) k)%Qc.
Proof.
  unfold spec_inner, corrections_only.
  induction cs as [|s cs IH]; cbn [map fold_right]; [ring|].
  rewrite IH. cbn [effective period offset int_part correction].
  change (Q2Qc (inject_Z 0)) with 0%Qc.
  unfold Qcdiv. ring.
Qed.

(** ** Coefficient lists of another length *)








(** ** The evaluators of [generate_figures.py] *)


(** ** 2. Convergence rate, as a whole *)


(** ** 7. Improvement over integer-only *)

Lemma float_div_zero (x : R) : float_div x 0 = Raise ZeroDivisionError.
Proof.
  unfold float_div. destruct (Req_dec_T 0 0) as [_|H]; [reflexivity|].
  exfalso. apply H. reflexivity.
Qed.

Lemma float_div_nonzero (x y : R) : y <> 0%R -> float_div x y = Ok (x / y)%R.
Proof.
  intros Hy. unfold float_div.
  destruct (Req_dec_T y 0) as [H|_]; [contradiction | reflexivity].
Qed.

Lemma improvement_verdict_zero (int_error : R) (w : world) :
  improvement_verdict int_error 0 w = (Raise ZeroDivisionError, w).
Proof.
  unfold improvement_verdict, bindM, lift.
  rewrite float_div_zero. reflexivity.
Qed.

(** X7: the improvement check divides the two errors unguarded.  When the
    corrected error is zero it raises ZeroDivisionError before printing
    anything; otherwise it returns whether [int_error / phi_error > 1e15]. *)
Theorem improvement_verdict_cases (int_error phi_error : R) (w : world) :
  (phi_error = 0%R ->
   improvement_verdict int_error phi_error w = (Raise ZeroDivisionError, w))
  /\ (phi_error <> 0%R ->
      exists b : bool,
        fst (improvement_verdict int_error phi_error w) = Ok b
        /\ (b = true <-> (1e15 < int_error / phi_error)%R)).
Proof.
  split.
  - intros ->. apply improvement_verdict_zero.
  - intros Hy. unfold improvement_verdict.
    unfold bindM at 1. unfold lift. rewrite (float_div_nonzero _ _ Hy).
    cbv [bindM print ret fst]. eexists. split; [reflexivity|].
    apply Rltb_true.
Qed.

Lemma improvement_verdict_cases_witness :
  improvement_verdict 1 0 init_world = (Raise ZeroDivisionError, init_world)
  /\ (1e-22 <> 0)%R
  /\ exists b : bool,
       fst (improvement_verdict 1e-6 1e-22 init_world) = Ok b
       /\ (b = true <-> (1e15 < 1e-6 / 1e-22)%R).
Proof.
  assert (H : (1e-22 <> 0)%R) by lra.
  split; [exact (proj1 (improvement_verdict_cases 1 0 init_world) eq_refl)|].
  split; [exact H|].
  exact (proj2 (improvement_verdict_cases 1e-6 1e-22 init_world) H).
Defined.

(** ** Main, when a check raises *)

(** X8: an exception of the last check escapes [main]: the summary is not
    printed, the state is the one the check left, and the exit status is 1. *)
Theorem main_propagates_exception
  (accuracy convergence_rate phi_pattern total_correction_check
     bellard_comparison mathematical_identities integer_improvement : M bool)
  (b1 b2 b3 b4 b5 b6 : bool) (e : exn) (w w1 w2 w3 w4 w5 w6 w7 : world) :
  accuracy (snd (print_header w)) = (Ok b1, w1) ->
  convergence_rate w1 = (Ok b2, w2) ->
  phi_pattern w2 = (Ok b3, w3) ->
  total_correction_check w3 = (Ok b4, w4) ->
  bellard_comparison w4 = (Ok b5, w5) ->
  mathematical_identities w5 = (Ok b6, w6) ->
  integer_improvement w6 = (Raise e, w7) ->
  main accuracy convergence_rate phi_pattern total_correction_check
    bellard_comparison mathematical_identities integer_improvement w
  = (Raise e, w7)
  /\ exit_status accuracy convergence_rate phi_pattern total_correction_check
       bellard_comparison mathematical_identities integer_improvement w
     = 1.
Proof.
  intros H1 H2 H3 H4 H5 H6 H7.
  assert (Hrun :
    main accuracy convergence_rate phi_pattern total_correction_check
      bellard_comparison mathematical_identities integer_improvement w
    = (Raise e, w7)).
  { unfold main.
    unfold bindM at 1. destruct (print_header w) as [r0 w0] eqn:E0.
    assert (Hr0 : r0 = Ok tt).
    { revert E0. unfold print_header. cbv [bindM print ret].
      intros E0. inversion E0. reflexivity. }
    subst r0. cbn [snd] in H1.
    unfold bindM at 1. rewrite H1.
    unfold bindM at 1. rewrite H2.
    unfold bindM at 1. rewrite H3.
    unfold bindM at 1. rewrite H4.
    unfold bindM at 1. rewrite H5.
    unfold bindM at 1. rewrite H6.
    unfold bindM at 1. rewrite H7. reflexivity. }
  split; [exact Hrun|].
  unfold exit_status. rewrite Hrun. reflexivity.
Qed.

Lemma main_propagates_exception_witness :
  let passing : M bool := ret true in
  let raising : M bool := improvement_verdict 1 0 in
  let w0 := snd (print_header init_world) in
  passing w0 = (Ok true, w0)
  /\ raising w0 = (Raise ZeroDivisionError, w0)
  /\ main passing passing passing passing passing passing raising init_world
     = (Raise ZeroDivisionError, w0)
  /\ exit_status passing passing passing passing passing passing raising
       init_world = 1.
Proof.
  intros passing raising w0.
  assert (Hp : passing w0 = (Ok true, w0)) by reflexivity.
  assert (Hr : raising w0 = (Raise ZeroDivisionError, w0))
    by exact (improvement_verdict_zero 1 w0).
  split; [exact Hp|]. split; [exact Hr|].
  exact (main_propagates_exception passing passing passing passing passing
           passing raising true true true true true true ZeroDivisionError
           init_world w0 w0 w0 w0 w0 w0 w0 Hp Hp Hp Hp Hp Hp Hr).
Defined.

(** ** The golden ratio *)

Lemma sqrt5_bounds : (2.2360679 < sqrt 5 < 2.2360680)%R.
Proof.
  assert (H0 : (0 <= sqrt 5)%R) by apply sqrt_pos.
  assert (H1 : (sqrt 5 * sqrt 5 = 5)%R) by (apply sqrt_sqrt; lra).
  split; nra.
Qed.

Lemma phi_bounds : (1.61803395 < mp_phi < 1.618034)%R.
Proof.
  unfold mp_phi. destruct sqrt5_bounds. lra.
Qed.

Lemma phi_square : (mp_phi * mp_phi = mp_phi + 1)%R.
Proof.
  unfold mp_phi.
  assert (H1 : (sqrt 5 * sqrt 5 = 5)%R) by (apply sqrt_sqrt; lra).
  nra.
Qed.

Lemma phi_inv : (/ mp_phi = mp_phi - 1)%R.
Proof.
  destruct phi_bounds as [Hlo _]. pose proof phi_square as Hs.
  apply Rmult_eq_reg_l with mp_phi; [|lra].
  rewrite Rinv_r by lra. nra.
Qed.

Lemma phi_inv_pow_bounds (k : nat) :
  (/ 1.618034 ^ k <= / mp_phi ^ k <= / 1.61803395 ^ k)%R.
Proof.
  destruct phi_bounds as [Hlo Hhi].
  assert (A : (1.61803395 ^ k <= mp_phi ^ k)%R) by (apply pow_incr; lra).
  assert (B : (mp_phi ^ k <= 1.618034 ^ k)%R) by (apply pow_incr; lra).
  assert (P1 : (0 < 1.61803395 ^ k)%R) by (apply pow_lt; lra).
  assert (P2 : (0 < mp_phi ^ k)%R) by (apply pow_lt; lra).
  split; apply Rinv_le_contravar; assumption.
Qed.

Lemma phi_identity_1 : (powerRZ mp_phi 2 + powerRZ mp_phi (-2) = 3)%R.
Proof.
  cbn [powerRZ]. change (Pos.to_nat 2) with 2%nat.
  rewrite <- pow_inv, phi_inv. pose proof phi_square. simpl pow. nra.
Qed.

Lemma phi_identity_3 :
  (atan (1 / mp_phi) + atan (1 / powerRZ mp_phi 3) = PI / 4)%R.
Proof.
  destruct phi_bounds as [Hlo Hhi]. pose proof phi_square as Hs.
  pose proof phi_inv as Hi.
  assert (E1 : (1 / mp_phi = mp_phi - 1)%R) by (unfold Rdiv; rewrite Hi; lra).
  assert (E3 : (1 / powerRZ mp_phi 3 = atan_sub 1 (mp_phi - 1))%R).
  { cbn [powerRZ]. change (Pos.to_nat 3) with 3%nat. unfold atan_sub.
    unfold Rdiv. rewrite Rmult_1_l, <- pow_inv, Hi.
    apply Rmult_eq_reg_r with (1 + 1 * (mp_phi - 1))%R; [|lra].
    rewrite Rmult_assoc, Rinv_l by lra. simpl pow. nra. }
  rewrite E1, E3, <- atan_1. symmetry.
  assert (A0 : (0 < atan (mp_phi - 1))%R).
  { rewrite <- atan_0. apply atan_increasing. lra. }
  assert (A1 : (atan (mp_phi - 1) < atan 1)%R)
    by (apply atan_increasing; lra).
  pose proof PI_RGT_0 as Hpi.
  apply atan_sub_correct.
  - lra.
  - rewrite atan_1 in *. lra.
  - pose proof (atan_bound (atan_sub 1 (mp_phi - 1))). lra.
Qed.

Lemma phi_identity_4 : (- ln (1 - 1 / mp_phi) = 2 * ln mp_phi)%R.
Proof.
  destruct phi_bounds as [Hlo Hhi]. pose proof phi_square as Hs.
  pose proof phi_inv as Hi.
  assert (E : (1 - 1 / mp_phi = / (mp_phi ^ 2))%R).
  { unfold Rdiv. rewrite Rmult_1_l, <- pow_inv, Hi. simpl pow. nra. }
  rewrite E, ln_Rinv by (apply pow_lt; lra).
  rewrite ln_pow by lra. simpl INR. lra.
Qed.

Lemma Rltb_zero_error (x y tol : R) :
  x = y -> (0 < tol)%R -> Rltb (Rabs (x - y)) tol = true.
Proof.
  intros -> Ht. apply Rltb_true.
  rewrite Rminus_diag, Rabs_R0. exact Ht.
Qed.

(** ** 5. Comparison to Bellard *)

Lemma bellard_improvement_exact : bellard_improvement = 20%R.
Proof.
  unfold bellard_improvement, np_log10.
  assert (L2 : (0 < ln 2)%R) by (rewrite <- ln_1; apply ln_increasing; lra).
  assert (L10 := ln_10_pos).
  replace 4096%R with (2 ^ 12)%R by lra.
  replace 1024%R with (2 ^ 10)%R by lra.
  rewrite !ln_pow by lra. simpl INR.
  field. lra.
Qed.

(** X9: the improvement over Bellard's rate is exactly 20 percent,
    log10(4096) / log10(1024) being 12/10, so [verify_bellard_comparison]
    returns True from every state, without changing the precision. *)
Theorem verify_bellard_comparison_passes (w : world) :
  bellard_improvement = 20%R
  /\ fst (verify_bellard_comparison w) = Ok true
  /\ mp_dps (snd (verify_bellard_comparison w)) = mp_dps w.
Proof.
  split; [exact bellard_improvement_exact|].
  unfold verify_bellard_comparison.
  cbv [banner bindM print ret fst snd mp_dps]. split; [|reflexivity].
  f_equal. apply Rltb_true. rewrite bellard_improvement_exact.
  rewrite Rminus_diag, Rabs_R0. lra.
Qed.

(** ** 6. The identities that hold exactly *)

(** X10: the first four identities hold exactly ([polylog(1, x)] being
    [-log(1 - x)] at [1/phi]), so the verdict of
    [verify_mathematical_identities] is that of the dilogarithm identity
    alone. *)
Theorem identities_reduce_to_dilogarithm (polylog : Z -> R -> R) (w : world) :
  polylog 1 (1 / mp_phi)%R = (- ln (1 - 1 / mp_phi))%R ->
  exists b : bool,
    fst (verify_mathematical_identities polylog w) = Ok b
    /\ (b = true <->
        (Rabs (polylog 2%Z (1 / powerRZ mp_phi 2)
               - (powerRZ mp_pi 2 / 15 - powerRZ (ln mp_phi) 2)) < 1e-10)%R).
Proof.
  intros Hli1.
  unfold verify_mathematical_identities.
  cbv [banner bindM print set_dps ret].
  match goal with
  | |- context [identity_checks ?a ?b ?c ?d ?e ?f ?g ?h ?w0] =>
      destruct (identity_checks_run a b c d e f g h w0)
        as (s1 & x1 & s2 & x2 & s3 & x3 & s4 & x4 & s5 & x5 & last & Hrun);
      rewrite Hrun
  end.
  cbn [fst]. eexists. split; [reflexivity|].
  rewrite (Rltb_zero_error _ 3) by (apply phi_identity_1 || lra).
  rewrite (Rltb_zero_error _ 4) by (rewrite ?phi_identity_1; lra).
  rewrite (Rltb_zero_error _ (mp_pi / 4))
    by (apply phi_identity_3 || lra).
  rewrite (Rltb_zero_error _ (2 * ln mp_phi))
    by ((rewrite Hli1; apply phi_identity_4) || lra).
  cbn [andb]. apply Rltb_true.
Qed.

Lemma identities_reduce_to_dilogarithm_witness :
  let polylog := fun (_ : Z) (x : R) => (- ln (1 - x))%R in
  polylog 1 (1 / mp_phi)%R = (- ln (1 - 1 / mp_phi))%R
  /\ exists b : bool,
       fst (verify_mathematical_identities polylog init_world) = Ok b.
Proof.
  intros polylog.
  assert (H : polylog 1 (1 / mp_phi)%R = (- ln (1 - 1 / mp_phi))%R)
    by reflexivity.
  split; [exact H|].
  destruct (identities_reduce_to_dilogarithm polylog init_world H)
    as (b & Hb & _).
  exists b. exact Hb.
Defined.

(** ** 3. The correction pattern *)

Lemma world_app_nil (w : world) : mkWorld (mp_dps w) (stdout w ++ []) = w.
Proof.
  rewrite app_nil_r. destruct w; reflexivity.
Qed.

Lemma phi_pattern_body_run (all_verified : bool) (i : Z) (corr : Q)
  (num den phi_pow : Z) (w : world) :
  den <> 0 ->
  exists l1 l2 : line,
    phi_pattern_body all_verified (i, (corr, (num, den, phi_pow))) w
    = (Ok (all_verified && slot_verified (corr, (num, den, phi_pow))),
       mkWorld (mp_dps w) (stdout w ++ [l1; l2])).
Proof.
  intros Hden. unfold phi_pattern_body, phi_approx, int_true_div.
  apply Z.eqb_neq in Hden. rewrite Hden.
  cbv [bind lift bindM print ret mp_dps stdout].
  rewrite <- app_assoc. do 2 eexists. reflexivity.
Qed.

Lemma phi_pattern_body_zero (all_verified : bool) (i : Z) (corr : Q)
  (num phi_pow : Z) (w : world) :
  phi_pattern_body all_verified (i, (corr, (num, 0, phi_pow))) w
  = (Raise ZeroDivisionError, w).
Proof.
  reflexivity.
Qed.

Lemma phi_pattern_items_run (items : list (Z * (Q * (Z * Z * Z)))) :
  Forall (fun it => snd (fst (snd (snd it))) <> 0) items ->
  forall (acc : bool) (w : world),
  exists out : list line,
    for_eachM items phi_pattern_body acc w
    = (Ok (acc && forallb slot_verified (map snd items)),
       mkWorld (mp_dps w) (stdout w ++ out))
    /\ List.length out = (2 * List.length items)%nat.
Proof.
  induction 1 as [|[i [corr [[num den] phi_pow]]] items Hden _ IH];
    intros acc w.
  - exists []. cbn. rewrite andb_true_r, world_app_nil. split; reflexivity.
  - cbn [snd fst] in Hden.
    destruct (phi_pattern_body_run acc i corr num den phi_pow w Hden)
      as (l1 & l2 & Hb).
    cbn [for_eachM]. unfold bindM at 1. rewrite Hb.
    destruct (IH (acc && slot_verified (corr, (num, den, phi_pow)))
                (mkWorld (mp_dps w) (stdout w ++ [l1; l2])))
      as (out & Hrun & Hlen).
    rewrite Hrun. exists ([l1; l2] ++ out). split.
    + cbn [map snd forallb mp_dps stdout].
      rewrite <- app_assoc, andb_assoc. reflexivity.
    + rewrite length_app, Hlen. cbn [List.length]. lia.
Qed.

Lemma length_range_of_nat (n : nat) : List.length (range (Z.of_nat n)) = n.
Proof.
  unfold range. rewrite length_map, length_seq. apply Nat2Z.id.
Qed.

Lemma map_snd_combine {A B : Type} (l1 : list A) (l2 : list B) :
  List.length l1 = List.length l2 -> map snd (combine l1 l2) = l2.
Proof.
  revert l2. induction l1 as [|a l1 IH]; intros [|b l2] H;
    try discriminate H; [reflexivity|].
  cbn. f_equal. apply IH. injection H as H. exact H.
Qed.

Lemma map_snd_enumerate {A : Type} (l : list A) : map snd (enumerate l) = l.
Proof.
  unfold enumerate. apply map_snd_combine. apply length_range_of_nat.
Qed.

Lemma length_enumerate {A : Type} (l : list A) :
  List.length (enumerate l) = List.length l.
Proof.
  rewrite <- (map_snd_enumerate l) at 2. rewrite length_map. reflexivity.
Qed.

(** X11: when no denominator is zero, the loop of [verify_phi_pattern]
    reports every zipped pair, two lines each, whatever the verdicts before
    it, and returns whether all of them are within 1e-4; entries beyond the
    shorter list are ignored. *)
Theorem phi_pattern_all_reported (corrections : list Q)
  (approximations : list (Z * Z * Z)) (w : world) :
  Forall (fun a => snd (fst a) <> 0) approximations ->
  exists out : list line,
    phi_pattern_loop corrections approximations w
    = (Ok (forallb slot_verified (combine corrections approximations)),
       mkWorld (mp_dps w) (stdout w ++ out))
    /\ List.length out
       = (2 * Nat.min (List.length corrections)
                (List.length approximations))%nat.
Proof.
  intros Hden. unfold phi_pattern_loop.
  assert (Hitems :
    Forall (fun it => snd (fst (snd (snd it))) <> 0)
      (enumerate (combine corrections approximations))).
  { apply Forall_forall. intros [i [corr a]] Hin. cbn [snd].
    unfold enumerate in Hin. apply in_combine_r in Hin.
    apply in_combine_r in Hin.
    rewrite Forall_forall in Hden. exact (Hden a Hin). }
  destruct (phi_pattern_items_run _ Hitems true w) as (out & Hrun & Hlen).
  exists out. rewrite Hrun, map_snd_enumerate. split; [reflexivity|].
  rewrite Hlen, length_enumerate, length_combine. reflexivity.
Qed.

Lemma phi_pattern_all_reported_witness :
  Forall (fun a : Z * Z * Z => snd (fst a) <> 0) [(1, 2, 0); (5, 1, 0)]
  /\ exists out : list line,
       phi_pattern_loop [0.5%Q; 0%Q; 7%Q] [(1, 2, 0); (5, 1, 0)] init_world
       = (Ok (forallb slot_verified
                (combine [0.5%Q; 0%Q; 7%Q] [(1, 2, 0); (5, 1, 0)])),
          mkWorld 15 ([] ++ out))
       /\ List.length out = 4%nat.
Proof.
  assert (H : Forall (fun a : Z * Z * Z => snd (fst a) <> 0)
                [(1, 2, 0); (5, 1, 0)])
    by (repeat constructor; cbn; lia).
  split; [exact H|].
  exact (phi_pattern_all_reported [0.5%Q; 0%Q; 7%Q] [(1, 2, 0); (5, 1, 0)]
           init_world H).
Defined.

Lemma phi_pattern_items_raise (pre : list (Z * Z * Z)) :
  Forall (fun a => snd (fst a) <> 0) pre ->
  forall (corrections : list Q) (idx : list Z) (num phi_pow : Z)
    (post : list (Z * Z * Z)) (acc : bool) (w : world),
  (List.length pre < List.length corrections)%nat ->
  (List.length pre < List.length idx)%nat ->
  exists out : list line,
    for_eachM
      (combine idx (combine corrections (pre ++ (num, 0, phi_pow) :: post)))
      phi_pattern_body acc w
    = (Raise ZeroDivisionError, mkWorld (mp_dps w) (stdout w ++ out))
    /\ List.length out = (2 * List.length pre)%nat.
Proof.
  induction 1 as [|[[n d] p] pre Hden _ IH];
    intros [|corr corrections] [|i idx] num phi_pow post acc w Hc Hi;
    cbn [List.length] in Hc, Hi; try lia.
  - exists []. cbn [app combine for_eachM]. unfold bindM.
    rewrite phi_pattern_body_zero, world_app_nil. split; reflexivity.
  - cbn [snd fst] in Hden.
    destruct (phi_pattern_body_run acc i corr n d p w Hden) as (l1 & l2 & Hb).
    cbn [app combine for_eachM]. unfold bindM at 1. rewrite Hb.
    destruct (IH corrections idx num phi_pow post
                (acc && slot_verified (corr, (n, d, p)))
                (mkWorld (mp_dps w) (stdout w ++ [l1; l2])))
      as (out & Hrun & Hlen); try lia.
    rewrite Hrun. exists ([l1; l2] ++ out). split.
    + cbn [mp_dps stdout]. rewrite <- app_assoc. reflexivity.
    + rewrite length_app, Hlen. cbn [List.length]. lia.
Qed.

(** X12: a zero denominator among the approximations makes the loop raise
    ZeroDivisionError at its slot: the slots before it have been reported,
    two lines each, and neither that slot nor a later one is. *)
Theorem phi_pattern_zero_denominator (corrections : list Q)
  (pre post : list (Z * Z * Z)) (num phi_pow : Z) (w : world) :
  Forall (fun a => snd (fst a) <> 0) pre ->
  (List.length pre < List.length corrections)%nat ->
  exists out : list line,
    phi_pattern_loop corrections (pre ++ (num, 0, phi_pow) :: post) w
    = (Raise ZeroDivisionError, mkWorld (mp_dps w) (stdout w ++ out))
    /\ List.length out = (2 * List.length pre)%nat.
Proof.
  intros Hden Hlen. unfold phi_pattern_loop, enumerate.
  apply phi_pattern_items_raise; [exact Hden | exact Hlen |].
  rewrite length_range_of_nat, length_combine, length_app.
  cbn [List.length]. lia.
Qed.

Lemma phi_pattern_zero_denominator_witness :
  Forall (fun a : Z * Z * Z => snd (fst a) <> 0) [(1, 2, 0)]
  /\ (List.length [(1, 2, 0)] < List.length [0.5%Q; 0%Q; 7%Q])%nat
  /\ exists out : list line,
       phi_pattern_loop [0.5%Q; 0%Q; 7%Q] ([(1, 2, 0)] ++ (5, 0, 3) :: [])
         init_world
       = (Raise ZeroDivisionError, mkWorld 15 ([] ++ out))
       /\ List.length out = 2%nat.
Proof.
  assert (H : Forall (fun a : Z * Z * Z => snd (fst a) <> 0) [(1, 2, 0)])
    by (repeat constructor; cbn; lia).
  assert (L : (List.length [(1, 2, 0)] < List.length [0.5%Q; 0%Q; 7%Q])%nat)
    by (cbn; lia).
  split; [exact H|]. split; [exact L|].
  exact (phi_pattern_zero_denominator [0.5%Q; 0%Q; 7%Q] [(1, 2, 0)] []
           5 3 init_world H L).
Defined.

Lemma slot_verified_by_bounds (corr : Q) (num den : Z) (k : positive) :
  (forall y : R,
     (/ 1.618034 ^ Pos.to_nat k <= y <= / 1.61803395 ^ Pos.to_nat k)%R ->
     (Rabs (Q2R corr - IZR num / IZR den * y) < 1e-4)%R) ->
  slot_verified (corr, (num, den, Z.neg k)) = true.
Proof.
  intros H. unfold slot_verified. apply Rltb_true.
  cbn [powerRZ]. apply H. apply phi_inv_pow_bounds.
Qed.

Lemma rational_approx_verified :
  forallb slot_verified (combine PHI_CORRECTIONS RATIONAL_APPROX) = true.
Proof.
  unfold PHI_CORRECTIONS, RATIONAL_APPROX. cbn [combine forallb].
  repeat rewrite andb_true_iff.
  repeat split;
    (apply slot_verified_by_bounds; intros y Hy;
     unfold Q2R; cbn [Qnum Qden];
     match type of Hy with
     | context [Pos.to_nat ?k] =>
         let n := eval compute in (Pos.to_nat k) in
         change (Pos.to_nat k) with n in Hy
     end;
     apply Rabs_def1; lra).
Qed.

Lemma verify_phi_pattern_loop_run (w : world) :
  exists out : list line,
    phi_pattern_loop PHI_CORRECTIONS RATIONAL_APPROX w
    = (Ok true, mkWorld (mp_dps w) (stdout w ++ out))
    /\ List.length out = 16%nat.
Proof.
  unfold phi_pattern_loop.
  assert (Hitems :
    Forall (fun it => snd (fst (snd (snd it))) <> 0)
      (enumerate (combine PHI_CORRECTIONS RATIONAL_APPROX)))
    by (repeat constructor; cbn; lia).
  destruct (phi_pattern_items_run _ Hitems true w) as (out & Hrun & Hlen).
  exists out. rewrite Hrun, map_snd_enumerate, rational_approx_verified.
  split; [reflexivity|]. rewrite Hlen. reflexivity.
Qed.

(** X13: each of the 8 rational approximations [(n/d) * phi^k] is within
    1e-4 of its correction, so [verify_phi_pattern] returns True from every
    state, after 16 report lines, leaving the precision at 50. *)
Theorem verify_phi_pattern_passes (w : world) :
  forallb slot_verified (combine PHI_CORRECTIONS RATIONAL_APPROX) = true
  /\ fst (verify_phi_pattern w) = Ok true
  /\ mp_dps (snd (verify_phi_pattern w)) = 50
  /\ List.length (stdout (snd (verify_phi_pattern w)))
     = (List.length (stdout w) + 21)%nat.
Proof.
  split; [exact rational_approx_verified|].
  unfold verify_phi_pattern.
  cbv [banner]. unfold bindM at 1. cbv [bindM print set_dps ret] .
  match goal with
  | |- context [phi_pattern_loop ?c ?a ?w0] =>
      destruct (verify_phi_pattern_loop_run w0) as (out & Hrun & Hlen);
      rewrite Hrun
  end.
  cbn [fst snd mp_dps stdout]. split; [reflexivity|]. split; [reflexivity|].
  rewrite !length_app, Hlen. cbn [List.length]. lia.
Qed.

(** ** How fast the partial sums settle *)

Lemma Qc_inv_int_bounds (z : Z) :
  1 <= z -> (0 <= / Q2Qc (inject_Z z))%Qc /\ (/ Q2Qc (inject_Z z) <= 1)%Qc.
Proof.
  intros Hz. destruct z as [|p|p]; try lia.
  unfold Qcle. cbn [this Qcinv Q2Qc].
  rewrite !Qred_correct.
  split; unfold Qle, Qinv, inject_Z; cbn; lia.
Qed.

Lemma Qcmult_le_compat_l (x y z : Qc) :
  (x <= y)%Qc -> (0 <= z)%Qc -> (z * x <= z * y)%Qc.
Proof.
  intros H Hz. rewrite (Qcmult_comm z x), (Qcmult_comm z y).
  apply Qcmult_le_compat_r; assumption.
Qed.

Lemma Qcabs_div_int (e : Qc) (z : Z) :
  1 <= z -> (Qcabs (e / Q2Qc (inject_Z z)) <= Qcabs e)%Qc.
Proof.
  intros Hz. destruct (Qc_inv_int_bounds z Hz) as [H0 H1].
  unfold Qcdiv. rewrite Qcabs_Qcmult, (Qcabs_pos _ H0).
  rewrite <- (Qcmult_1_r (Qcabs e)) at 2.
  apply Qcmult_le_compat_l; [exact H1 | apply Qcabs_nonneg].
Qed.

Lemma slot_denominator_pos (p o : Z) (k : nat) :
  slot_ok p o -> 1 <= p * Z.of_nat k + o.
Proof.
  intros (Hp & _ & Ho). destruct Hp; subst p; lia.
Qed.

Lemma spec_inner_bound (m : mode) (cs : coefficient_set) (k : nat) :
  Forall (fun s => slot_ok (period s) (offset s)) cs ->
  (Qcabs (spec_inner m cs k) <= coefficient_mass m cs)%Qc.
Proof.
  unfold spec_inner, coefficient_mass.
  induction 1 as [|s cs Hs _ IH]; cbn [fold_right].
  - rewrite Qcabs_pos by apply Qcle_refl. apply Qcle_refl.
  - eapply Qcle_trans; [apply Qcabs_triangle|].
    apply Qcplus_le_compat; [|exact IH].
    apply Qcabs_div_int. apply slot_denominator_pos. exact Hs.
Qed.

Lemma coefficient_mass_nonneg (m : mode) (cs : coefficient_set) :
  (0 <= coefficient_mass m cs)%Qc.
Proof.
  unfold coefficient_mass. induction cs as [|s cs IH]; cbn [fold_right].
  - apply Qcle_refl.
  - rewrite <- (Qcplus_0_l 0). apply Qcplus_le_compat;
      [apply Qcabs_nonneg | exact IH].
Qed.

Lemma Qcabs_spec_sign (k : nat) : Qcabs (spec_sign k) = 1%Qc.
Proof.
  unfold spec_sign. destruct (Nat.even k); apply Qc_is_canon; reflexivity.
Qed.

Lemma spec_base_nonneg (k : nat) : (0 <= spec_base k)%Qc.
Proof.
  unfold spec_base.
  assert (H : (0 <= radix ^ k)%Qc).
  { apply Qcpower_pos. unfold Qcle. cbn. unfold Qle. cbn. lia. }
  revert H. generalize (radix ^ k)%Qc. intros x Hx.
  unfold Qcle in *. cbn [this Qcinv Q2Qc] in *.
  rewrite !Qred_correct in *. apply Qinv_le_0_compat. exact Hx.
Qed.

Lemma spec_term_bound (m : mode) (cs : coefficient_set) (k : nat) :
  Forall (fun s => slot_ok (period s) (offset s)) cs ->
  (Qcabs (spec_term m cs k) <= coefficient_mass m cs * spec_base k)%Qc.
Proof.
  intros H. unfold spec_term.
  rewrite !Qcabs_Qcmult, Qcabs_spec_sign, Qcmult_1_l.
  rewrite (Qcabs_pos _ (spec_base_nonneg k)).
  rewrite (Qcmult_comm (spec_base k)).
  apply Qcmult_le_compat_r; [|apply spec_base_nonneg].
  apply spec_inner_bound. exact H.
Qed.

Lemma spec_base_0 : spec_base 0 = 1%Qc.
Proof.
  apply Qc_is_canon. reflexivity.
Qed.

Lemma radix_nonzero : radix <> 0%Qc.
Proof.
  unfold radix. change 0%Qc with (Q2Qc (inject_Z 0)).
  rewrite Q2Qc_eq_iff. unfold Qeq, inject_Z. cbn. lia.
Qed.

Lemma radix_minus_1_nonzero : (radix - 1)%Qc <> 0%Qc.
Proof.
  intros H. assert (E : radix = 1%Qc).
  { rewrite <- (Qcplus_0_r 1), <- H. ring. }
  revert E. unfold radix. change 1%Qc with (Q2Qc (inject_Z 1)).
  rewrite Q2Qc_eq_iff. unfold Qeq, inject_Z. cbn. lia.
Qed.

Lemma spec_base_succ (k : nat) : spec_base (S k) = (spec_base k * / radix)%Qc.
Proof.
  unfold spec_base. cbn [Qcpower]. rewrite Qcinv_mult_distr. ring.
Qed.

Lemma spec_base_plus (n i : nat) :
  spec_base (n + i) = (spec_base n * spec_base i)%Qc.
Proof.
  induction i as [|i IH].
  - rewrite Nat.add_0_r, spec_base_0. ring.
  - rewrite Nat.add_succ_r, !spec_base_succ, IH. ring.
Qed.

Lemma big_sum_shift (f : nat -> Qc) (n j : nat) :
  big_sum f (n + j) = (big_sum f n + big_sum (fun i => f (n + i)%nat) j)%Qc.
Proof.
  induction j as [|j IH].
  - rewrite Nat.add_0_r. cbn [big_sum]. ring.
  - rewrite Nat.add_succ_r. cbn [big_sum]. rewrite IH. ring.
Qed.

Lemma big_sum_abs_le (f g : nat -> Qc) (j : nat) :
  (forall i, (Qcabs (f i) <= g i)%Qc) ->
  (Qcabs (big_sum f j) <= big_sum g j)%Qc.
Proof.
  intros H. induction j as [|j IH]; cbn [big_sum].
  - rewrite Qcabs_pos by apply Qcle_refl. apply Qcle_refl.
  - eapply Qcle_trans; [apply Qcabs_triangle|].
    apply Qcplus_le_compat; [exact IH | apply H].
Qed.

Lemma big_sum_scale (c : Qc) (f : nat -> Qc) (j : nat) :
  big_sum (fun i => (c * f i)%Qc) j = (c * big_sum f j)%Qc.
Proof.
  induction j as [|j IH]; cbn [big_sum]; [ring|]. rewrite IH. ring.
Qed.

(** 1 + 1/4096 + ... + 1/4096^(j-1) *)
Lemma geometric_sum (j : nat) :
  big_sum spec_base j = ((1 - spec_base j) * (radix / (radix - 1)))%Qc.
Proof.
  pose proof radix_nonzero as R0. pose proof radix_minus_1_nonzero as R1.
  induction j as [|j IH]; cbn [big_sum].
  - rewrite spec_base_0. unfold Qcdiv. ring.
  - rewrite IH, spec_base_succ. field. split; assumption.
Qed.

Lemma radix_ratio_nonneg : (0 <= radix / (radix - 1))%Qc.
Proof.
  apply Qcle_alt. vm_compute. discriminate.
Qed.

Lemma geometric_sum_le (j : nat) :
  (big_sum spec_base j <= radix / (radix - 1))%Qc.
Proof.
  rewrite geometric_sum.
  rewrite <- (Qcmult_1_l (radix / (radix - 1))) at 2.
  apply Qcmult_le_compat_r; [|apply radix_ratio_nonneg].
  apply Qcle_minus_iff.
  replace (1 + - (1 - spec_base j))%Qc with (spec_base j) by ring.
  apply spec_base_nonneg.
Qed.

Lemma scale_inv_nonneg : (0 <= / scale)%Qc.
Proof.
  apply Qcle_alt. vm_compute. discriminate.
Qed.

Lemma partial_sum_tail (m : mode) (cs : coefficient_set) (n j : nat) :
  Forall (fun s => slot_ok (period s) (offset s)) cs ->
  (Qcabs (spec_partial_sum m cs (n + j) - spec_partial_sum m cs n)
   <= coefficient_mass m cs / scale * (radix / (radix - 1)) * spec_base n)%Qc.
Proof.
  intros Hok. unfold spec_partial_sum.
  rewrite big_sum_shift.
  replace ((big_sum (spec_term m cs) n
            + big_sum (fun i => spec_term m cs (n + i)) j) / scale
           - big_sum (spec_term m cs) n / scale)%Qc
    with (big_sum (fun i => spec_term m cs (n + i)) j * / scale)%Qc
    by (unfold Qcdiv; ring).
  rewrite Qcabs_Qcmult, (Qcabs_pos _ scale_inv_nonneg).
  replace (coefficient_mass m cs / scale * (radix / (radix - 1))
           * spec_base n)%Qc
    with (coefficient_mass m cs * spec_base n * (radix / (radix - 1))
          * / scale)%Qc
    by (unfold Qcdiv; ring).
  apply Qcmult_le_compat_r; [|apply scale_inv_nonneg].
  eapply Qcle_trans.
  - apply (big_sum_abs_le _
             (fun i => (coefficient_mass m cs * spec_base n * spec_base i)%Qc)).
    intros i. eapply Qcle_trans; [apply spec_term_bound; exact Hok|].
    rewrite spec_base_plus, Qcmult_assoc. apply Qcle_refl.
  - rewrite big_sum_scale.
    apply Qcmult_le_compat_l; [apply geometric_sum_le|].
    rewrite <- (Qcmult_0_l 0).
    eapply Qcle_trans; [|apply Qcmult_le_compat_r;
                          [apply coefficient_mass_nonneg
                          |apply spec_base_nonneg]].
    rewrite !Qcmult_0_l. apply Qcle_refl.
Qed.

Lemma settle_constant_corrected :
  (coefficient_mass Corrected phi_bbp_coefficients / scale
   * (radix / (radix - 1)) <= Q2Qc (inject_Z 10))%Qc.
Proof.
  apply Qcle_alt. vm_compute. discriminate.
Qed.

Lemma settle_constant_integer_only :
  (coefficient_mass IntegerOnly phi_bbp_coefficients / scale
   * (radix / (radix - 1)) <= Q2Qc (inject_Z 10))%Qc.
Proof.
  apply Qcle_alt. vm_compute. discriminate.
Qed.

(** X15: for the constants of the module, the value after [n_terms] terms is
    within [10 / 4096^n_terms] of the value after any larger number of terms,
    in both modes. *)
Theorem phi_bbp_settles (n_terms more precision : Z) (w w' : world) :
  0 <= n_terms -> 0 <= more ->
  exists v v' u u' : Qc,
    fst (evaluate_phi_bbp n_terms precision w) = Ok v
    /\ fst (evaluate_phi_bbp (n_terms + more) precision w') = Ok v'
    /\ (Qcabs (v' - v)
        <= Q2Qc (inject_Z 10) * / (radix ^ Z.to_nat n_terms))%Qc
    /\ fst (evaluate_integer_only n_terms precision w) = Ok u
    /\ fst (evaluate_integer_only (n_terms + more) precision w') = Ok u'
    /\ (Qcabs (u' - u)
        <= Q2Qc (inject_Z 10) * / (radix ^ Z.to_nat n_terms))%Qc.
Proof.
  intros Hn Hm.
  rewrite !evaluate_phi_bbp_run, !evaluate_integer_only_run. cbn [fst].
  replace (Z.to_nat (n_terms + more))
    with (Z.to_nat n_terms + Z.to_nat more)%nat by lia.
  destruct phi_bbp_coefficients_valid as [_ Hok].
  do 4 eexists.
  split; [reflexivity|]. split; [reflexivity|]. split; [|split; [|split]];
    try reflexivity.
  - eapply Qcle_trans; [apply partial_sum_tail; exact Hok|].
    apply Qcmult_le_compat_r;
      [exact settle_constant_corrected | apply spec_base_nonneg].
  - eapply Qcle_trans; [apply partial_sum_tail; exact Hok|].
    apply Qcmult_le_compat_r;
      [exact settle_constant_integer_only | apply spec_base_nonneg].
Qed.

Lemma phi_bbp_settles_witness :
  0 <= 2 /\ 0 <= 3
  /\ exists v v' : Qc,
       fst (evaluate_phi_bbp 2 200 init_world) = Ok v
       /\ fst (evaluate_phi_bbp (2 + 3) 200 init_world) = Ok v'
       /\ (Qcabs (v' - v) <= Q2Qc (inject_Z 10) * / (radix ^ Z.to_nat 2))%Qc.
Proof.
  split; [lia|]. split; [lia|].
  destruct (phi_bbp_settles 2 3 200 init_world init_world
              (Z.le_0_2) (Zle_0_pos 3))
    as (v & v' & _ & _ & H1 & H2 & H3 & _).
  exists v, v'. split; [exact H1|]. split; [exact H2 | exact H3].
Defined.

(** ** Figure 3 *)

Lemma figure3_grid_run (w : world) :
  exists (fig : generate_figures.closed_form_figure) (w' : world),
    generate_figures.figure3_closed_form w = (Ok fig, w')
    /\ exists (total atan_phi log_phi : R),
         generate_figures.error_grid fig
         = map (fun a =>
                  map (fun b => Rabs (a * atan_phi + b * log_phi - total)%R)
                      (generate_figures.linspace (-2) 0 100))
               (generate_figures.linspace (-1) 1 100).
Proof.
  unfold generate_figures.figure3_closed_form.
  cbv [bindM print set_dps ret]. do 2 eexists. split; [reflexivity|].
  cbn [generate_figures.error_grid]. do 3 eexists. reflexivity.
Qed.

Lemma length_linspace (start stop : R) (num : nat) :
  List.length (generate_figures.linspace start stop (Z.of_nat num)) = num.
Proof.
  unfold generate_figures.linspace. rewrite length_map.
  apply length_range_of_nat.
Qed.

(** X16: the error grid of figure 3 has 100 rows of 100 entries, none of
    them negative, so that the heat map never takes the logarithm of a
    number that is not positive: every [error + 1e-20] is above 0. *)
Theorem figure3_grid_shape (w : world) :
  exists fig : generate_figures.closed_form_figure,
    fst (generate_figures.figure3_closed_form w) = Ok fig
    /\ List.length (generate_figures.error_grid fig) = 100%nat
    /\ (forall row : list R,
          In row (generate_figures.error_grid fig) ->
          List.length row = 100%nat
          /\ forall e : R, In e row -> (0 <= e /\ 0 < e + 1e-20)%R)
    /\ List.length (generate_figures.heatmap fig) = 100%nat.
Proof.
  destruct (figure3_grid_run w) as (fig & w' & Hrun & total & a & l & Hgrid).
  exists fig. rewrite Hrun. split; [reflexivity|].
  assert (Hlen : List.length (generate_figures.error_grid fig) = 100%nat).
  { rewrite Hgrid, length_map. exact (length_linspace (-1) 1 100). }
  split; [exact Hlen|]. split.
  - intros row Hrow. rewrite Hgrid in Hrow.
    apply in_map_iff in Hrow. destruct Hrow as (x & <- & _). split.
    + rewrite length_map. exact (length_linspace (-2) 0 100).
    + intros e He. apply in_map_iff in He. destruct He as (y & <- & _).
      pose proof (Rabs_pos (x * a + y * l - total)) as Hp. lra.
  - unfold generate_figures.heatmap. rewrite length_map. exact Hlen.
Qed.

(** ** Figure 2 *)

Lemma sqrt5_bounds_tight : (2.2360679774 < sqrt 5 < 2.2360679776)%R.
Proof.
  assert (H0 : (0 <= sqrt 5)%R) by apply sqrt_pos.
  assert (H1 : (sqrt 5 * sqrt 5 = 5)%R) by (apply sqrt_sqrt; lra).
  split; nra.
Qed.

Lemma phi_bounds_tight : (1.6180339887 < mp_phi < 1.6180339888)%R.
Proof.
  unfold mp_phi. destruct sqrt5_bounds_tight. lra.
Qed.

Lemma phi_inv_pow_bounds_tight (k : nat) :
  (/ 1.6180339888 ^ k <= / mp_phi ^ k <= / 1.6180339887 ^ k)%R.
Proof.
  destruct phi_bounds_tight as [Hlo Hhi].
  assert (A : (1.6180339887 ^ k <= mp_phi ^ k)%R) by (apply pow_incr; lra).
  assert (B : (mp_phi ^ k <= 1.6180339888 ^ k)%R) by (apply pow_incr; lra).
  assert (P1 : (0 < 1.6180339887 ^ k)%R) by (apply pow_lt; lra).
  assert (P2 : (0 < mp_phi ^ k)%R) by (apply pow_lt; lra).
  split; apply Rinv_le_contravar; assumption.
Qed.

Lemma slot_error_interval (corr : Q) (num den : Z) (k : positive)
  (lo hi : R) :
  (forall y : R,
     (/ 1.6180339888 ^ Pos.to_nat k <= y <= / 1.6180339887 ^ Pos.to_nat k)%R ->
     (lo < Rabs (Q2R corr - IZR num / IZR den * y) < hi)%R) ->
  (lo < slot_error (corr, (num, den, Z.neg k)) < hi)%R.
Proof.
  intros H. unfold slot_error. cbn [powerRZ].
  apply H. apply phi_inv_pow_bounds_tight.
Qed.

Ltac slot_interval :=
  apply slot_error_interval; intros y Hy;
  unfold Q2R; cbn [Qnum Qden];
  match type of Hy with
  | context [Pos.to_nat ?k] =>
      let n := eval compute in (Pos.to_nat k) in
      change (Pos.to_nat k) with n in Hy
  end;
  unfold Rabs;
  match goal with |- context [Rcase_abs ?x] => destruct (Rcase_abs x) end;
  lra.

Lemma slot_error_intervals :
  Forall2 (fun e b => (fst b < e < snd b)%R)
    (map slot_error (combine PHI_CORRECTIONS RATIONAL_APPROX))
    [ (7.6e-8, 7.7e-8); (6.6e-7, 6.7e-7); (1.69e-7, 1.70e-7);
      (1.11e-7, 1.12e-7); (6.8e-8, 6.9e-8); (2.67e-7, 2.68e-7);
      (2.76e-5, 2.77e-5); (9.7e-7, 9.8e-7) ]%R.
Proof.
  unfold PHI_CORRECTIONS, RATIONAL_APPROX. cbn [combine map].
  repeat (apply Forall2_cons; [cbn [fst snd]; slot_interval|]).
  apply Forall2_nil.
Qed.

Lemma figure2_body_run (acc : list R) (i : Z) (corr : Q)
  (num den phi_pow : Z) (w : world) :
  den <> 0 ->
  figure2_body acc (i, (corr, (num, den, phi_pow))) w
  = (Ok (acc ++ [slot_error (corr, (num, den, phi_pow))]), w).
Proof.
  intros Hden. unfold figure2_body, phi_approx, int_true_div, slot_error.
  apply Z.eqb_neq in Hden. rewrite Hden. reflexivity.
Qed.

Lemma figure2_items_run (items : list (Z * (Q * (Z * Z * Z)))) :
  Forall (fun it => snd (fst (snd (snd it))) <> 0) items ->
  forall (acc : list R) (w : world),
    for_eachM items figure2_body acc w
    = (Ok (acc ++ map slot_error (map snd items)), w).
Proof.
  induction 1 as [|[i [corr [[num den] phi_pow]]] items Hden _ IH];
    intros acc w.
  - cbn. rewrite app_nil_r. reflexivity.
  - cbn [snd fst] in Hden. cbn [for_eachM]. unfold bindM.
    rewrite (figure2_body_run acc i corr num den phi_pow w Hden), IH.
    cbn [map snd]. rewrite <- app_assoc. reflexivity.
Qed.

Lemma getitem_4 {A : Type} (a0 a1 a2 a3 a4 : A) (l : list A) :
  getitem (a0 :: a1 :: a2 :: a3 :: a4 :: l) 4 = Ok a4.
Proof.
  reflexivity.
Qed.

Lemma figure2_colors :
  map (fun c => if Rltb 0 (Q2R c) then "green"%string else "red"%string)
      generate_figures.PHI_CORRECTIONS
  = ["green"; "red"; "green"; "green"; "green"; "red"; "red"; "green"]%string.
Proof.
  unfold generate_figures.PHI_CORRECTIONS. cbn [map].
  repeat match goal with
         | |- context [Rltb 0 (Q2R ?c)] =>
             let b := fresh "b" in
             destruct (Rltb 0 (Q2R c)) eqn:b;
             [apply Rltb_true in b | apply Rltb_false in b];
             unfold Q2R in b; cbn [Qnum Qden] in b;
             try (exfalso; lra)
         end.
  reflexivity.
Qed.

(** X18: figure 2 plots, for the 8 slots, the very errors
    [verify_phi_pattern] checks; each lies strictly between 0 and 1e-4, so
    the logarithmic axis is defined, and the bar the figure marks as the
    cleanest, of index 4, is the smallest of them. *)
Theorem figure2_cleanest (w : world) :
  exists fig : corrections_figure,
    fst (figure2_corrections w) = Ok fig
    /\ approx_errors fig
       = map slot_error (combine PHI_CORRECTIONS RATIONAL_APPROX)
    /\ List.length (approx_errors fig) = 8%nat
    /\ Forall (fun e => (0 < e < 1e-4)%R) (approx_errors fig)
    /\ Forall (fun e => (highlighted fig <= e)%R) (approx_errors fig)
    /\ bar_colors fig
       = ["green"; "red"; "green"; "green"; "green"; "red"; "red"; "green"]
         %string.
Proof.
  assert (Hitems :
    Forall (fun it => snd (fst (snd (snd it))) <> 0)
      (enumerate (combine generate_figures.PHI_CORRECTIONS
                  generate_figures.RATIONAL_APPROX)))
    by (repeat constructor; cbn; lia).
  pose proof slot_error_intervals as Hb.
  unfold figure2_corrections.
  cbv [bindM print set_dps ret lift].
  rewrite (figure2_items_run _ Hitems), map_snd_enumerate, figure2_colors.
  change generate_figures.PHI_CORRECTIONS with PHI_CORRECTIONS.
  change generate_figures.RATIONAL_APPROX with RATIONAL_APPROX.
  revert Hb. unfold PHI_CORRECTIONS, RATIONAL_APPROX.
  cbn [combine map app]. intros Hb.
  rewrite getitem_4. eexists. split; [reflexivity|].
  cbn [approx_errors highlighted bar_colors].
  repeat match goal with
         | H : Forall2 _ (_ :: _) (_ :: _) |- _ =>
             apply Forall2_cons_iff in H; destruct H as [? H]
         end.
  cbn [fst snd] in *.
  split; [reflexivity|]. split; [reflexivity|].
  split; [|split; [|reflexivity]]; repeat constructor; lra.
Qed.

(** * The arithmetic at the working precision *)

(** ** Rounding *)

Lemma round_half_even_comp (x y : Q) :
  x == y -> round_half_even x = round_half_even y.
Proof.
  intros H. unfold round_half_even.
  rewrite (Qfloor_comp _ _ H).
  assert (H1 : x - inject_Z (Qfloor y) == y - inject_Z (Qfloor y))
    by (rewrite H; reflexivity).
  rewrite (Qcompare_comp _ _ H1 _ _ (Qeq_refl _)). reflexivity.
Qed.

Lemma round_half_even_Z (z : Z) : round_half_even (inject_Z z) = z.
Proof.
  unfold round_half_even. rewrite Qfloor_Z.
  assert (H : (inject_Z z - inject_Z z ?= 1 # 2)%Q = Lt).
  { apply Qlt_alt. setoid_replace (inject_Z z - inject_Z z)%Q with 0%Q by ring.
    reflexivity. }
  rewrite H. reflexivity.
Qed.

Lemma round_half_even_error (x : Q) :
  (Qabs (inject_Z (round_half_even x) - x) <= 1 # 2)%Q.
Proof.
  unfold round_half_even.
  pose proof (Qfloor_le x) as H1. pose proof (Qlt_floor x) as H2.
  rewrite inject_Z_plus in H2. change (inject_Z 1) with 1%Q in H2.
  set (f := Qfloor x) in *.
  assert (Hup : (Qabs (inject_Z (f + 1) - x) <= 1 # 2)%Q
                \/ (x - inject_Z f < 1 # 2)%Q).
  { destruct (Qlt_le_dec (x - inject_Z f) (1 # 2)) as [H|H];
      [right; exact H|left].
    rewrite inject_Z_plus. change (inject_Z 1) with 1%Q.
    apply Qabs_Qle_condition. split; Lqa.lra. }
  assert (Hdown : (Qabs (inject_Z f - x) <= 1 # 2)%Q
                  \/ (1 # 2 < x - inject_Z f)%Q).
  { destruct (Qlt_le_dec (1 # 2) (x - inject_Z f)) as [H|H];
      [right; exact H|left].
    apply Qabs_Qle_condition. split; Lqa.lra. }
  destruct (x - inject_Z f ?= 1 # 2)%Q eqn:Hc.
  - apply Qeq_alt in Hc.
    destruct (Z.even f);
      [destruct Hdown as [H|H]|destruct Hup as [H|H]]; try exact H; Lqa.lra.
  - apply Qlt_alt in Hc. destruct Hdown as [H|H]; [exact H|Lqa.lra].
  - apply Qgt_alt in Hc. destruct Hup as [H|H]; [exact H|Lqa.lra].
Qed.

Lemma two_power_pos (e : Z) : (0 < 2 ^ e)%Q.
Proof.
  apply Qpower_0_lt. reflexivity.
Qed.

Lemma two_power_succ (e : Z) : (2 ^ (e + 1) == 2 * 2 ^ e)%Q.
Proof.
  rewrite Qpower_plus by discriminate. change (2 ^ 1)%Q with 2%Q. ring.
Qed.

Lemma Qabs_num_den (x : Q) :
  (Qabs x == inject_Z (Z.abs (Qnum x)) / inject_Z (Zpos (Qden x)))%Q.
Proof.
  destruct x as [n d]. unfold Qabs. cbn [Qnum Qden].
  rewrite <- Qmake_Qdiv. reflexivity.
Qed.

(** [binary_exponent x] is the exponent of the leading bit of [x]. *)
Lemma binary_exponent_spec (x : Q) :
  ~ x == 0 ->
  (2 ^ binary_exponent x <= Qabs x < 2 ^ (binary_exponent x + 1))%Q.
Proof.
  intros Hx. unfold binary_exponent.
  set (n := Z.abs (Qnum x)). set (d := Zpos (Qden x)).
  assert (Hn : 0 < n).
  { unfold n. destruct x as [[|q|q] dd]; cbn; try lia.
    exfalso. apply Hx. reflexivity. }
  assert (Hd : 0 < d) by (unfold d; lia).
  destruct (Z.log2_spec n Hn) as [Ha1 Ha2].
  destruct (Z.log2_spec d Hd) as [Hb1 Hb2].
  set (a := Z.log2 n) in *. set (b := Z.log2 d) in *.
  assert (Ha : 0 <= a) by apply Z.log2_nonneg.
  assert (Hb : 0 <= b) by apply Z.log2_nonneg.
  pose proof (Qabs_num_den x) as Habs. fold n d in Habs.
  assert (HN1 : (2 ^ a <= inject_Z n)%Q).
  { change 2%Q with (inject_Z 2). rewrite <- Zpower_Qpower by exact Ha.
    rewrite <- Zle_Qle. exact Ha1. }
  assert (HN2 : (inject_Z n < 2 * 2 ^ a)%Q).
  { rewrite <- two_power_succ. change 2%Q with (inject_Z 2).
    rewrite <- Zpower_Qpower by lia. rewrite <- Zlt_Qlt.
    replace (a + 1) with (Z.succ a) by lia. exact Ha2. }
  assert (HD1 : (2 ^ b <= inject_Z d)%Q).
  { change 2%Q with (inject_Z 2). rewrite <- Zpower_Qpower by exact Hb.
    rewrite <- Zle_Qle. exact Hb1. }
  assert (HD2 : (inject_Z d < 2 * 2 ^ b)%Q).
  { rewrite <- two_power_succ. change 2%Q with (inject_Z 2).
    rewrite <- Zpower_Qpower by lia. rewrite <- Zlt_Qlt.
    replace (b + 1) with (Z.succ b) by lia. exact Hb2. }
  assert (Hab : (2 ^ a == 2 ^ (a - b) * 2 ^ b)%Q).
  { rewrite <- Qpower_plus by discriminate. replace (a - b + b) with a by lia.
    reflexivity. }
  pose proof (two_power_pos (a - b)) as Hp.
  pose proof (two_power_pos b) as Hpb.
  assert (HD : (0 < inject_Z d)%Q) by (rewrite <- (Zlt_Qlt 0); exact Hd).
  set (P := (2 ^ (a - b))%Q) in *. set (B := (2 ^ b)%Q) in *.
  set (A := (2 ^ a)%Q) in *.
  set (N := inject_Z n) in *. set (D := inject_Z d) in *.
  destruct (Qle_bool P (Qabs x)) eqn:Ht.
  - apply Qle_bool_iff in Ht. split; [exact Ht|].
    rewrite two_power_succ. fold P. rewrite Habs.
    apply Qlt_shift_div_r; [exact HD|]. Lqa.nra.
  - assert (Hlt : (Qabs x < P)%Q).
    { apply Qnot_le_lt. intros H. apply Qle_bool_iff in H. congruence. }
    replace (a - b - 1 + 1) with (a - b) by lia. fold P.
    split; [|exact Hlt].
    assert (Hhalf : (2 * 2 ^ (a - b - 1) == P)%Q).
    { unfold P. rewrite <- two_power_succ.
      replace (a - b - 1 + 1) with (a - b) by lia. reflexivity. }
    pose proof (two_power_pos (a - b - 1)) as Hp'.
    set (P' := (2 ^ (a - b - 1))%Q) in *.
    rewrite Habs. apply Qle_shift_div_l; [exact HD|]. Lqa.nra.
Qed.

Lemma round_to_0 (prec : Z) (x : Q) : x == 0 -> round_to prec x = 0%Q.
Proof.
  intros H. unfold round_to. apply Qeq_bool_iff in H. rewrite H. reflexivity.
Qed.

Lemma round_to_nonzero (prec : Z) (x : Q) :
  ~ x == 0 ->
  round_to prec x
  = (inject_Z (round_half_even (x * 2 ^ (- (binary_exponent x - prec + 1))))
     * 2 ^ (binary_exponent x - prec + 1))%Q.
Proof.
  intros H. unfold round_to.
  destruct (Qeq_bool x 0) eqn:E; [|reflexivity].
  apply Qeq_bool_iff in E. contradiction.
Qed.

Lemma two_power_opp_l (s : Z) : (2 ^ (- s) * 2 ^ s == 1)%Q.
Proof.
  rewrite <- Qpower_plus by discriminate.
  replace (- s + s) with 0 by lia. reflexivity.
Qed.

(** The relative error of one rounding is at most [2^(-prec)]. *)
Lemma round_to_error (prec : Z) (x : Q) :
  (Qabs (round_to prec x - x) <= unit_roundoff prec * Qabs x)%Q.
Proof.
  destruct (Qeq_dec x 0) as [Hx|Hx].
  - rewrite (round_to_0 prec x Hx). rewrite Hx. cbn.
    setoid_replace (unit_roundoff prec * 0)%Q with 0%Q by ring.
    apply Qle_refl.
  - rewrite (round_to_nonzero prec x Hx).
    destruct (binary_exponent_spec x Hx) as [He _].
    set (e := binary_exponent x) in *. set (s := e - prec + 1).
    pose proof (round_half_even_error (x * 2 ^ (- s))) as Hr.
    set (rm := inject_Z (round_half_even (x * 2 ^ (- s)))) in *.
    pose proof (two_power_pos s) as Hs.
    assert (E1 : (rm * 2 ^ s - x == (rm - x * 2 ^ (- s)) * 2 ^ s)%Q).
    { transitivity (rm * 2 ^ s - x * (2 ^ (- s) * 2 ^ s))%Q; [|ring].
      rewrite two_power_opp_l. ring. }
    rewrite E1, Qabs_Qmult, (Qabs_pos (2 ^ s)) by (apply Qlt_le_weak; exact Hs).
    assert (E2 : (2 ^ s == 2 * (2 ^ (- prec) * 2 ^ e))%Q).
    { rewrite <- Qpower_plus by discriminate. rewrite <- two_power_succ.
      replace (- prec + e + 1) with s by (unfold s; lia). reflexivity. }
    unfold unit_roundoff.
    pose proof (two_power_pos (- prec)) as Hu.
    pose proof (Qabs_nonneg (rm - x * 2 ^ (- s))) as H0.
    set (t := Qabs (rm - x * 2 ^ (- s))) in *.
    set (U := (2 ^ (- prec))%Q) in *. set (E := (2 ^ e)%Q) in *.
    set (X := Qabs x) in *. rewrite E2.
    assert (HUE : (0 < U * E)%Q).
    { apply Qmult_lt_0_compat; [exact Hu|apply two_power_pos]. }
    assert (HUX : (U * E <= U * X)%Q).
    { apply Qmult_le_l; [exact Hu|exact He]. }
    Lqa.nra.
Qed.

(** A number with at most [prec] bits of mantissa is left as it is. *)
Lemma round_to_exact (prec : Z) (x : Q) (K z : Z) :
  (x == inject_Z K * 2 ^ z)%Q -> Z.abs K < 2 ^ prec -> 0 <= prec ->
  (round_to prec x == x)%Q.
Proof.
  intros Hx HK Hp.
  destruct (Qeq_dec x 0) as [H0|H0];
    [rewrite (round_to_0 prec x H0), H0; reflexivity|].
  rewrite (round_to_nonzero prec x H0).
  destruct (binary_exponent_spec x H0) as [He _].
  set (e := binary_exponent x) in *. set (s := e - prec + 1).
  assert (Habs : (Qabs x == inject_Z (Z.abs K) * 2 ^ z)%Q).
  { rewrite Hx, Qabs_Qmult, (Qabs_pos (2 ^ z))
      by (apply Qlt_le_weak, two_power_pos).
    destruct K; reflexivity. }
  assert (Hlt : (2 ^ e < 2 ^ (prec + z))%Q).
  { eapply Qle_lt_trans; [exact He|]. rewrite Habs.
    rewrite Qpower_plus by discriminate.
    apply Qmult_lt_compat_r; [apply two_power_pos|].
    change 2%Q with (inject_Z 2). rewrite <- Zpower_Qpower by exact Hp.
    rewrite <- Zlt_Qlt. exact HK. }
  apply Qpower_lt_compat_l_inv in Hlt; [|reflexivity].
  assert (Hs : 0 <= z - s) by (unfold s; lia).
  assert (Hm : (x * 2 ^ (- s) == inject_Z (K * 2 ^ (z - s)))%Q).
  { rewrite inject_Z_mult, Zpower_Qpower by exact Hs.
    change (inject_Z 2) with 2%Q.
    replace (z - s) with (z + - s) by lia.
    rewrite Qpower_plus by discriminate. rewrite Hx. ring. }
  rewrite (round_half_even_comp _ _ Hm), round_half_even_Z, <- Hm.
  rewrite <- Qmult_assoc, two_power_opp_l. ring.
Qed.

(** ** The value of an [mpf] as a real number *)

Lemma Q2R_Q2Qc (q : Q) : Q2R (Q2Qc q) = Q2R q.
Proof.
  apply Qreals.Qeq_eqR. cbn [this Q2Qc]. apply Qred_correct.
Qed.

Lemma Q2R_Qcplus (x y : Qc) : Q2R (x + y)%Qc = (Q2R x + Q2R y)%R.
Proof.
  unfold Qcplus. rewrite Q2R_Q2Qc. apply Qreals.Q2R_plus.
Qed.

Lemma Q2R_Qcmult (x y : Qc) : Q2R (x * y)%Qc = (Q2R x * Q2R y)%R.
Proof.
  unfold Qcmult. rewrite Q2R_Q2Qc. apply Qreals.Q2R_mult.
Qed.

Lemma Q2R_Qcopp (x : Qc) : Q2R (- x)%Qc = (- Q2R x)%R.
Proof.
  unfold Qcopp. rewrite Q2R_Q2Qc. apply Qreals.Q2R_opp.
Qed.

Lemma Q2R_Qcminus (x y : Qc) : Q2R (x - y)%Qc = (Q2R x - Q2R y)%R.
Proof.
  unfold Qcminus. rewrite Q2R_Qcplus, Q2R_Qcopp. reflexivity.
Qed.

Lemma Q2R_Qcdiv (x y : Qc) :
  y <> 0%Qc -> Q2R (x / y)%Qc = (Q2R x / Q2R y)%R.
Proof.
  intros Hy. unfold Qcdiv, Qcinv. rewrite Q2R_Qcmult, Q2R_Q2Qc.
  rewrite Qreals.Q2R_inv; [reflexivity|].
  intros H. apply Hy. apply Qc_is_canon. exact H.
Qed.

Lemma Q2R_Qabs (q : Q) : Q2R (Qabs q) = Rabs (Q2R q).
Proof.
  destruct (Qlt_le_dec q 0) as [H|H].
  - rewrite (Qreals.Qeq_eqR _ _ (Qabs_neg q (Qlt_le_weak _ _ H))).
    apply Qreals.Qlt_Rlt in H. rewrite RMicromega.Q2R_0 in H.
    rewrite Qreals.Q2R_opp, Rabs_left by exact H. reflexivity.
  - rewrite (Qreals.Qeq_eqR _ _ (Qabs_pos q H)).
    apply Qreals.Qle_Rle in H. rewrite RMicromega.Q2R_0 in H.
    rewrite Rabs_pos_eq by exact H. reflexivity.
Qed.

Lemma Q2R_0 : Q2R 0%Qc = 0%R.
Proof.
  exact RMicromega.Q2R_0.
Qed.

Lemma unit_roundoff_pos (prec : Z) : (0 < Q2R (unit_roundoff prec))%R.
Proof.
  rewrite <- RMicromega.Q2R_0. apply Qreals.Qlt_Rlt. apply two_power_pos.
Qed.

(** ** One rounding *)

Lemma mpf_round_value (prec : Z) (x : mpf) :
  Q2R (Rounded.mpf_round prec x) = Q2R (round_to prec x).
Proof.
  apply Q2R_Q2Qc.
Qed.

Lemma mpf_round_error (prec : Z) (x : mpf) :
  (Rabs (Q2R (Rounded.mpf_round prec x) - Q2R x)
   <= Q2R (unit_roundoff prec) * Rabs (Q2R x))%R.
Proof.
  rewrite mpf_round_value, <- Qreals.Q2R_minus, <- !Q2R_Qabs.
  rewrite <- Qreals.Q2R_mult. apply Qreals.Qle_Rle. apply round_to_error.
Qed.

Lemma mpf_round_0 (prec : Z) : Rounded.mpf_round prec 0%Qc = 0%Qc.
Proof.
  unfold Rounded.mpf_round. rewrite round_to_0 by reflexivity. reflexivity.
Qed.

Lemma mpf_round_dyadic (prec K z : Z) :
  Z.abs K < 2 ^ prec -> 0 <= prec ->
  Rounded.mpf_round prec (dyadic K z) = dyadic K z.
Proof.
  intros HK Hp. apply Qc_is_canon. unfold Rounded.mpf_round.
  cbn [this Q2Qc]. rewrite Qred_correct.
  apply (round_to_exact prec _ K z); [|exact HK|exact Hp].
  unfold dyadic. cbn [this Q2Qc]. apply Qred_correct.
Qed.

Lemma dyadic_mult (K K' z z' : Z) :
  (dyadic K z * dyadic K' z')%Qc = dyadic (K * K') (z + z').
Proof.
  apply Qc_is_canon. unfold dyadic, Qcmult. cbn [this Q2Qc].
  rewrite !Qred_correct, inject_Z_mult, Qpower_plus by discriminate. ring.
Qed.

Lemma dyadic_inv (K z : Z) :
  Z.abs K = 1 -> (/ dyadic K z)%Qc = dyadic K (- z).
Proof.
  intros HK. apply Qc_is_canon. unfold dyadic, Qcinv. cbn [this Q2Qc].
  rewrite !Qred_correct, Qpower_opp, Qinv_mult_distr.
  assert (E : K = 1 \/ K = -1) by lia.
  destruct E as [E|E]; rewrite E; reflexivity.
Qed.

Lemma dyadic_of_int (K : Z) : mpf_of_int K = dyadic K 0.
Proof.
  apply Qc_is_canon. unfold dyadic, mpf_of_int. cbn [this Q2Qc].
  rewrite !Qred_correct. change (2 ^ 0)%Q with 1%Q. ring.
Qed.

Lemma dyadic_shift (K z : Z) (j : Z) :
  0 <= j -> dyadic (K * 2 ^ j) z = dyadic K (z + j).
Proof.
  intros Hj. apply Qc_is_canon. unfold dyadic. cbn [this Q2Qc].
  rewrite !Qred_correct, inject_Z_mult, Zpower_Qpower by exact Hj.
  change (inject_Z 2) with 2%Q. rewrite Qpower_plus by discriminate. ring.
Qed.

Lemma spec_sign_dyadic (i : nat) :
  exists K : Z, Z.abs K = 1 /\ spec_sign i = dyadic K 0.
Proof.
  unfold spec_sign. destruct (Nat.even i).
  - exists 1. split; [reflexivity|]. apply Qc_is_canon. reflexivity.
  - exists (-1). split; [reflexivity|]. apply Qc_is_canon. reflexivity.
Qed.

Lemma radix_power_dyadic (i : nat) :
  (radix ^ i)%Qc = dyadic 1 (12 * Z.of_nat i).
Proof.
  induction i as [|i IH].
  - apply Qc_is_canon. reflexivity.
  - change (radix ^ S i)%Qc with (radix * radix ^ i)%Qc. rewrite IH.
    assert (E : radix = dyadic 1 12) by (apply Qc_is_canon; reflexivity).
    rewrite E, dyadic_mult. f_equal. lia.
Qed.

Lemma spec_base_dyadic (i : nat) :
  spec_base i = dyadic 1 (- (12 * Z.of_nat i)).
Proof.
  unfold spec_base. rewrite radix_power_dyadic. apply dyadic_inv. reflexivity.
Qed.

Section ApproxFacts.

Variable u : R.
Hypothesis Hu : (0 <= u)%R.

Lemma growth_ge_1 (j : nat) : (1 <= (1 + u) ^ j)%R.
Proof.
  apply pow_R1_Rle. lra.
Qed.

Lemma growth_mono (j j' : nat) :
  (j <= j')%nat -> ((1 + u) ^ j <= (1 + u) ^ j')%R.
Proof.
  intros H. apply Rle_pow; [lra|exact H].
Qed.

Lemma approx_nonneg (j : nat) (xh x : mpf) (A : R) :
  approx u j xh x A -> (0 <= A)%R.
Proof.
  intros [_ H]. pose proof (Rabs_pos (Q2R x)). lra.
Qed.

Lemma approx_mono (j j' : nat) (xh x : mpf) (A A' : R) :
  (j <= j')%nat -> (A <= A')%R ->
  approx u j xh x A -> approx u j' xh x A'.
Proof.
  intros Hj HA H. pose proof (approx_nonneg _ _ _ _ H) as H0.
  destruct H as [H1 H2]. split; [|lra].
  pose proof (growth_mono j j' Hj) as Hg.
  pose proof (growth_ge_1 j) as Hg1.
  eapply Rle_trans; [exact H1|]. nra.
Qed.

Lemma approx_exact (j : nat) (x : mpf) (A : R) :
  (Rabs (Q2R x) <= A)%R -> approx u j x x A.
Proof.
  intros H. split; [|exact H].
  pose proof (Rabs_pos (Q2R x)). pose proof (growth_ge_1 j).
  replace (Q2R x - Q2R x)%R with 0%R by ring. rewrite Rabs_R0. nra.
Qed.

Lemma approx_plus (j : nat) (xh x yh y : mpf) (A B : R) :
  approx u j xh x A -> approx u j yh y B ->
  approx u j (xh + yh)%Qc (x + y)%Qc (A + B).
Proof.
  intros [H1 H2] [H3 H4]. unfold approx. rewrite !Q2R_Qcplus. split.
  - replace (Q2R xh + Q2R yh - (Q2R x + Q2R y))%R
      with ((Q2R xh - Q2R x) + (Q2R yh - Q2R y))%R by ring.
    eapply Rle_trans; [apply Rabs_triang|]. lra.
  - eapply Rle_trans; [apply Rabs_triang|]. lra.
Qed.

Lemma approx_scale (j : nat) (c xh x : mpf) (A : R) :
  approx u j xh x A ->
  approx u j (c * xh)%Qc (c * x)%Qc (Rabs (Q2R c) * A).
Proof.
  intros [H1 H2]. unfold approx. rewrite !Q2R_Qcmult.
  pose proof (Rabs_pos (Q2R c)) as Hc. split.
  - replace (Q2R c * Q2R xh - Q2R c * Q2R x)%R
      with (Q2R c * (Q2R xh - Q2R x))%R by ring.
    rewrite Rabs_mult.
    replace (((1 + u) ^ j - 1) * (Rabs (Q2R c) * A))%R
      with (Rabs (Q2R c) * (((1 + u) ^ j - 1) * A))%R by ring.
    apply Rmult_le_compat_l; [exact Hc|exact H1].
  - rewrite Rabs_mult. apply Rmult_le_compat_l; [exact Hc|exact H2].
Qed.

Lemma Rabs_inv_int (d : Z) : d <> 0 -> (Rabs (/ IZR d) <= 1)%R.
Proof.
  intros Hd.
  assert (H : (1 <= Rabs (IZR d))%R).
  { rewrite <- abs_IZR. apply IZR_le. lia. }
  rewrite Rabs_inv. rewrite <- Rinv_1. apply Rinv_le_contravar; [lra|exact H].
Qed.

Lemma Q2R_mpf_of_int (z : Z) : Q2R (mpf_of_int z) = IZR z.
Proof.
  unfold mpf_of_int. rewrite Q2R_Q2Qc. unfold Q2R. cbn. field.
Qed.

Lemma approx_div_int (j : nat) (xh x : mpf) (d : Z) (A : R) :
  d <> 0 -> approx u j xh x A ->
  approx u j (xh / mpf_of_int d)%Qc (x / mpf_of_int d)%Qc
    A.
Proof.
  intros Hd H. pose proof (approx_nonneg _ _ _ _ H) as H0.
  unfold Qcdiv. rewrite !(Qcmult_comm _ (/ _)).
  eapply approx_mono; [apply Nat.le_refl| |apply approx_scale; exact H].
  assert (E : Q2R (/ mpf_of_int d)%Qc = (/ IZR d)%R).
  { replace (/ mpf_of_int d)%Qc
      with (1 / mpf_of_int d)%Qc by (unfold Qcdiv; ring).
    rewrite Q2R_Qcdiv by (rewrite mpf_of_int_eq_0; exact Hd).
    rewrite Q2R_mpf_of_int.
    change (Q2R 1%Qc) with (Q2R 1%Q). rewrite RMicromega.Q2R_1.
    unfold Rdiv. ring. }
  rewrite E. pose proof (Rabs_inv_int d Hd). nra.
Qed.

End ApproxFacts.

Lemma approx_round (prec : Z) (j : nat) (xh x : mpf) (A : R) :
  approx (Q2R (unit_roundoff prec)) j xh x A ->
  approx (Q2R (unit_roundoff prec)) (S j) (Rounded.mpf_round prec xh) x A.
Proof.
  intros [H1 H2]. split; [|exact H2].
  pose proof (unit_roundoff_pos prec) as Hu.
  pose proof (mpf_round_error prec xh) as Hr.
  set (u := Q2R (unit_roundoff prec)) in *.
  assert (Hg : (1 <= (1 + u) ^ j)%R) by (apply growth_ge_1; lra).
  assert (Hxh : (Rabs (Q2R xh) <= (1 + u) ^ j * A)%R).
  { replace (Q2R xh) with ((Q2R xh - Q2R x) + Q2R x)%R by ring.
    eapply Rle_trans; [apply Rabs_triang|]. lra. }
  replace (Q2R (Rounded.mpf_round prec xh) - Q2R x)%R
    with ((Q2R (Rounded.mpf_round prec xh) - Q2R xh) + (Q2R xh - Q2R x))%R
    by ring.
  eapply Rle_trans; [apply Rabs_triang|].
  cbn [pow].
  assert (H3 : (u * Rabs (Q2R xh) <= u * ((1 + u) ^ j * A))%R)
    by (apply Rmult_le_compat_l; [lra|exact Hxh]).
  lra.
Qed.

(** ** The loops at a working precision *)

Section RoundedExact.

Variable prec : Z.
Hypothesis Hprec : 1 <= prec.

Lemma two_le_power_prec : 2 <= 2 ^ prec.
Proof.
  change 2 with (2 ^ 1) at 1. apply Z.pow_le_mono_r; lia.
Qed.

Lemma mpf_round_unit_dyadic (K z : Z) :
  Z.abs K = 1 -> Rounded.mpf_round prec (dyadic K z) = dyadic K z.
Proof.
  intros HK. apply mpf_round_dyadic; [|lia].
  pose proof two_le_power_prec. lia.
Qed.

Lemma rounded_of_int_power_of_two (K j : Z) :
  Z.abs K = 1 -> 0 <= j ->
  Rounded.mpf_of_int prec (K * 2 ^ j) = mpf_of_int (K * 2 ^ j).
Proof.
  intros HK Hj. unfold Rounded.mpf_of_int.
  rewrite dyadic_of_int, dyadic_shift by exact Hj.
  apply mpf_round_unit_dyadic. exact HK.
Qed.

Lemma rounded_of_int_0 : Rounded.mpf_of_int prec 0 = 0%Qc.
Proof.
  apply mpf_round_0.
Qed.

Lemma rounded_of_int_1 : Rounded.mpf_of_int prec 1 = 1%Qc.
Proof.
  exact (rounded_of_int_power_of_two 1 0 eq_refl (Z.le_refl 0)).
Qed.

Lemma rounded_of_int_minus_1 :
  Rounded.mpf_of_int prec (-1) = mpf_of_int (-1).
Proof.
  exact (rounded_of_int_power_of_two (-1) 0 eq_refl (Z.le_refl 0)).
Qed.

Lemma rounded_of_int_4096 : Rounded.mpf_of_int prec 4096 = radix.
Proof.
  apply (rounded_of_int_power_of_two 1 12 eq_refl). lia.
Qed.

Lemma rounded_of_int_64 : Rounded.mpf_of_int prec 64 = scale.
Proof.
  apply (rounded_of_int_power_of_two 1 6 eq_refl). lia.
Qed.

(** [mpf(-1)**k] is exactly the sign. *)
Lemma rounded_sign (i : nat) :
  Rounded.mpf_pow prec (Rounded.mpf_of_int prec (-1)) (Z.of_nat i)
  = Ok (spec_sign i).
Proof.
  unfold Rounded.mpf_pow.
  assert (E : (0 <=? Z.of_nat i) = true) by (apply Z.leb_le; lia).
  rewrite E, Nat2Z.id, rounded_of_int_minus_1, minus_one_power.
  destruct (spec_sign_dyadic i) as (K & HK & EK).
  rewrite EK, (mpf_round_unit_dyadic K 0 HK). reflexivity.
Qed.

(** [mpf(4096)**k] is exactly the power. *)
Lemma rounded_radix_power (i : nat) :
  Rounded.mpf_pow prec (Rounded.mpf_of_int prec 4096) (Z.of_nat i)
  = Ok (radix ^ i)%Qc.
Proof.
  unfold Rounded.mpf_pow.
  assert (E : (0 <=? Z.of_nat i) = true) by (apply Z.leb_le; lia).
  rewrite E, Nat2Z.id, rounded_of_int_4096, radix_power_dyadic.
  rewrite (mpf_round_unit_dyadic 1 _ eq_refl). reflexivity.
Qed.

(** [mpf(1) / mpf(4096)**k] is exactly [4096^(-k)]. *)
Lemma rounded_base (i : nat) :
  Rounded.mpf_div prec (Rounded.mpf_of_int prec 1) (radix ^ i)%Qc
  = Ok (spec_base i).
Proof.
  unfold Rounded.mpf_div.
  assert (Hnz : (radix ^ i)%Qc <> 0%Qc).
  { apply Qcpower_nonzero. unfold radix.
    change (Q2Qc (inject_Z 4096)) with (mpf_of_int 4096).
    rewrite mpf_of_int_eq_0. discriminate. }
  destruct (mpf_is_zero (radix ^ i)%Qc) eqn:E;
    [apply mpf_is_zero_spec in E; contradiction|].
  rewrite rounded_of_int_1.
  replace (1 / radix ^ i)%Qc with (spec_base i)
    by (unfold spec_base, Qcdiv; ring).
  rewrite spec_base_dyadic, (mpf_round_unit_dyadic 1 _ eq_refl).
  reflexivity.
Qed.

(** [sign * base_term] is exact too. *)
Lemma rounded_sign_base (i : nat) :
  Rounded.mpf_mul prec (spec_sign i) (spec_base i)
  = (spec_sign i * spec_base i)%Qc.
Proof.
  unfold Rounded.mpf_mul.
  destruct (spec_sign_dyadic i) as (K & HK & EK).
  rewrite EK, spec_base_dyadic, dyadic_mult.
  apply mpf_round_unit_dyadic. lia.
Qed.

End RoundedExact.

Lemma Rabs_sign_base (i : nat) :
  Rabs (Q2R (spec_sign i * spec_base i)%Qc) = Q2R (spec_base i).
Proof.
  assert (Hb : (0 <= Q2R (spec_base i))%R).
  { rewrite <- RMicromega.Q2R_0. apply Qreals.Qle_Rle.
    exact (spec_base_nonneg i). }
  rewrite Q2R_Qcmult, Rabs_mult, (Rabs_pos_eq _ Hb).
  assert (Hs : Rabs (Q2R (spec_sign i)) = 1%R).
  { unfold spec_sign. destruct (Nat.even i).
    - change (Q2R 1%Qc) with (Q2R 1%Q). rewrite RMicromega.Q2R_1.
      apply Rabs_pos_eq. lra.
    - rewrite Q2R_Qcopp. change (Q2R 1%Qc) with (Q2R 1%Q).
      rewrite RMicromega.Q2R_1, Rabs_Ropp. apply Rabs_pos_eq. lra. }
  rewrite Hs. ring.
Qed.

Section RoundedLoops.

Variable prec : Z.
Hypothesis Hprec : 1 <= prec.

Context {C : Type}.

(** [to_mpf (f s)] is what the program holds for the coefficient of slot
    [s], [e s] the exact coefficient, [a s] its magnitude. *)
Variable to_mpf : C -> mpf.
Variable f : slot_entry -> C.
Variable e : slot_entry -> mpf.
Variable a : slot_entry -> R.

Hypothesis Hcoef :
  forall s, approx (Q2R (unit_roundoff prec)) 2 (to_mpf (f s)) (e s) (a s).

Lemma unit_roundoff_nonneg : (0 <= Q2R (unit_roundoff prec))%R.
Proof.
  apply Rlt_le, unit_roundoff_pos.
Qed.

Lemma magnitude_nonneg (s : slot_entry) : (0 <= a s)%R.
Proof.
  exact (approx_nonneg _ _ _ _ _ (Hcoef s)).
Qed.

Lemma rounded_inner_body (i : nat) (inner_h inner : mpf) (j : nat) (A : R)
  (s : slot_entry) :
  (3 <= j)%nat ->
  approx (Q2R (unit_roundoff prec)) j inner_h inner A ->
  exists v : mpf,
    Rounded.inner_body prec to_mpf (Z.of_nat i) inner_h
      ((period s, offset s), f s) = Ok v
    /\ approx (Q2R (unit_roundoff prec)) (S j) v
         (inner
          + e s / mpf_of_int (period s * Z.of_nat i + offset s))%Qc
         (A + a s).
Proof.
  intros Hj H. pose proof unit_roundoff_nonneg as Hu.
  pose proof (magnitude_nonneg s) as Ha.
  unfold Rounded.inner_body.
  destruct (period s * Z.of_nat i + offset s =? 0) eqn:E; cbn [negb].
  - apply Z.eqb_eq in E. rewrite E. exists inner_h. split; [reflexivity|].
    change (mpf_of_int 0) with 0%Qc.
    rewrite Qcdiv_0_r, Qcplus_0_r.
    apply (approx_mono _ Hu j (S j) _ _ A); [lia|lra|exact H].
  - apply Z.eqb_neq in E.
    unfold Rounded.mpf_div_by_int, Rounded.mpf_div.
    destruct (mpf_is_zero (mpf_of_int _)) eqn:Ez.
    { apply mpf_is_zero_spec, mpf_of_int_eq_0 in Ez. contradiction. }
    cbn [bind]. eexists. split; [reflexivity|].
    unfold Rounded.mpf_add. apply approx_round.
    apply (approx_plus _ j); [exact H|].
    apply (approx_mono _ Hu 3 j _ _ (a s)); [exact Hj|lra|].
    apply approx_round. apply (approx_div_int _ Hu); [exact E|].
    apply Hcoef.
Qed.

Lemma rounded_inner_loop (i : nat) (cs : coefficient_set) :
  forall (inner_h inner : mpf) (j : nat) (A : R),
    (3 <= j)%nat ->
    approx (Q2R (unit_roundoff prec)) j inner_h inner A ->
    exists v : mpf,
      for_each (combine (slots_of cs) (map f cs))
        (Rounded.inner_body prec to_mpf (Z.of_nat i)) inner_h = Ok v
      /\ approx (Q2R (unit_roundoff prec)) (j + List.length cs) v
           (inner + inner_of e cs i)%Qc (A + sum_of a cs).
Proof.
  induction cs as [|s cs IH]; intros inner_h inner j A Hj H.
  - exists inner_h. split; [reflexivity|].
    cbn [inner_of sum_of fold_right List.length].
    rewrite Qcplus_0_r, Nat.add_0_r, Rplus_0_r. exact H.
  - cbn [slots_of map combine for_each].
    destruct (rounded_inner_body i inner_h inner j A s Hj H) as (v1 & E1 & H1).
    rewrite E1. cbn [bind].
    destruct (IH v1 _ (S j) _ (Nat.le_trans _ _ _ Hj (Nat.le_succ_diag_r j)) H1)
      as (v & E & Hv).
    exists v. split; [exact E|].
    cbn [inner_of sum_of fold_right List.length].
    replace (j + S (List.length cs))%nat with (S j + List.length cs)%nat
      by lia.
    replace (A + (a s + fold_right (fun s0 acc => a s0 + acc) 0 cs))%R
      with (A + a s + sum_of a cs)%R by (unfold sum_of; ring).
    rewrite Qcplus_assoc. exact Hv.
Qed.

Lemma sum_of_nonneg (cs : coefficient_set) : (0 <= sum_of a cs)%R.
Proof.
  induction cs as [|s cs IH]; cbn [sum_of fold_right]; [lra|].
  pose proof (magnitude_nonneg s). unfold sum_of in IH. lra.
Qed.

Lemma rounded_term_body (cs : coefficient_set) (i : nat) (res_h res : mpf)
  (j : nat) (A : R) :
  (4 + List.length cs <= j)%nat ->
  approx (Q2R (unit_roundoff prec)) j res_h res A ->
  exists v : mpf,
    Rounded.term_body prec (slots_of cs) to_mpf (map f cs) res_h (Z.of_nat i)
    = Ok v
    /\ approx (Q2R (unit_roundoff prec)) (S j) v (res + term_of e cs i)%Qc
         (A + Q2R (spec_base i) * sum_of a cs).
Proof.
  intros Hj H. pose proof unit_roundoff_nonneg as Hu.
  unfold Rounded.term_body.
  rewrite (rounded_sign prec Hprec). cbn [bind].
  rewrite (rounded_radix_power prec Hprec). cbn [bind].
  rewrite (rounded_base prec Hprec). cbn [bind].
  rewrite (rounded_of_int_0 prec).
  assert (H0 : approx (Q2R (unit_roundoff prec)) 3 0%Qc 0%Qc 0).
  { apply (approx_exact _ Hu). rewrite Q2R_0, Rabs_R0. lra. }
  destruct (rounded_inner_loop i cs 0%Qc 0%Qc 3 0%R (Nat.le_refl 3) H0)
    as (vi & Ei & Hi).
  rewrite Ei. cbn [bind]. eexists. split; [reflexivity|].
  rewrite (rounded_sign_base prec Hprec).
  unfold Rounded.mpf_add, Rounded.mpf_mul. apply approx_round.
  apply (approx_plus _ j); [exact H|].
  apply (approx_mono _ Hu (4 + List.length cs) j _ _
           (Q2R (spec_base i) * sum_of a cs)); [exact Hj|lra|].
  change (4 + List.length cs)%nat with (S (3 + List.length cs)).
  apply approx_round. unfold term_of.
  rewrite Qcplus_0_l, Rplus_0_l in Hi.
  rewrite <- (Rabs_sign_base i).
  apply approx_scale. exact Hi.
Qed.

Lemma rounded_outer_loop (cs : coefficient_set) (n : nat) :
  exists v : mpf,
    for_each (range (Z.of_nat n))
      (Rounded.term_body prec (slots_of cs) to_mpf (map f cs))
      (Rounded.mpf_of_int prec 0) = Ok v
    /\ approx (Q2R (unit_roundoff prec)) (4 + List.length cs + n) v
         (big_sum (term_of e cs) n) (Q2R (big_sum spec_base n) * sum_of a cs).
Proof.
  pose proof unit_roundoff_nonneg as Hu.
  induction n as [|n IH].
  - exists 0%Qc. split; [cbn; rewrite rounded_of_int_0; reflexivity|].
    cbn [big_sum]. apply (approx_exact _ Hu).
    rewrite Q2R_0, Rabs_R0, Rmult_0_l. lra.
  - destruct IH as (v0 & E0 & H0).
    rewrite range_succ, for_each_app, E0. cbn [bind for_each].
    destruct (rounded_term_body cs n v0 _ _ _
                (Nat.le_add_r (4 + List.length cs) n) H0) as (v & E & H).
    rewrite E. exists v. split; [reflexivity|].
    cbn [big_sum]. rewrite Q2R_Qcplus, Rmult_plus_distr_r.
    replace (4 + List.length cs + S n)%nat
      with (S (4 + List.length cs + n)) by lia.
    exact H.
Qed.

Lemma geometric_sum_real (n : nat) :
  (0 <= Q2R (big_sum spec_base n) <= 4096 / 4095)%R.
Proof.
  split.
  - rewrite <- RMicromega.Q2R_0. apply Qreals.Qle_Rle.
    change (0 <= big_sum spec_base n)%Qc.
    induction n as [|n IH]; cbn [big_sum]; [apply Qcle_refl|].
    rewrite <- (Qcplus_0_l 0). apply Qcplus_le_compat;
      [exact IH|apply spec_base_nonneg].
  - assert (E : (radix / (radix - 1))%Qc = Q2Qc (4096 # 4095))
      by (apply Qc_is_canon; reflexivity).
    pose proof (geometric_sum_le n) as H. rewrite E in H.
    apply Qreals.Qle_Rle in H. rewrite Q2R_Q2Qc in H.
    unfold Q2R at 2 in H. cbn [Qnum Qden] in H. lra.
Qed.

(** The whole series: [n_terms + length cs + 5] roundings at most. *)
Lemma rounded_series (cs : coefficient_set) (n_terms : Z) :
  exists v : mpf,
    Rounded.series prec (slots_of cs) to_mpf (map f cs) n_terms = Ok v
    /\ approx (Q2R (unit_roundoff prec))
         (Z.to_nat n_terms + List.length cs + 5) v
         (big_sum (term_of e cs) (Z.to_nat n_terms) / scale)%Qc
         (sum_of a cs / 64 * (4096 / 4095)).
Proof.
  pose proof unit_roundoff_nonneg as Hu.
  unfold Rounded.series.
  assert (E : range n_terms = range (Z.of_nat (Z.to_nat n_terms))).
  { unfold range. rewrite Nat2Z.id. reflexivity. }
  rewrite E.
  destruct (rounded_outer_loop cs (Z.to_nat n_terms)) as (v0 & E0 & H0).
  rewrite E0. cbn [bind]. rewrite (rounded_of_int_64 prec Hprec).
  unfold Rounded.mpf_div.
  destruct (mpf_is_zero scale) eqn:Ez; [discriminate Ez|].
  eexists. split; [reflexivity|].
  replace (Z.to_nat n_terms + List.length cs + 5)%nat
    with (S (4 + List.length cs + Z.to_nat n_terms)) by lia.
  apply approx_round.
  pose proof (geometric_sum_real (Z.to_nat n_terms)) as [Hg0 Hg].
  pose proof (sum_of_nonneg cs) as Hs.
  eapply (approx_mono _ Hu); [apply Nat.le_refl| |].
  2:{ unfold Qcdiv. rewrite !(Qcmult_comm _ (/ scale)).
      apply approx_scale. exact H0. }
  assert (Es : Q2R (/ scale)%Qc = (/ 64)%R).
  { assert (E1 : (/ scale)%Qc = Q2Qc (1 # 64))
      by (apply Qc_is_canon; reflexivity).
    rewrite E1, Q2R_Q2Qc. unfold Q2R. cbn [Qnum Qden]. lra. }
  rewrite Es, Rabs_pos_eq by lra. nra.
Qed.

End RoundedLoops.

(** ** The evaluators at a working precision *)

Lemma rounded_of_int_approx (prec z : Z) :
  approx (Q2R (unit_roundoff prec)) 1 (Rounded.mpf_of_int prec z)
    (mpf_of_int z) (Q2R (Qabs (inject_Z z))).
Proof.
  unfold Rounded.mpf_of_int. apply approx_round.
  apply approx_exact; [apply Rlt_le, unit_roundoff_pos|].
  unfold mpf_of_int. rewrite Q2R_Q2Qc, Q2R_Qabs. apply Rle_refl.
Qed.

Lemma coefficient_corrected (prec : Z) (s : slot_entry) :
  approx (Q2R (unit_roundoff prec)) 2 (rounded_effective prec s)
    (effective Corrected (float_entry s)) (Q2R (magnitude Corrected s)).
Proof.
  unfold rounded_effective, Rounded.mpf_add. apply approx_round.
  unfold magnitude. rewrite Qreals.Q2R_plus.
  cbn [effective float_entry int_part correction].
  apply approx_plus; [apply rounded_of_int_approx|].
  unfold Rounded.mpf_of_float. apply approx_round.
  apply approx_exact; [apply Rlt_le, unit_roundoff_pos|].
  rewrite Q2R_Q2Qc, Q2R_Qabs. apply Rle_refl.
Qed.

Lemma coefficient_integer_only (prec : Z) (s : slot_entry) :
  approx (Q2R (unit_roundoff prec)) 2 (Rounded.mpf_of_int prec (int_part s))
    (effective IntegerOnly s) (Q2R (magnitude IntegerOnly s)).
Proof.
  apply (approx_mono _ (Rlt_le _ _ (unit_roundoff_pos prec)) 1 2 _ _
           (Q2R (magnitude IntegerOnly s))); [lia|apply Rle_refl|].
  apply rounded_of_int_approx.
Qed.

Lemma sum_of_magnitudes (m : mode) (cs : coefficient_set) :
  sum_of (fun s => Q2R (magnitude m s)) cs = Q2R (rounding_mass m cs).
Proof.
  unfold sum_of, rounding_mass.
  induction cs as [|s cs IH]; cbn [fold_right].
  - symmetry. exact RMicromega.Q2R_0.
  - rewrite Qreals.Q2R_plus, IH. reflexivity.
Qed.

Lemma term_of_float (cs : coefficient_set) (i : nat) :
  term_of (fun s => effective Corrected (float_entry s)) cs i
  = spec_term Corrected (float_coefficients cs) i.
Proof.
  unfold term_of, spec_term. f_equal.
  unfold inner_of, spec_inner, float_coefficients.
  induction cs as [|s cs IH]; cbn [map fold_right]; [reflexivity|].
  rewrite IH. reflexivity.
Qed.

Lemma rounded_effective_coefs_of_set (prec : Z) (cs : coefficient_set) :
  List.length cs = 8%nat ->
  Rounded.effective_coefs prec (int_coefs_of cs) (corrections_of cs)
  = Ok (map (rounded_effective prec) cs).
Proof.
  intros H.
  do 8 (destruct cs as [|? cs]; [discriminate H|]).
  destruct cs; [reflexivity | discriminate H].
Qed.

Lemma dps_to_prec_pos (n : Z) : 1 <= dps_to_prec n.
Proof.
  unfold dps_to_prec. apply Z.le_max_l.
Qed.

(** The corrected evaluator: the partial sum over the float coefficients,
    up to [n_terms + 13] roundings. *)
Lemma rounded_phi_bbp_on (cs : coefficient_set) (n_terms precision : Z)
  (w : world) :
  List.length cs = 8%nat ->
  exists v : mpf,
    Rounded.evaluate_phi_bbp_on cs n_terms precision w
    = (Ok v, mkWorld precision (stdout w))
    /\ (Rabs (Q2R v
              - Q2R (spec_partial_sum Corrected (float_coefficients cs)
                       (Z.to_nat n_terms)))
        <= ((1 + Q2R (unit_roundoff (dps_to_prec precision)))
              ^ (Z.to_nat n_terms + 13) - 1)
           * (Q2R (rounding_mass Corrected cs) / 64 * (4096 / 4095)))%R.
Proof.
  intros Hlen.
  unfold Rounded.evaluate_phi_bbp_on, Rounded.get_prec, bindM, set_dps, lift.
  cbn [mp_dps stdout fst snd]. unfold Rounded.phi_bbp_value.
  rewrite (rounded_effective_coefs_of_set _ cs Hlen). cbn [bind].
  destruct (rounded_series (dps_to_prec precision) (dps_to_prec_pos precision)
              (fun c : mpf => c) (rounded_effective (dps_to_prec precision))
              (fun s => effective Corrected (float_entry s))
              (fun s => Q2R (magnitude Corrected s))
              (coefficient_corrected (dps_to_prec precision)) cs n_terms)
    as (v & E & H1 & _).
  exists v. rewrite E. split; [reflexivity|].
  rewrite sum_of_magnitudes, Hlen in H1.
  unfold spec_partial_sum.
  rewrite (big_sum_ext _ _ _ (term_of_float cs)) in H1.
  replace (Z.to_nat n_terms + 8 + 5)%nat with (Z.to_nat n_terms + 13)%nat
    in H1 by lia.
  exact H1.
Qed.

(** The integer-only evaluator. *)
Lemma rounded_integer_only_on (cs : coefficient_set) (n_terms precision : Z)
  (w : world) :
  exists v : mpf,
    Rounded.evaluate_integer_only_on cs n_terms precision w
    = (Ok v, mkWorld precision (stdout w))
    /\ (Rabs (Q2R v - Q2R (spec_partial_sum IntegerOnly cs (Z.to_nat n_terms)))
        <= ((1 + Q2R (unit_roundoff (dps_to_prec precision)))
              ^ (Z.to_nat n_terms + List.length cs + 5) - 1)
           * (Q2R (rounding_mass IntegerOnly cs) / 64 * (4096 / 4095)))%R.
Proof.
  unfold Rounded.evaluate_integer_only_on, Rounded.get_prec, bindM, set_dps,
    lift.
  cbn [mp_dps stdout fst snd]. unfold Rounded.integer_only_value.
  destruct (rounded_series (dps_to_prec precision) (dps_to_prec_pos precision)
              (Rounded.mpf_of_int (dps_to_prec precision)) int_part
              (effective IntegerOnly)
              (fun s => Q2R (magnitude IntegerOnly s))
              (coefficient_integer_only (dps_to_prec precision)) cs n_terms)
    as (v & E & H1 & _).
  exists v. unfold int_coefs_of. rewrite E. split; [reflexivity|].
  rewrite sum_of_magnitudes in H1. exact H1.
Qed.

(** ** Values at concrete inputs *)

Lemma value_of_determines (r : result mpf) (v : mpf) (q : Q) :
  r = Ok v -> value_of r = q -> r = Ok (Q2Qc q).
Proof.
  intros E H. subst r. cbn [value_of] in H. f_equal.
  apply Qc_is_canon. rewrite H. cbn [this Q2Qc]. symmetry. apply Qred_correct.
Qed.

Lemma value_of_differs (r r' : result mpf) :
  Qeq_bool (value_of r) (value_of r') = false -> r <> r'.
Proof.
  intros H E. rewrite E in H.
  assert (H' : Qeq_bool (value_of r') (value_of r') = true)
    by (apply Qeq_bool_iff; reflexivity).
  congruence.
Qed.

Lemma integer_only_1_term_precision_1 :
  fst (Rounded.evaluate_integer_only 1 1 init_world) = Ok (Q2Qc (25 # 8)).
Proof.
  destruct (rounded_integer_only_on phi_bbp_coefficients 1 1 init_world)
    as (v & E & _).
  apply (value_of_determines _ v); [|vm_compute; reflexivity].
  unfold Rounded.evaluate_integer_only. rewrite E. reflexivity.
Qed.

Lemma integer_only_1_term_reversed :
  fst (Rounded.evaluate_integer_only_on (rev phi_bbp_coefficients) 1 1
         init_world)
  = Ok (Q2Qc (101 # 32)).
Proof.
  destruct (rounded_integer_only_on (rev phi_bbp_coefficients) 1 1 init_world)
    as (v & E & _).
  apply (value_of_determines _ v); [|vm_compute; reflexivity].
  rewrite E. reflexivity.
Qed.

Lemma partial_sum_1_term :
  spec_partial_sum IntegerOnly phi_bbp_coefficients 1
  = Q2Qc (696691 # 221760).
Proof.
  apply Qc_is_canon. vm_compute. reflexivity.
Qed.

(** ** The float literals *)

Lemma Q2R_Qcabs (x : Qc) : Q2R (Qcabs x) = Rabs (Q2R x).
Proof.
  exact (Q2R_Qabs x).
Qed.

Lemma Q2Qc_minus (x y : Q) : Q2Qc (x - y) = (Q2Qc x - Q2Qc y)%Qc.
Proof.
  apply Qc_is_canon. unfold Qcminus, Qcplus, Qcopp. cbn [this Q2Qc].
  rewrite !Qred_correct. reflexivity.
Qed.

Lemma spec_inner_gap (cs : coefficient_set) (k : nat) :
  spec_inner Corrected (float_coefficients cs) k
  = (spec_inner Corrected cs k + spec_inner Corrected (literal_gap cs) k)%Qc.
Proof.
  unfold spec_inner, float_coefficients, literal_gap.
  induction cs as [|s cs IH]; cbn [map fold_right]; [ring|].
  rewrite IH.
  cbn [effective float_entry period offset int_part correction].
  rewrite Q2Qc_minus. change (Q2Qc (inject_Z 0)) with 0%Qc.
  unfold Qcdiv. ring.
Qed.

Lemma spec_partial_sum_gap (cs : coefficient_set) (n : nat) :
  spec_partial_sum Corrected (float_coefficients cs) n
  = (spec_partial_sum Corrected cs n
     + spec_partial_sum Corrected (literal_gap cs) n)%Qc.
Proof.
  unfold spec_partial_sum. rewrite <- Qcdiv_plus_distr. f_equal.
  rewrite <- big_sum_plus. apply big_sum_ext. intros i.
  unfold spec_term. rewrite spec_inner_gap. ring.
Qed.

Lemma literal_gap_slots (cs : coefficient_set) :
  Forall (fun s => slot_ok (period s) (offset s)) cs ->
  Forall (fun s => slot_ok (period s) (offset s)) (literal_gap cs).
Proof.
  unfold literal_gap. induction 1 as [|s cs Hs _ IH]; cbn [map];
    constructor; [exact Hs|exact IH].
Qed.

(** The floats of the module are within 4e-19 of their literals each; the
    partial sum moves by less than 4e-20. *)
Lemma float_literals_gap (n : nat) :
  (Rabs (Q2R (spec_partial_sum Corrected
                (float_coefficients phi_bbp_coefficients) n)
         - Q2R (spec_partial_sum Corrected phi_bbp_coefficients n))
   <= 4e-20)%R.
Proof.
  rewrite spec_partial_sum_gap, Q2R_Qcplus.
  match goal with
  | |- (Rabs (?a + ?b - ?a) <= _)%R => replace (a + b - a)%R with b by ring
  end.
  destruct phi_bbp_coefficients_valid as [_ Hok].
  pose proof (partial_sum_tail Corrected _ 0 n
                (literal_gap_slots _ Hok)) as H.
  cbn [Nat.add] in H. rewrite spec_partial_sum_0, spec_base_0 in H.
  replace (spec_partial_sum Corrected (literal_gap phi_bbp_coefficients) n
           - 0)%Qc
    with (spec_partial_sum Corrected (literal_gap phi_bbp_coefficients) n)
    in H by ring.
  assert (Hc : (coefficient_mass Corrected (literal_gap phi_bbp_coefficients)
                / scale * (radix / (radix - 1)) * 1
                <= Q2Qc (1 # 25000000000000000000))%Qc)
    by (apply Qcle_alt; vm_compute; discriminate).
  pose proof (Qcle_trans _ _ _ H Hc) as H'.
  apply Qreals.Qle_Rle in H'. rewrite Q2R_Qcabs, Q2R_Q2Qc in H'.
  unfold Q2R at 2 in H'. cbn [Qnum Qden] in H'. lra.
Qed.

(** ** The series evaluator at a working precision *)

(** C2, as stated, fails at one term and precision 1: the integer-only
    evaluator returns 25/8 = 3.125, the partial sum is 696691/221760; the
    corrected evaluator at precision 50 and the integer-only evaluator at
    precision 200 do not return the partial sum either. *)
Lemma value_is_rounded :
  0 <= 1 /\ 0 < 1
  /\ fst (Rounded.evaluate_integer_only 1 1 init_world) = Ok (Q2Qc (25 # 8))
  /\ spec_partial_sum IntegerOnly phi_bbp_coefficients 1
     = Q2Qc (696691 # 221760)
  /\ fst (Rounded.evaluate_integer_only 1 1 init_world)
     <> Ok (spec_partial_sum IntegerOnly phi_bbp_coefficients 1)
  /\ fst (Rounded.evaluate_phi_bbp 1 50 init_world)
     <> Ok (spec_partial_sum Corrected
              (float_coefficients phi_bbp_coefficients) 1)
  /\ fst (Rounded.evaluate_integer_only 1 200 init_world)
     <> Ok (spec_partial_sum IntegerOnly phi_bbp_coefficients 1).
Proof.
  split; [lia|]. split; [lia|].
  split; [exact integer_only_1_term_precision_1|].
  split; [exact partial_sum_1_term|].
  repeat split; apply value_of_differs; vm_compute; reflexivity.
Qed.

Lemma constants_mass (m : mode) :
  (Q2R (rounding_mass m phi_bbp_coefficients) / 64 * (4096 / 4095) <= 10)%R.
Proof.
  assert (H : (rounding_mass m phi_bbp_coefficients <= 639)%Q)
    by (destruct m; apply Qle_bool_iff; vm_compute; reflexivity).
  apply Qreals.Qle_Rle in H.
  replace (Q2R 639) with 639%R in H by (unfold Q2R; cbn; lra).
  lra.
Qed.

Lemma growth_minus_1_nonneg (u : R) (j : nat) :
  (0 <= u)%R -> (0 <= (1 + u) ^ j - 1)%R.
Proof.
  intros Hu. pose proof (growth_ge_1 u Hu j). lra.
Qed.

(** C2, as the code has it: for [n_terms >= 0] and a positive precision, with
    [u = 2^(-mp.prec)] the relative error of one rounding, the evaluators
    return the partial sum of the terms
    [(-1)^k * 4096^(-k) * sum over the slots of effective / (period*k + offset)]
    for [k < n_terms], divided by 64, up to the [n_terms + 13] roundings of
    the loops: the distance is at most [((1 + u)^(n_terms + 13) - 1)] times
    [mass / 64 * 4096 / 4095], [mass] being the sum of the magnitudes of the
    coefficients (at most 10 in all for the constants of the module).  The
    effective coefficient is the integer part plus the correction, taken as
    the float its literal denotes (corrected), or the integer part alone
    (integer-only); for the constants of the module the partial sum over
    the floats is within 4e-20 of the partial sum over the decimal
    literals.  Zero terms give exactly 0. *)
Theorem evaluate_is_rounded_partial_sum (cs : coefficient_set)
  (n_terms precision : Z) (w : world) :
  List.length cs = 8%nat -> 0 <= n_terms -> 0 < precision ->
  exists v v_int p p_int : mpf,
    fst (Rounded.evaluate_phi_bbp_on cs n_terms precision w) = Ok v
    /\ (Rabs (Q2R v
              - Q2R (spec_partial_sum Corrected (float_coefficients cs)
                       (Z.to_nat n_terms)))
        <= ((1 + Q2R (unit_roundoff (dps_to_prec precision)))
              ^ (Z.to_nat n_terms + 13) - 1)
           * (Q2R (rounding_mass Corrected cs) / 64 * (4096 / 4095)))%R
    /\ fst (Rounded.evaluate_integer_only_on cs n_terms precision w)
       = Ok v_int
    /\ (Rabs (Q2R v_int
              - Q2R (spec_partial_sum IntegerOnly cs (Z.to_nat n_terms)))
        <= ((1 + Q2R (unit_roundoff (dps_to_prec precision)))
              ^ (Z.to_nat n_terms + 13) - 1)
           * (Q2R (rounding_mass IntegerOnly cs) / 64 * (4096 / 4095)))%R
    /\ fst (Rounded.evaluate_phi_bbp n_terms precision w) = Ok p
    /\ (Rabs (Q2R p
              - Q2R (spec_partial_sum Corrected
                       (float_coefficients phi_bbp_coefficients)
                       (Z.to_nat n_terms)))
        <= ((1 + Q2R (unit_roundoff (dps_to_prec precision)))
              ^ (Z.to_nat n_terms + 13) - 1) * 10)%R
    /\ fst (Rounded.evaluate_integer_only n_terms precision w) = Ok p_int
    /\ (Rabs (Q2R p_int
              - Q2R (spec_partial_sum IntegerOnly phi_bbp_coefficients
                       (Z.to_nat n_terms)))
        <= ((1 + Q2R (unit_roundoff (dps_to_prec precision)))
              ^ (Z.to_nat n_terms + 13) - 1) * 10)%R
    /\ (Rabs (Q2R (spec_partial_sum Corrected
                      (float_coefficients phi_bbp_coefficients)
                      (Z.to_nat n_terms))
               - Q2R (spec_partial_sum Corrected phi_bbp_coefficients
                        (Z.to_nat n_terms)))
         <= 4e-20)%R
    /\ fst (Rounded.evaluate_phi_bbp_on cs 0 precision w) = Ok 0%Qc
    /\ fst (Rounded.evaluate_integer_only_on cs 0 precision w) = Ok 0%Qc.
Proof.
  intros Hlen _ _.
  pose proof (Rlt_le _ _ (unit_roundoff_pos (dps_to_prec precision))) as Hu.
  pose proof (growth_minus_1_nonneg _ (Z.to_nat n_terms + 13) Hu) as Hg.
  destruct (rounded_phi_bbp_on cs n_terms precision w Hlen) as (v & E1 & H1).
  destruct (rounded_integer_only_on cs n_terms precision w)
    as (v_int & E2 & H2).
  destruct (rounded_phi_bbp_on phi_bbp_coefficients n_terms precision w
              eq_refl) as (p & E3 & H3).
  destruct (rounded_integer_only_on phi_bbp_coefficients n_terms precision w)
    as (p_int & E4 & H4).
  rewrite Hlen in H2.
  change (List.length phi_bbp_coefficients) with 8%nat in H4.
  replace (Z.to_nat n_terms + 8 + 5)%nat with (Z.to_nat n_terms + 13)%nat
    in H2, H4 by lia.
  exists v, v_int, p, p_int.
  unfold Rounded.evaluate_phi_bbp, Rounded.evaluate_integer_only.
  rewrite E1, E2, E3, E4. cbn [fst].
  repeat split; try assumption.
  - eapply Rle_trans; [exact H3|].
    apply Rmult_le_compat_l; [exact Hg|apply constants_mass].
  - eapply Rle_trans; [exact H4|].
    apply Rmult_le_compat_l; [exact Hg|apply constants_mass].
  - apply float_literals_gap.
  - unfold Rounded.evaluate_phi_bbp_on, Rounded.get_prec, bindM, set_dps,
      lift. cbn [fst snd mp_dps]. unfold Rounded.phi_bbp_value.
    rewrite (rounded_effective_coefs_of_set _ cs Hlen). cbn [bind].
    unfold Rounded.series. cbn [range Z.to_nat seq map for_each bind].
    rewrite rounded_of_int_0, (rounded_of_int_64 _ (dps_to_prec_pos _)).
    unfold Rounded.mpf_div. cbn [mpf_is_zero].
    replace (0 / scale)%Qc with 0%Qc by (unfold Qcdiv; ring).
    rewrite mpf_round_0. reflexivity.
  - unfold Rounded.evaluate_integer_only_on, Rounded.get_prec, bindM,
      set_dps, lift. cbn [fst snd mp_dps]. unfold Rounded.integer_only_value.
    unfold Rounded.series. cbn [range Z.to_nat seq map for_each bind].
    rewrite rounded_of_int_0, (rounded_of_int_64 _ (dps_to_prec_pos _)).
    unfold Rounded.mpf_div. cbn [mpf_is_zero].
    replace (0 / scale)%Qc with 0%Qc by (unfold Qcdiv; ring).
    rewrite mpf_round_0. reflexivity.
Qed.

Lemma evaluate_is_rounded_partial_sum_witness :
  List.length phi_bbp_coefficients = 8%nat /\ 0 <= 3 /\ 0 < 200
  /\ exists v : mpf,
       fst (Rounded.evaluate_phi_bbp_on phi_bbp_coefficients 3 200 init_world)
       = Ok v
       /\ (Rabs (Q2R v
                 - Q2R (spec_partial_sum Corrected
                          (float_coefficients phi_bbp_coefficients)
                          (Z.to_nat 3)))
           <= ((1 + Q2R (unit_roundoff (dps_to_prec 200)))
                 ^ (Z.to_nat 3 + 13) - 1)
              * (Q2R (rounding_mass Corrected phi_bbp_coefficients) / 64
                 * (4096 / 4095)))%R.
Proof.
  split; [reflexivity|]. split; [lia|]. split; [lia|].
  destruct (evaluate_is_rounded_partial_sum phi_bbp_coefficients 3 200
              init_world eq_refl (Z.lt_le_incl 0 3 eq_refl) eq_refl)
    as (v & _ & _ & _ & E & H & _).
  exists v. split; [exact E|exact H].
Defined.

(** ** Slot order *)

Lemma rounding_mass_perm (m : mode) (cs cs' : coefficient_set) :
  Permutation cs cs' ->
  Q2R (rounding_mass m cs) = Q2R (rounding_mass m cs').
Proof.
  intros H. unfold rounding_mass.
  induction H as [|s l l' _ IH|s s' l|l l' l'' _ IH1 _ IH2];
    cbn [fold_right].
  - reflexivity.
  - rewrite !Qreals.Q2R_plus, IH. reflexivity.
  - rewrite !Qreals.Q2R_plus. ring.
  - rewrite IH1. exact IH2.
Qed.

Lemma float_coefficients_perm (cs cs' : coefficient_set) :
  Permutation cs cs' ->
  Permutation (float_coefficients cs) (float_coefficients cs').
Proof.
  apply Permutation_map.
Qed.

Lemma Rabs_two_approximations (x y s b : R) :
  (Rabs (x - s) <= b)%R -> (Rabs (y - s) <= b)%R ->
  (Rabs (x - y) <= 2 * b)%R.
Proof.
  intros H1 H2. replace (x - y)%R with ((x - s) + - (y - s))%R by ring.
  eapply Rle_trans; [apply Rabs_triang|]. rewrite Rabs_Ropp. lra.
Qed.

(** C9, as stated, fails on the slots reversed: with one term at precision
    1 the integer-only evaluator returns 25/8 on the slots in their order
    and 101/32 on the slots reversed; the corrected evaluator also returns
    different values on the two orders, with one term at precision 50 and
    with three terms at precision 200. *)
Lemma slot_order_changes_result :
  List.length phi_bbp_coefficients = 8%nat
  /\ Permutation phi_bbp_coefficients (rev phi_bbp_coefficients)
  /\ fst (Rounded.evaluate_integer_only_on phi_bbp_coefficients 1 1
            init_world) = Ok (Q2Qc (25 # 8))
  /\ fst (Rounded.evaluate_integer_only_on (rev phi_bbp_coefficients) 1 1
            init_world) = Ok (Q2Qc (101 # 32))
  /\ fst (Rounded.evaluate_integer_only_on phi_bbp_coefficients 1 1
            init_world)
     <> fst (Rounded.evaluate_integer_only_on (rev phi_bbp_coefficients) 1 1
               init_world)
  /\ fst (Rounded.evaluate_phi_bbp_on phi_bbp_coefficients 1 50 init_world)
     <> fst (Rounded.evaluate_phi_bbp_on (rev phi_bbp_coefficients) 1 50
               init_world)
  /\ fst (Rounded.evaluate_phi_bbp_on phi_bbp_coefficients 3 200 init_world)
     <> fst (Rounded.evaluate_phi_bbp_on (rev phi_bbp_coefficients) 3 200
               init_world).
Proof.
  split; [reflexivity|]. split; [apply Permutation_rev|].
  split; [exact integer_only_1_term_precision_1|].
  split; [exact integer_only_1_term_reversed|].
  repeat split; apply value_of_differs; vm_compute; reflexivity.
Qed.

(** C9, as the code has it: permuting the 8 slots of a coefficient set, each
    with its
    coefficient and its correction, leaves the partial sum, the
    mathematical value, as it is, and moves the result of either evaluator
    by at most twice the rounding error of one evaluation,
    [((1 + u)^(n_terms + 13) - 1) * mass / 64 * 4096 / 4095] with
    [u = 2^(-mp.prec)], for every [n_terms] and precision. *)
Theorem reorder_slots_within_rounding (cs cs' : coefficient_set)
  (n_terms precision : Z) (w : world) :
  List.length cs = 8%nat -> Permutation cs cs' ->
  exists v v' v_int v_int' : mpf,
    fst (Rounded.evaluate_phi_bbp_on cs n_terms precision w) = Ok v
    /\ fst (Rounded.evaluate_phi_bbp_on cs' n_terms precision w) = Ok v'
    /\ spec_partial_sum Corrected (float_coefficients cs) (Z.to_nat n_terms)
       = spec_partial_sum Corrected (float_coefficients cs')
           (Z.to_nat n_terms)
    /\ (Rabs (Q2R v - Q2R v')
        <= 2 * (((1 + Q2R (unit_roundoff (dps_to_prec precision)))
                   ^ (Z.to_nat n_terms + 13) - 1)
                * (Q2R (rounding_mass Corrected cs) / 64 * (4096 / 4095))))%R
    /\ fst (Rounded.evaluate_integer_only_on cs n_terms precision w)
       = Ok v_int
    /\ fst (Rounded.evaluate_integer_only_on cs' n_terms precision w)
       = Ok v_int'
    /\ spec_partial_sum IntegerOnly cs (Z.to_nat n_terms)
       = spec_partial_sum IntegerOnly cs' (Z.to_nat n_terms)
    /\ (Rabs (Q2R v_int - Q2R v_int')
        <= 2 * (((1 + Q2R (unit_roundoff (dps_to_prec precision)))
                   ^ (Z.to_nat n_terms + 13) - 1)
                * (Q2R (rounding_mass IntegerOnly cs) / 64
                   * (4096 / 4095))))%R.
Proof.
  intros Hlen Hperm.
  assert (Hlen' : List.length cs' = 8%nat).
  { rewrite <- Hlen. symmetry. apply Permutation_length. exact Hperm. }
  destruct (rounded_phi_bbp_on cs n_terms precision w Hlen) as (v & E1 & H1).
  destruct (rounded_phi_bbp_on cs' n_terms precision w Hlen')
    as (v' & E2 & H2).
  destruct (rounded_integer_only_on cs n_terms precision w)
    as (v_int & E3 & H3).
  destruct (rounded_integer_only_on cs' n_terms precision w)
    as (v_int' & E4 & H4).
  pose proof (spec_partial_sum_perm Corrected _ _ (Z.to_nat n_terms)
                (float_coefficients_perm cs cs' Hperm)) as Ec.
  pose proof (spec_partial_sum_perm IntegerOnly cs cs' (Z.to_nat n_terms)
                Hperm) as Ei.
  rewrite <- Ec, <- (rounding_mass_perm Corrected cs cs' Hperm) in H2.
  rewrite <- Ei, <- (rounding_mass_perm IntegerOnly cs cs' Hperm), Hlen'
    in H4.
  rewrite Hlen in H3.
  replace (Z.to_nat n_terms + 8 + 5)%nat with (Z.to_nat n_terms + 13)%nat
    in H3, H4 by lia.
  exists v, v', v_int, v_int'. rewrite E1, E2, E3, E4. cbn [fst].
  split; [reflexivity|]. split; [reflexivity|]. split; [exact Ec|].
  split; [exact (Rabs_two_approximations _ _ _ _ H1 H2)|].
  split; [reflexivity|]. split; [reflexivity|]. split; [exact Ei|].
  exact (Rabs_two_approximations _ _ _ _ H3 H4).
Qed.

Lemma reorder_slots_within_rounding_witness :
  List.length phi_bbp_coefficients = 8%nat
  /\ Permutation phi_bbp_coefficients (rev phi_bbp_coefficients)
  /\ exists v v' : mpf,
       fst (Rounded.evaluate_phi_bbp_on phi_bbp_coefficients 3 200
              init_world) = Ok v
       /\ fst (Rounded.evaluate_phi_bbp_on (rev phi_bbp_coefficients) 3 200
                 init_world) = Ok v'
       /\ (Rabs (Q2R v - Q2R v')
           <= 2 * (((1 + Q2R (unit_roundoff (dps_to_prec 200)))
                      ^ (Z.to_nat 3 + 13) - 1)
                   * (Q2R (rounding_mass Corrected phi_bbp_coefficients) / 64
                      * (4096 / 4095))))%R.
Proof.
  split; [reflexivity|]. split; [apply Permutation_rev|].
  destruct (reorder_slots_within_rounding phi_bbp_coefficients
              (rev phi_bbp_coefficients) 3 200 init_world eq_refl
              (Permutation_rev phi_bbp_coefficients))
    as (v & v' & _ & _ & E & E' & _ & H & _).
  exists v, v'. split; [exact E|]. split; [exact E'|exact H].
Defined.

(** ** Further properties of the evaluators at a working precision *)

Lemma rounding_error_mono (u M : R) (j j' : nat) :
  (0 <= u)%R -> (0 <= M)%R -> (j <= j')%nat ->
  (((1 + u) ^ j - 1) * M <= ((1 + u) ^ j' - 1) * M)%R.
Proof.
  intros Hu HM Hj. pose proof (growth_mono u Hu j j' Hj).
  apply Rmult_le_compat_r; [exact HM|lra].
Qed.

Lemma rounding_mass_nonneg (m : mode) (cs : coefficient_set) :
  (0 <= Q2R (rounding_mass m cs) / 64 * (4096 / 4095))%R.
Proof.
  assert (H : (0 <= Q2R (rounding_mass m cs))%R).
  { rewrite <- RMicromega.Q2R_0. apply Qreals.Qle_Rle.
    unfold rounding_mass. induction cs as [|s cs IH]; cbn [fold_right].
    - apply Qle_refl.
    - assert (Hs : (0 <= magnitude m s)%Q).
      { destruct m; cbn [magnitude];
          [pose proof (Qabs_nonneg (inject_Z (int_part s)));
           pose proof (Qabs_nonneg (binary64 (correction s))); Lqa.lra
          |apply Qabs_nonneg]. }
      Lqa.lra. }
  lra.
Qed.

Lemma Rabs_step (a a' s s' t b b' : R) :
  (Rabs (a - s) <= b)%R -> (Rabs (a' - s') <= b')%R -> s' = (s + t)%R ->
  (b <= b')%R ->
  (Rabs (a' - (a + t)) <= 2 * b')%R.
Proof.
  intros H1 H2 E Hb. subst s'.
  replace (a' - (a + t))%R with ((a' - (s + t)) + - (a - s))%R by ring.
  eapply Rle_trans; [apply Rabs_triang|]. rewrite Rabs_Ropp. lra.
Qed.

Lemma spec_partial_sum_succ (m : mode) (cs : coefficient_set) (n : nat) :
  Q2R (spec_partial_sum m cs (S n))
  = (Q2R (spec_partial_sum m cs n) + Q2R (spec_term m cs n / scale)%Qc)%R.
Proof.
  unfold spec_partial_sum. cbn [big_sum].
  rewrite Qcdiv_plus_distr, Q2R_Qcplus. reflexivity.
Qed.

(** X1: up to rounding, one more term adds
    [(-1)^n * 4096^(-n) * inner(n) / 64] to the value: for [n_terms >= 0],
    [evaluate(n_terms + 1)] is within twice the rounding error of
    [n_terms + 1] terms of [evaluate(n_terms)] plus the term of index
    [n_terms] divided by 64, in both modes. *)
Theorem evaluate_adds_term (cs : coefficient_set) (n_terms precision : Z)
  (w w' : world) :
  List.length cs = 8%nat -> 0 <= n_terms ->
  exists v v' v_int v_int' : mpf,
    fst (Rounded.evaluate_phi_bbp_on cs n_terms precision w) = Ok v
    /\ fst (Rounded.evaluate_phi_bbp_on cs (n_terms + 1) precision w')
       = Ok v'
    /\ (Rabs (Q2R v'
              - (Q2R v
                 + Q2R (spec_term Corrected (float_coefficients cs)
                          (Z.to_nat n_terms) / scale)%Qc))
        <= 2 * (((1 + Q2R (unit_roundoff (dps_to_prec precision)))
                   ^ (Z.to_nat n_terms + 14) - 1)
                * (Q2R (rounding_mass Corrected cs) / 64 * (4096 / 4095))))%R
    /\ fst (Rounded.evaluate_integer_only_on cs n_terms precision w)
       = Ok v_int
    /\ fst (Rounded.evaluate_integer_only_on cs (n_terms + 1) precision w')
       = Ok v_int'
    /\ (Rabs (Q2R v_int'
              - (Q2R v_int
                 + Q2R (spec_term IntegerOnly cs (Z.to_nat n_terms)
                        / scale)%Qc))
        <= 2 * (((1 + Q2R (unit_roundoff (dps_to_prec precision)))
                   ^ (Z.to_nat n_terms + 14) - 1)
                * (Q2R (rounding_mass IntegerOnly cs) / 64
                   * (4096 / 4095))))%R.
Proof.
  intros Hlen Hn.
  pose proof (Rlt_le _ _ (unit_roundoff_pos (dps_to_prec precision))) as Hu.
  destruct (rounded_phi_bbp_on cs n_terms precision w Hlen) as (v & E1 & H1).
  destruct (rounded_phi_bbp_on cs (n_terms + 1) precision w' Hlen)
    as (v' & E2 & H2).
  destruct (rounded_integer_only_on cs n_terms precision w)
    as (v_int & E3 & H3).
  destruct (rounded_integer_only_on cs (n_terms + 1) precision w')
    as (v_int' & E4 & H4).
  rewrite Hlen in H3, H4.
  replace (Z.to_nat (n_terms + 1)) with (S (Z.to_nat n_terms)) in * by lia.
  replace (S (Z.to_nat n_terms) + 13)%nat with (Z.to_nat n_terms + 14)%nat
    in H2 by lia.
  replace (S (Z.to_nat n_terms) + 8 + 5)%nat
    with (Z.to_nat n_terms + 14)%nat in H4 by lia.
  replace (Z.to_nat n_terms + 8 + 5)%nat with (Z.to_nat n_terms + 13)%nat
    in H3 by lia.
  exists v, v', v_int, v_int'. rewrite E1, E2, E3, E4. cbn [fst].
  split; [reflexivity|]. split; [reflexivity|]. split.
  - eapply Rabs_step; [exact H1|exact H2|apply spec_partial_sum_succ|].
    apply rounding_error_mono; [exact Hu|apply rounding_mass_nonneg|lia].
  - split; [reflexivity|]. split; [reflexivity|].
    eapply Rabs_step; [exact H3|exact H4|apply spec_partial_sum_succ|].
    apply rounding_error_mono; [exact Hu|apply rounding_mass_nonneg|lia].
Qed.

Lemma evaluate_adds_term_witness :
  List.length phi_bbp_coefficients = 8%nat /\ 0 <= 2
  /\ exists v v' : mpf,
       fst (Rounded.evaluate_phi_bbp_on phi_bbp_coefficients 2 200
              init_world) = Ok v
       /\ fst (Rounded.evaluate_phi_bbp_on phi_bbp_coefficients (2 + 1) 200
                 init_world) = Ok v'
       /\ (Rabs (Q2R v'
                 - (Q2R v
                    + Q2R (spec_term Corrected
                             (float_coefficients phi_bbp_coefficients)
                             (Z.to_nat 2) / scale)%Qc))
           <= 2 * (((1 + Q2R (unit_roundoff (dps_to_prec 200)))
                      ^ (Z.to_nat 2 + 14) - 1)
                   * (Q2R (rounding_mass Corrected phi_bbp_coefficients) / 64
                      * (4096 / 4095))))%R.
Proof.
  split; [reflexivity|]. split; [lia|].
  destruct (evaluate_adds_term phi_bbp_coefficients 2 200 init_world
              init_world eq_refl (Z.le_0_2))
    as (v & v' & _ & _ & E & E' & H & _).
  exists v, v'. split; [exact E|]. split; [exact E'|exact H].
Defined.

Lemma spec_partial_sum_integer_float (cs : coefficient_set) (n : nat) :
  spec_partial_sum IntegerOnly (float_coefficients cs) n
  = spec_partial_sum IntegerOnly cs n.
Proof.
  unfold spec_partial_sum. f_equal. apply big_sum_ext. intros i.
  unfold spec_term. f_equal. unfold spec_inner, float_coefficients.
  induction cs as [|s cs IH]; cbn [map fold_right]; [reflexivity|].
  rewrite IH. reflexivity.
Qed.

Lemma corrections_only_float (cs : coefficient_set) :
  corrections_only (float_coefficients cs)
  = float_coefficients (corrections_only cs).
Proof.
  unfold corrections_only, float_coefficients. rewrite !map_map.
  reflexivity.
Qed.

Lemma spec_partial_sum_split (cs : coefficient_set) (n : nat) :
  spec_partial_sum Corrected cs n
  = (spec_partial_sum IntegerOnly cs n
     + spec_partial_sum Corrected (corrections_only cs) n)%Qc.
Proof.
  unfold spec_partial_sum. rewrite <- Qcdiv_plus_distr. f_equal.
  rewrite <- big_sum_plus. apply big_sum_ext. intros i.
  unfold spec_term. rewrite spec_inner_split. ring.
Qed.

Lemma rounding_mass_split (cs : coefficient_set) :
  Q2R (rounding_mass Corrected cs)
  = (Q2R (rounding_mass IntegerOnly cs)
     + Q2R (rounding_mass Corrected (corrections_only cs)))%R.
Proof.
  unfold rounding_mass, corrections_only.
  induction cs as [|s cs IH]; cbn [map fold_right].
  - rewrite RMicromega.Q2R_0. ring.
  - rewrite !Qreals.Q2R_plus, IH.
    cbn [magnitude int_part correction]. rewrite !Qreals.Q2R_plus.
    change (Q2R (Qabs (inject_Z 0))) with (Q2R 0).
    rewrite RMicromega.Q2R_0. ring.
Qed.

(** X2: up to rounding, the corrected value is the integer-only value plus
    the value of the series whose coefficients are the corrections alone:
    the three results differ by at most twice the rounding error of the
    corrected evaluation. *)
Theorem corrected_is_integer_plus_corrections (cs : coefficient_set)
  (n_terms precision : Z) (w : world) :
  List.length cs = 8%nat ->
  exists v v_int c : mpf,
    fst (Rounded.evaluate_phi_bbp_on cs n_terms precision w) = Ok v
    /\ fst (Rounded.evaluate_integer_only_on cs n_terms precision w)
       = Ok v_int
    /\ fst (Rounded.evaluate_phi_bbp_on (corrections_only cs) n_terms
              precision w) = Ok c
    /\ (Rabs (Q2R v - (Q2R v_int + Q2R c))
        <= 2 * (((1 + Q2R (unit_roundoff (dps_to_prec precision)))
                   ^ (Z.to_nat n_terms + 13) - 1)
                * (Q2R (rounding_mass Corrected cs) / 64 * (4096 / 4095))))%R.
Proof.
  intros Hlen.
  assert (Hlen' : List.length (corrections_only cs) = 8%nat).
  { unfold corrections_only. rewrite length_map. exact Hlen. }
  destruct (rounded_phi_bbp_on cs n_terms precision w Hlen) as (v & E1 & H1).
  destruct (rounded_integer_only_on cs n_terms precision w)
    as (v_int & E2 & H2).
  destruct (rounded_phi_bbp_on (corrections_only cs) n_terms precision w
              Hlen') as (c & E3 & H3).
  rewrite Hlen in H2.
  replace (Z.to_nat n_terms + 8 + 5)%nat with (Z.to_nat n_terms + 13)%nat
    in H2 by lia.
  exists v, v_int, c. rewrite E1, E2, E3. cbn [fst].
  split; [reflexivity|]. split; [reflexivity|]. split; [reflexivity|].
  rewrite (spec_partial_sum_split (float_coefficients cs)) in H1.
  rewrite spec_partial_sum_integer_float, corrections_only_float,
    Q2R_Qcplus in H1.
  rewrite (rounding_mass_split cs) in *.
  set (g := ((1 + Q2R (unit_roundoff (dps_to_prec precision)))
               ^ (Z.to_nat n_terms + 13) - 1)%R) in *.
  set (Mi := Q2R (rounding_mass IntegerOnly cs)) in *.
  set (Mc := Q2R (rounding_mass Corrected (corrections_only cs))) in *.
  set (Si := Q2R (spec_partial_sum IntegerOnly cs (Z.to_nat n_terms))) in *.
  set (Sc := Q2R (spec_partial_sum Corrected
                    (float_coefficients (corrections_only cs))
                    (Z.to_nat n_terms))) in *.
  replace (Q2R v - (Q2R v_int + Q2R c))%R
    with ((Q2R v - (Si + Sc)) + (- (Q2R v_int - Si) + - (Q2R c - Sc)))%R
    by ring.
  eapply Rle_trans; [apply Rabs_triang|].
  eapply Rle_trans;
    [apply Rplus_le_compat_l; apply Rabs_triang|].
  rewrite !Rabs_Ropp. lra.
Qed.

Lemma corrected_is_integer_plus_corrections_witness :
  List.length phi_bbp_coefficients = 8%nat
  /\ exists v v_int c : mpf,
       fst (Rounded.evaluate_phi_bbp 3 200 init_world) = Ok v
       /\ fst (Rounded.evaluate_integer_only 3 200 init_world) = Ok v_int
       /\ fst (Rounded.evaluate_phi_bbp_on
                 (corrections_only phi_bbp_coefficients) 3 200 init_world)
          = Ok c
       /\ (Rabs (Q2R v - (Q2R v_int + Q2R c))
           <= 2 * (((1 + Q2R (unit_roundoff (dps_to_prec 200)))
                      ^ (Z.to_nat 3 + 13) - 1)
                   * (Q2R (rounding_mass Corrected phi_bbp_coefficients) / 64
                      * (4096 / 4095))))%R.
Proof.
  split; [reflexivity|].
  exact (corrected_is_integer_plus_corrections phi_bbp_coefficients 3 200
           init_world eq_refl).
Defined.

Lemma float_coefficients_slots (cs : coefficient_set) :
  Forall (fun s => slot_ok (period s) (offset s)) cs ->
  Forall (fun s => slot_ok (period s) (offset s)) (float_coefficients cs).
Proof.
  unfold float_coefficients. induction 1 as [|s cs Hs _ IH]; cbn [map];
    constructor; [exact Hs|exact IH].
Qed.

Lemma partial_sum_tail_real (m : mode) (cs : coefficient_set) (n j : nat) :
  Forall (fun s => slot_ok (period s) (offset s)) cs ->
  (Rabs (Q2R (spec_partial_sum m cs (n + j)) - Q2R (spec_partial_sum m cs n))
   <= Q2R (coefficient_mass m cs / scale * (radix / (radix - 1))
           * spec_base n)%Qc)%R.
Proof.
  intros Hok. rewrite <- Q2R_Qcminus, <- Q2R_Qcabs.
  apply Qreals.Qle_Rle. apply (partial_sum_tail m cs n j Hok).
Qed.

Lemma Rabs_settle (a a' s s' t b : R) :
  (Rabs (a - s) <= b)%R -> (Rabs (a' - s') <= b)%R ->
  (Rabs (s' - s) <= t)%R ->
  (Rabs (a' - a) <= t + 2 * b)%R.
Proof.
  intros H1 H2 H3.
  replace (a' - a)%R with ((a' - s') + ((s' - s) + - (a - s)))%R by ring.
  eapply Rle_trans; [apply Rabs_triang|].
  eapply Rle_trans; [apply Rplus_le_compat_l; apply Rabs_triang|].
  rewrite Rabs_Ropp. lra.
Qed.

(** X14: the values settle geometrically, up to rounding: on a valid
    coefficient set, whatever the number of terms added after the first
    [n_terms], the value moves by at most
    [mass / 64 * (4096 / 4095) / 4096^n_terms], [mass] being the sum of the
    absolute values of the effective coefficients, plus twice the rounding
    error of the longer evaluation. *)
Theorem partial_sums_settle (cs : coefficient_set)
  (n_terms more precision : Z) (w w' : world) :
  valid_coefficient_set cs -> 0 <= n_terms -> 0 <= more ->
  exists v v' v_int v_int' : mpf,
    fst (Rounded.evaluate_phi_bbp_on cs n_terms precision w) = Ok v
    /\ fst (Rounded.evaluate_phi_bbp_on cs (n_terms + more) precision w')
       = Ok v'
    /\ (Rabs (Q2R v' - Q2R v)
        <= Q2R (coefficient_mass Corrected (float_coefficients cs) / scale
                * (radix / (radix - 1)) * spec_base (Z.to_nat n_terms))%Qc
           + 2 * (((1 + Q2R (unit_roundoff (dps_to_prec precision)))
                     ^ (Z.to_nat (n_terms + more) + 13) - 1)
                  * (Q2R (rounding_mass Corrected cs) / 64
                     * (4096 / 4095))))%R
    /\ fst (Rounded.evaluate_integer_only_on cs n_terms precision w)
       = Ok v_int
    /\ fst (Rounded.evaluate_integer_only_on cs (n_terms + more) precision
              w') = Ok v_int'
    /\ (Rabs (Q2R v_int' - Q2R v_int)
        <= Q2R (coefficient_mass IntegerOnly cs / scale
                * (radix / (radix - 1)) * spec_base (Z.to_nat n_terms))%Qc
           + 2 * (((1 + Q2R (unit_roundoff (dps_to_prec precision)))
                     ^ (Z.to_nat (n_terms + more) + 13) - 1)
                  * (Q2R (rounding_mass IntegerOnly cs) / 64
                     * (4096 / 4095))))%R.
Proof.
  intros [Hlen Hok] Hn Hm.
  pose proof (Rlt_le _ _ (unit_roundoff_pos (dps_to_prec precision))) as Hu.
  destruct (rounded_phi_bbp_on cs n_terms precision w Hlen) as (v & E1 & H1).
  destruct (rounded_phi_bbp_on cs (n_terms + more) precision w' Hlen)
    as (v' & E2 & H2).
  destruct (rounded_integer_only_on cs n_terms precision w)
    as (v_int & E3 & H3).
  destruct (rounded_integer_only_on cs (n_terms + more) precision w')
    as (v_int' & E4 & H4).
  rewrite Hlen in H3, H4.
  replace (Z.to_nat n_terms + 8 + 5)%nat with (Z.to_nat n_terms + 13)%nat
    in H3 by lia.
  replace (Z.to_nat (n_terms + more) + 8 + 5)%nat
    with (Z.to_nat (n_terms + more) + 13)%nat in H4 by lia.
  assert (Hle : (Z.to_nat n_terms + 13 <= Z.to_nat (n_terms + more) + 13)%nat)
    by lia.
  pose proof (rounding_error_mono _ _ _ _ Hu
                (rounding_mass_nonneg Corrected cs) Hle) as Hc.
  pose proof (rounding_error_mono _ _ _ _ Hu
                (rounding_mass_nonneg IntegerOnly cs) Hle) as Hi.
  pose proof (partial_sum_tail_real Corrected _ (Z.to_nat n_terms)
                (Z.to_nat more) (float_coefficients_slots cs Hok)) as Tc.
  pose proof (partial_sum_tail_real IntegerOnly cs (Z.to_nat n_terms)
                (Z.to_nat more) Hok) as Ti.
  replace (Z.to_nat n_terms + Z.to_nat more)%nat
    with (Z.to_nat (n_terms + more)) in Tc, Ti by lia.
  exists v, v', v_int, v_int'. rewrite E1, E2, E3, E4. cbn [fst].
  split; [reflexivity|]. split; [reflexivity|]. split.
  - eapply Rabs_settle; [|exact H2|exact Tc].
    eapply Rle_trans; [exact H1|exact Hc].
  - split; [reflexivity|]. split; [reflexivity|].
    eapply Rabs_settle; [|exact H4|exact Ti].
    eapply Rle_trans; [exact H3|exact Hi].
Qed.

Lemma partial_sums_settle_witness :
  valid_coefficient_set phi_bbp_coefficients /\ 0 <= 2 /\ 0 <= 3
  /\ exists v v' : mpf,
       fst (Rounded.evaluate_phi_bbp_on phi_bbp_coefficients 2 200
              init_world) = Ok v
       /\ fst (Rounded.evaluate_phi_bbp_on phi_bbp_coefficients (2 + 3) 200
                 init_world) = Ok v'
       /\ (Rabs (Q2R v' - Q2R v)
           <= Q2R (coefficient_mass Corrected
                     (float_coefficients phi_bbp_coefficients) / scale
                   * (radix / (radix - 1)) * spec_base (Z.to_nat 2))%Qc
              + 2 * (((1 + Q2R (unit_roundoff (dps_to_prec 200)))
                        ^ (Z.to_nat (2 + 3) + 13) - 1)
                     * (Q2R (rounding_mass Corrected phi_bbp_coefficients)
                        / 64 * (4096 / 4095))))%R.
Proof.
  split; [exact phi_bbp_coefficients_valid|]. split; [lia|]. split; [lia|].
  destruct (partial_sums_settle phi_bbp_coefficients 2 3 200 init_world
              init_world phi_bbp_coefficients_valid (Z.le_0_2)
              (Z.lt_le_incl 0 3 eq_refl))
    as (v & v' & _ & _ & E & E' & H & _).
  exists v, v'. split; [exact E|]. split; [exact E'|exact H].
Defined.

(** X19: the sign and the power of the radix are never rounded: at every
    working precision [mpf(-1)**k] is exactly [(-1)^k], [mpf(4096)**k] is
    exactly [4096^k], [mpf(1) / mpf(4096)**k] is exactly [4096^(-k)], and
    [sign * base_term] is their exact product; the roundings of a term are
    those of the coefficients, of the quotients and of the sums. *)
Theorem sign_and_base_are_exact (precision : Z) (i : nat) :
  Rounded.mpf_pow (dps_to_prec precision)
    (Rounded.mpf_of_int (dps_to_prec precision) (-1)) (Z.of_nat i)
  = Ok (spec_sign i)
  /\ Rounded.mpf_pow (dps_to_prec precision)
       (Rounded.mpf_of_int (dps_to_prec precision) 4096) (Z.of_nat i)
     = Ok (radix ^ i)%Qc
  /\ Rounded.mpf_div (dps_to_prec precision)
       (Rounded.mpf_of_int (dps_to_prec precision) 1) (radix ^ i)%Qc
     = Ok (spec_base i)
  /\ Rounded.mpf_mul (dps_to_prec precision) (spec_sign i) (spec_base i)
     = (spec_sign i * spec_base i)%Qc
  /\ spec_sign i = (mpf_of_int (-1) ^ i)%Qc
  /\ spec_base i = (/ (mpf_of_int 4096 ^ i))%Qc.
Proof.
  pose proof (dps_to_prec_pos precision) as Hp.
  split; [exact (rounded_sign _ Hp i)|].
  split; [exact (rounded_radix_power _ Hp i)|].
  split; [exact (rounded_base _ Hp i)|].
  split; [exact (rounded_sign_base _ Hp i)|].
  split; [symmetry; apply minus_one_power|reflexivity].
Qed.
